(** * ATPG circuit primitives ([gate.py]): five-valued simulation,
      controllability and fan-out queries.

    The Python objects [Node] and [Gate] reference each other, so the
    development keeps them in two arenas (lists indexed by handle) inside a
    [circuit]; a Python reference is a handle, and mutation of an object is an
    update of its arena slot.  Methods are written in a state-and-exception
    monad [M] over the circuit.  Display-only data (the [name] fields,
    [__repr__]) is not stored; the name generator is a function of its own. *)

From Stdlib Require Import ZArith Lia Ascii.
From stdpp Require Import base option list numbers.

Open Scope Z_scope.

(** ** Python outcomes *)

(** The exceptions the module can raise.  [DanglingRef] has no Python
    counterpart: it is the outcome of following a handle that is not in the
    arena, which the well-formedness invariant [wf] excludes. *)
Inductive exn : Type :=
  | ValueError
  | AssertionError
  | IndexError
  | TypeError
  | DanglingRef.

Inductive result (A : Type) : Type :=
  | Ok (a : A)
  | Raise (e : exn).
Arguments Ok {A} a.
Arguments Raise {A} e.

#[global] Instance result_ret : MRet result := @Ok.
#[global] Instance result_bind : MBind result := λ A B f r,
  match r with
  | Ok a => f a
  | Raise e => Raise e
  end.
#[global] Instance result_fmap : FMap result := λ A B f r,
  match r with
  | Ok a => Ok (f a)
  | Raise e => Raise e
  end.

(** ** The five logic values: [0], [1], ['X'], ['D'], ['~D'] *)

Inductive value : Type := L0 | L1 | LX | LD | LDbar.

#[global] Instance value_eq_dec : EqDecision value.
Proof. solve_decision. Defined.

(** Python truthiness, as used by [any]: the integer [0] is false, [1] and the
    non-empty strings are true. *)
Definition truthy (v : value) : bool :=
  match v with
  | L0 => false
  | _ => true
  end.

(** [x in xs] on a Python list. *)
Definition py_in (x : value) (xs : list value) : bool := bool_decide (x ∈ xs).

Module Logic.

(** [Gate.invert]: a dictionary lookup, total on the five values. *)
Definition invert (val : value) : value :=
  match val with
  | LX => LX
  | LD => LDbar
  | LDbar => LD
  | L0 => L1
  | L1 => L0
  end.

(** [assert len(inputs) == 1], then [invert(inputs[0])]. *)
Definition not_propagate (inputs : list value) : result value :=
  match inputs with
  | [v] => Ok (invert v)
  | _ => Raise AssertionError
  end.

Definition and_propagate (inputs : list value) : result value :=
  if negb (1 <? length inputs)%nat then Raise AssertionError
  else if py_in L0 inputs then Ok L0
  else if forallb (λ x, bool_decide (x = L1)) inputs then Ok L1
  else
    let d_found := py_in LD inputs in
    let d_prime_found := py_in LDbar inputs in
    if d_found && d_prime_found then Ok L0
    else if py_in LX inputs then Ok LX
    else if d_found && negb d_prime_found then Ok LD
    else if negb d_found && d_prime_found then Ok LDbar
    else Ok L0.

Definition or_propagate (inputs : list value) : result value :=
  if negb (1 <? length inputs)%nat then Raise AssertionError
  else if py_in L1 inputs then Ok L1
  else if negb (existsb truthy inputs) then Ok L0
  else
    let d_found := py_in LD inputs in
    let d_prime_found := py_in LDbar inputs in
    if d_found && d_prime_found then Ok L1
    else if py_in LX inputs then Ok LX
    else if d_found then Ok LD
    else Ok LDbar.

Definition nand_propagate (inputs : list value) : result value :=
  invert <$> and_propagate inputs.

Definition nor_propagate (inputs : list value) : result value :=
  invert <$> or_propagate inputs.

(** The local helper [xor_2inp] of [xor_propagate]. *)
Definition xor_2inp (a b : value) : result value :=
  first_and ← and_propagate [a; invert b];
  second_and ← and_propagate [b; invert a];
  or_propagate [first_and; second_and].

(** The [while] loop of [xor_propagate].  [stack] is the remaining input
    list read from its end: its head is the element [inputs.pop(-1)]
    removes next. *)
Fixpoint xor_loop (val : value) (stack : list value) : result value :=
  match stack with
  | [] => Ok val
  | new_val :: stack' => val' ← xor_2inp val new_val; xor_loop val' stack'
  end.

(** [inputs.pop(-1)] on an empty list raises [IndexError]. *)
Definition xor_propagate (inputs : list value) : result value :=
  match reverse inputs with
  | [] => Raise IndexError
  | val :: stack => xor_loop val stack
  end.

Definition xnor_propagate (inputs : list value) : result value :=
  invert <$> xor_propagate inputs.

End Logic.

(** ** Data model *)

(** Handles into the two arenas. *)
Abbreviation node_id := nat (only parsing).
Abbreviation gate_id := nat (only parsing).

(** The [type] tag of a gate: the strings ["not"], ["and"], ... *)
Inductive gate_type : Type :=
  t_not | t_and | t_nand | t_or | t_nor | t_xor | t_xnor.

#[global] Instance gate_type_eq_dec : EqDecision gate_type.
Proof. solve_decision. Defined.

(** [class Node].  [stuck_at] is [None] or an integer; [gates] lists the gates
    this node feeds, one entry per [append] in [Gate.__init__]; [gate_output]
    is the producing gate ([None] for a primary input); [cc0]/[cc1] are [None]
    until [set_controllability] stores them. *)
Record Node : Type := mkNode {
  stuck_at : option Z;
  state : value;
  gates : list gate_id;
  gate_output : option gate_id;
  cc0 : option Z;
  cc1 : option Z
}.

(** [class Gate]. *)
Record Gate : Type := mkGate {
  control_value : Z;
  type : gate_type;
  inputs : list node_id;
  output : node_id;
  depth : nat
}.

Record circuit : Type := mkCircuit {
  nodes : list Node;
  gate_heap : list Gate
}.

Definition empty_circuit : circuit := mkCircuit [] [].

(** Field assignments [self.state = v], [self.gates.append(g)], ... *)
Definition with_state (v : value) (nd : Node) : Node :=
  mkNode (stuck_at nd) v (gates nd) (gate_output nd) (cc0 nd) (cc1 nd).
Definition with_stuck_at (s : option Z) (nd : Node) : Node :=
  mkNode s (state nd) (gates nd) (gate_output nd) (cc0 nd) (cc1 nd).
Definition with_gates (gs : list gate_id) (nd : Node) : Node :=
  mkNode (stuck_at nd) (state nd) gs (gate_output nd) (cc0 nd) (cc1 nd).
Definition with_cc (c0 c1 : Z) (nd : Node) : Node :=
  mkNode (stuck_at nd) (state nd) (gates nd) (gate_output nd) (Some c0) (Some c1).
Definition with_control_value (v : Z) (g : Gate) : Gate :=
  mkGate v (type g) (inputs g) (output g) (depth g).

(** ** The monad of methods: circuit state plus Python exceptions.
    A raised exception leaves the circuit as it was at the [raise]. *)

Definition M (A : Type) : Type := circuit → result A * circuit.

#[global] Instance M_ret : MRet M := λ A a c, (Ok a, c).
#[global] Instance M_bind : MBind M := λ A B f m c,
  match m c with
  | (Ok a, c') => f a c'
  | (Raise e, c') => (Raise e, c')
  end.

Definition raise {A} (e : exn) : M A := λ c, (Raise e, c).
Definition lift {A} (r : result A) : M A := λ c, (r, c).
Definition get_circuit : M circuit := λ c, (Ok c, c).

Definition get_node (n : node_id) : M Node := λ c,
  match nodes c !! n with
  | Some nd => (Ok nd, c)
  | None => (Raise DanglingRef, c)
  end.

Definition get_gate (g : gate_id) : M Gate := λ c,
  match gate_heap c !! g with
  | Some gt => (Ok gt, c)
  | None => (Raise DanglingRef, c)
  end.

Definition put_node (n : node_id) (nd : Node) : M unit := λ c,
  (Ok tt, mkCircuit (<[n := nd]> (nodes c)) (gate_heap c)).

Definition put_gate (g : gate_id) (gt : Gate) : M unit := λ c,
  (Ok tt, mkCircuit (nodes c) (<[g := gt]> (gate_heap c))).

(** Allocation of a fresh object: its handle is the next free slot. *)
Definition alloc_node (nd : Node) : M node_id := λ c,
  (Ok (length (nodes c)), mkCircuit (nodes c ++ [nd]) (gate_heap c)).

Definition alloc_gate (gt : Gate) : M gate_id := λ c,
  (Ok (length (gate_heap c)), mkCircuit (nodes c) (gate_heap c ++ [gt])).

(** [for x in xs: body(x)], a [for] loop threading an accumulator, and a list
    comprehension with an effectful body, in either monad. *)
Section loops.
Context {F : Type → Type} `{!MBind F, !MRet F}.

Fixpoint for_each {A} (body : A → F unit) (xs : list A) : F unit :=
  match xs with
  | [] => mret tt
  | x :: xs' => body x;; for_each body xs'
  end.

Fixpoint for_fold {A B} (body : B → A → F B) (acc : B) (xs : list A) : F B :=
  match xs with
  | [] => mret acc
  | x :: xs' => acc' ← body acc x; for_fold body acc' xs'
  end.

Fixpoint map_M {A B} (f : A → F B) (xs : list A) : F (list B) :=
  match xs with
  | [] => mret []
  | x :: xs' => y ← f x; ys ← map_M f xs'; mret (y :: ys)
  end.
End loops.

(** An operand that must be an integer: [None] in arithmetic or in a
    comparison raises [TypeError]. *)
Definition as_int (o : option Z) : result Z :=
  match o with
  | Some z => Ok z
  | None => Raise TypeError
  end.

(** ** Names *)

(** [chr] on the code points the module uses. *)
Definition chr (z : Z) : ascii := ascii_of_nat (Z.to_nat z).

(** [generate_name(count)]: [divmod] rounds towards minus infinity, as
    [Z.div] and [Z.modulo] do.  The recursion is bounded by [fuel], the
    depth the interpreter allows; [None] is [RecursionError]. *)
Fixpoint generate_name (fuel : nat) (count : Z) : option (list ascii) :=
  match fuel with
  | O => None
  | S fuel' =>
      let quot := (count - 1) / 26 in
      let rem := (count - 1) mod 26 in
      if count =? 0 then Some []
      else s ← generate_name fuel' quot; Some (s ++ [chr (rem + 65)])
  end.

(** ** Node methods *)

Module NodeM.

(** [Node.__init__(name, gate_output, stuck_at)]. *)
Definition init (gate_output : option gate_id) (stuck_at : option Z) : M node_id :=
  alloc_node (mkNode stuck_at LX [] gate_output None None).

Definition is_faulty (nd : Node) : bool := bool_decide (stuck_at nd ≠ None).
Definition is_fanout (nd : Node) : bool := (1 <? length (gates nd))%nat.
Definition is_po (nd : Node) : bool := (length (gates nd) =? 0)%nat.
Definition is_pi (nd : Node) : bool := bool_decide (gate_output nd = None).

Definition set_state (self : node_id) (val : value) : M unit :=
  nd ← get_node self;
  if is_faulty nd && py_in val [LD; LDbar] then raise ValueError
  else if bool_decide (stuck_at nd = Some 0) && bool_decide (val = L1)
    then put_node self (with_state LD nd)
  else if bool_decide (stuck_at nd = Some 1) && bool_decide (val = L0)
    then put_node self (with_state LDbar nd)
  else put_node self (with_state val nd).

Definition set_stuck_at (self : node_id) (s : option Z) : M unit :=
  nd ← get_node self; put_node self (with_stuck_at s nd).

Definition remove_fault (self : node_id) : M unit :=
  nd ← get_node self; put_node self (with_state LX (with_stuck_at None nd)).

Definition reset (self : node_id) : M unit :=
  nd ← get_node self; put_node self (with_state LX nd).

(** [['D', '~D'][stuck_at]]: list indexing, where negative indices count
    from the end and any other index raises [IndexError]. *)
Definition fault_value (s : Z) : result value :=
  if bool_decide (s = 0 ∨ s = -2) then Ok LD
  else if bool_decide (s = 1 ∨ s = -1) then Ok LDbar
  else Raise IndexError.

Definition activate_fault (self : node_id) : M unit :=
  nd ← get_node self;
  match stuck_at nd with
  | Some s => v ← lift (fault_value s); put_node self (with_state v nd)
  | None => mret tt
  end.

Definition make_faulty (self : node_id) (stuck_at : Z) (set : bool) : M unit :=
  set_stuck_at self (Some stuck_at);;
  if set then activate_fault self else mret tt.

Definition is_fault_activated (self : node_id) : M bool :=
  nd ← get_node self;
  match stuck_at nd with
  | None => raise ValueError
  | Some s => v ← lift (fault_value s); mret (bool_decide (state nd = v))
  end.

(** Read-only access to the arenas, for the queries below. *)
Definition node_at (c : circuit) (n : node_id) : result Node :=
  match nodes c !! n with
  | Some nd => Ok nd
  | None => Raise DanglingRef
  end.

Definition gate_at (c : circuit) (g : gate_id) : result Gate :=
  match gate_heap c !! g with
  | Some gt => Ok gt
  | None => Raise DanglingRef
  end.

(** *** [has_x_path] *)

(** [l.pop(-1)]: the list without its last element, and that element. *)
Definition pop_last {A} (l : list A) : option (list A * A) :=
  match reverse l with
  | [] => None
  | x :: r => Some (reverse r, x)
  end.

(** [if gate.output.state == 'X': acc.append(gate.output)]. *)
Definition push_if_x (c : circuit) (acc : list node_id) (g : gate_id)
    : result (list node_id) :=
  gt ← gate_at c g;
  o ← node_at c (output gt);
  mret (if bool_decide (state o = LX) then acc ++ [output gt] else acc).

(** The outputs in state ['X'] of the gates [gs], in order: the list
    comprehension that initialises [to_explore], and what the inner [for]
    loop appends to it. *)
Definition x_outputs (c : circuit) (gs : list gate_id) : result (list node_id) :=
  for_fold (push_if_x c) [] gs.

(** The [while] loop; one unit of [fuel] per iteration of its body, [None]
    when the fuel runs out. *)
Fixpoint x_path_loop (fuel : nat) (c : circuit)
    (explored to_explore : list node_id) : option (result bool) :=
  match pop_last to_explore with
  | None => Some (Ok false)
  | Some (rest, node) =>
      match fuel with
      | O => None
      | S fuel' =>
          match node_at c node with
          | Raise e => Some (Raise e)
          | Ok nd =>
              if is_po nd then Some (Ok true)
              else match x_outputs c (gates nd) with
                   | Raise e => Some (Raise e)
                   | Ok new => x_path_loop fuel' c (explored ++ [node]) (rest ++ new)
                   end
          end
      end
  end.

Definition has_x_path (fuel : nat) (c : circuit) (self : node_id)
    : option (result bool) :=
  match node_at c self with
  | Raise e => Some (Raise e)
  | Ok nd =>
      if is_po nd then Some (Ok (bool_decide (state nd = LX)))
      else match x_outputs c (gates nd) with
           | Raise e => Some (Raise e)
           | Ok to_explore => x_path_loop fuel c [] to_explore
           end
  end.

(** *** [set_controllability] *)

(** [itertools.combinations(l, r)]: the [r]-element subsequences of [l] in
    lexicographic order of positions. *)
Fixpoint combinations {A} (l : list A) (r : nat) : list (list A) :=
  match l with
  | [] => match r with O => [[]] | S _ => [] end
  | x :: l' =>
      match r with
      | O => [[]]
      | S r' => (cons x <$> combinations l' r') ++ combinations l' r
      end
  end.

(** [range(1, n + 1)]. *)
Definition range1 (n : nat) : list nat := seq 1 n.

Definition construct_odds (n : nat) : list (list nat) :=
  let odds := filter (λ x, x `mod` 2 = 1)%nat (range1 n) in
  odds ≫= (λ odd, combinations (range1 n) odd).

(** [enumerate(l)]. *)
Definition enumerate {A} (l : list A) : list (nat * A) := imap pair l.

(** The nested function [xor_cc1_xnor_cc0]; its inner loop iterates over the
    enclosing [gate_inputs], which is also its argument.  [add_score] is the
    body of the inner loop ([term += input.cc1] or [term += input.cc0]),
    [term_of] the inner loop, [keep_min] the body of the outer loop
    ([if term < min: min = term]). *)
Definition add_score (combination : list nat) (term : Z) (p : nat * Node)
    : result Z :=
  let '(idx, input) := p in
  if bool_decide ((idx + 1)%nat ∈ combination)
  then c ← as_int (cc1 input); mret (term + c)
  else c ← as_int (cc0 input); mret (term + c).

Definition term_of (combination : list nat) (gate_inputs : list Node) : result Z :=
  for_fold (add_score combination) 0 (enumerate gate_inputs).

Definition keep_min (gate_inputs : list Node) (m : Z) (combination : list nat)
    : result Z :=
  term ← term_of combination gate_inputs;
  mret (if term <? m then term else m).

Definition xor_cc1_xnor_cc0 (gate_inputs : list Node) : result Z :=
  m ← for_fold (keep_min gate_inputs) 1000000
         (construct_odds (length gate_inputs));
  mret (m + 1).

(** The builtins [min] and [sum] over a comprehension of scores: [min] of
    an empty list raises [ValueError]; a [None] score raises [TypeError]
    when it is compared or added. *)
Definition min_of (xs : list (option Z)) : result Z :=
  match xs with
  | [] => Raise ValueError
  | _ =>
      zs ← map_M as_int xs;
      match zs with
      | [] => Raise ValueError
      | z :: zs' => Ok (foldl Z.min z zs')
      end
  end.

Definition sum_of (xs : list (option Z)) : result Z :=
  zs ← map_M as_int xs; Ok (foldl Z.add 0 zs).

(** The per-type formulas of [set_controllability]: [(cc0, cc1)]. *)
Definition formulas (ty : gate_type) (gate_inputs : list Node)
    : result (Z * Z) :=
  match ty with
  | t_not =>
      match gate_inputs with
      | [] => Raise IndexError
      | i0 :: _ =>
          a ← as_int (cc1 i0); b ← as_int (cc0 i0); Ok (a + 1, b + 1)
      end
  | t_and =>
      a ← min_of (cc0 <$> gate_inputs); b ← sum_of (cc1 <$> gate_inputs);
      Ok (a + 1, b + 1)
  | t_nand =>
      a ← sum_of (cc1 <$> gate_inputs); b ← min_of (cc0 <$> gate_inputs);
      Ok (a + 1, b + 1)
  | t_or =>
      a ← sum_of (cc0 <$> gate_inputs); b ← min_of (cc1 <$> gate_inputs);
      Ok (a + 1, b + 1)
  | t_nor =>
      a ← min_of (cc1 <$> gate_inputs); b ← sum_of (cc0 <$> gate_inputs);
      Ok (a + 1, b + 1)
  | t_xor =>
      s0 ← sum_of (cc0 <$> gate_inputs); s1 ← sum_of (cc1 <$> gate_inputs);
      b ← xor_cc1_xnor_cc0 gate_inputs;
      Ok (Z.min s0 s1 + 1, b)
  | t_xnor =>
      a ← xor_cc1_xnor_cc0 gate_inputs;
      s0 ← sum_of (cc0 <$> gate_inputs); s1 ← sum_of (cc1 <$> gate_inputs);
      Ok (a, Z.min s0 s1 + 1)
  end.

Definition set_controllability (self : node_id) : M (Z * Z) :=
  nd ← get_node self;
  match gate_output nd with
  | None => put_node self (with_cc 1 1 nd);; mret (1, 1)
  | Some g =>
      gt ← get_gate g;
      gate_inputs ← map_M get_node (inputs gt);
      '(c0, c1) ← lift (formulas (type gt) gate_inputs);
      put_node self (with_cc c0 c1 nd);;
      mret (c0, c1)
  end.

End NodeM.

(** ** Gate methods *)

Module GateM.
Import Logic.

(** [Gate.set_depth], reading [self.inputs]. *)
Definition set_depth (inputs : list node_id) : M nat :=
  d ← for_fold (λ d input,
         nd ← get_node input;
         match gate_output nd with
         | None => mret d
         | Some g =>
             gt ← get_gate g;
             mret (if (d <? depth gt)%nat then depth gt else d)
         end) 0%nat inputs;
  mret (d + 1)%nat.

(** [Gate.__init__(type, *inputs)].  The new gate's handle [self] is the
    next free slot; its record is stored once [output] and [depth] are
    known (nothing reads the slot before). *)
Definition init (ty : gate_type) (inputs : list node_id) : M gate_id :=
  c ← get_circuit;
  let self := length (gate_heap c) in
  for_each (λ node,
    nd ← get_node node;
    put_node node (with_gates (gates nd ++ [self]) nd)) inputs;;
  output ← NodeM.init (Some self) None;
  d ← set_depth inputs;
  alloc_gate (mkGate (-1) ty inputs output d).

Definition set_control_value (self : gate_id) (v : Z) : M gate_id :=
  gt ← get_gate self; put_gate self (with_control_value v gt);; mret self.

(** The subclasses. *)
Definition Not (inputs : list node_id) : M gate_id := init t_not inputs.
Definition And (inputs : list node_id) : M gate_id :=
  g ← init t_and inputs; set_control_value g 0.
Definition Or (inputs : list node_id) : M gate_id :=
  g ← init t_or inputs; set_control_value g 1.
Definition Nand (inputs : list node_id) : M gate_id :=
  g ← init t_nand inputs; set_control_value g 0.
Definition Nor (inputs : list node_id) : M gate_id :=
  g ← init t_nor inputs; set_control_value g 1.
Definition Xor (inputs : list node_id) : M gate_id := init t_xor inputs.
Definition Xnor (inputs : list node_id) : M gate_id := init t_xnor inputs.

(** [Gate._propagate]: dispatch on the type tag. *)
Definition _propagate (ty : gate_type) (inputs : list value) : result value :=
  match ty with
  | t_not => not_propagate inputs
  | t_and => and_propagate inputs
  | t_nand => nand_propagate inputs
  | t_or => or_propagate inputs
  | t_nor => nor_propagate inputs
  | t_xor => xor_propagate inputs
  | t_xnor => xnor_propagate inputs
  end.

Definition read_states (ns : list node_id) : M (list value) :=
  map_M (λ node, nd ← get_node node; mret (state nd)) ns.

Definition propagate (self : gate_id) : M value :=
  gt ← get_gate self;
  inputs ← read_states (inputs gt);
  out ← lift (_propagate (type gt) inputs);
  NodeM.set_state (output gt) out;;
  nd ← get_node (output gt);
  mret (state nd).

Definition reset (self : gate_id) : M unit :=
  gt ← get_gate self;
  for_each NodeM.reset (inputs gt);;
  NodeM.reset (output gt).

Definition is_on_d_frontier (self : gate_id) : M bool :=
  gt ← get_gate self;
  out ← get_node (output gt);
  if negb (bool_decide (state out = LX)) then mret false
  else
    input_vals ← read_states (inputs gt);
    mret (py_in LD input_vals || py_in LDbar input_vals).

(** *** Search heuristics *)

Definition get_unassigned_inputs (self : gate_id) : M (list node_id) :=
  gt ← get_gate self;
  for_fold (λ acc node,
    nd ← get_node node;
    mret (if bool_decide (state nd = LX) then acc ++ [node] else acc))
    [] (inputs gt).

Definition get_assigned_inputs (self : gate_id) : M (list node_id) :=
  gt ← get_gate self;
  for_fold (λ acc node,
    nd ← get_node node;
    mret (if negb (bool_decide (state nd = LX)) then acc ++ [node] else acc))
    [] (inputs gt).

(** The candidates both selectors scan. *)
Definition candidates (self : gate_id) (unassigned : bool) : M (list node_id) :=
  gt ← get_gate self;
  ins ← (if unassigned then get_unassigned_inputs self else mret []);
  mret (if (length ins =? 0)%nat || negb unassigned then inputs gt else ins).

(** [getattr(inp, "cc0" if val == 0 else "cc1")]. *)
Definition attribute (val : value) : Node → option Z :=
  if bool_decide (val = L0) then cc0 else cc1.

Definition get_hardest_controllable_input (self : gate_id) (val : value)
    (unassigned : bool) : M (option node_id) :=
  ins ← candidates self unassigned;
  '(maxm, node) ← for_fold (λ '(maxm, node) inp,
      nd ← get_node inp;
      controllability ← lift (as_int (attribute val nd));
      mret (if maxm <? controllability
            then (controllability, Some inp) else (maxm, node)))
    (0, None) ins;
  mret node.

Definition get_easiest_controllable_input (self : gate_id) (val : value)
    (unassigned : bool) : M (option node_id) :=
  ins ← candidates self unassigned;
  '(minm, node) ← for_fold (λ '(minm, node) inp,
      nd ← get_node inp;
      controllability ← lift (as_int (attribute val nd));
      mret (if controllability <? minm
            then (controllability, Some inp) else (minm, node)))
    (100000, None) ins;
  mret node.

End GateM.

(** * Properties *)

Close Scope Z_scope.

(** ** Specification-side definitions *)

(** The AND rule as the documentation words it, clause by clause. *)
Definition and_table (inputs : list value) : value :=
  if decide (L0 ∈ inputs) then L0
  else if decide (Forall (λ v, v = L1) inputs) then L1
  else if decide (LD ∈ inputs ∧ LDbar ∈ inputs) then L0
  else if decide (LX ∈ inputs) then LX
  else if decide (LD ∈ inputs ∧ (LDbar ∉ inputs) ∧ (LX ∉ inputs) ∧ (L0 ∉ inputs))
    then LD
  else LDbar.

(** A grouping of XOR reductions: a binary tree of two-input XORs. *)
Inductive xor_tree : Type :=
  | Leaf (v : value)
  | Pair (l r : xor_tree).

Fixpoint leaves (t : xor_tree) : list value :=
  match t with
  | Leaf v => [v]
  | Pair l r => leaves l ++ leaves r
  end.

Fixpoint eval_tree (t : xor_tree) : result value :=
  match t with
  | Leaf v => Ok v
  | Pair l r =>
      a ← eval_tree l; b ← eval_tree r; Logic.xor_2inp a b
  end.

(** The circuit after [self.state = v] on node [self]. *)
Definition store_state (c : circuit) (self : node_id) (nd : Node) (v : value)
    : circuit :=
  mkCircuit (<[self := with_state v nd]> (nodes c)) (gate_heap c).

(** A circuit holding one primary input with the given fault. *)
Definition single_pi (s : option Z) : circuit :=
  (NodeM.init None s empty_circuit).2.

(** ** The five-valued algebra *)

Section algebra.
Import Logic.

(** Two-input XOR as a table, read off [xor_2inp]. *)
Definition xor2 (a b : value) : value :=
  match xor_2inp a b with
  | Ok v => v
  | Raise _ => LX
  end.

Lemma xor_2inp_total a b : xor_2inp a b = Ok (xor2 a b).
Proof. by destruct a, b. Qed.

Lemma xor2_comm a b : xor2 a b = xor2 b a.
Proof. by destruct a, b. Qed.

Lemma xor2_assoc a b c : xor2 (xor2 a b) c = xor2 a (xor2 b c).
Proof. by destruct a, b, c. Qed.

Lemma xor2_L0_r a : xor2 a L0 = a.
Proof. by destruct a. Qed.

Lemma xor_loop_fold val stack :
  xor_loop val stack = Ok (foldl xor2 val stack).
Proof.
  revert val. induction stack as [|x stack IH]; intros val; [done|].
  cbn [xor_loop foldl]. rewrite xor_2inp_total. apply IH.
Qed.

Lemma foldl_xor2_shift a b l : foldl xor2 (xor2 a b) l = xor2 a (foldl xor2 b l).
Proof.
  revert b. induction l as [|x l IH]; intros b; [done|].
  cbn [foldl]. by rewrite xor2_assoc, IH.
Qed.

(** The value of any XOR reduction of [l]. *)
Definition xor_all (l : list value) : value := foldr xor2 L0 l.

Lemma xor_all_app l1 l2 : xor_all (l1 ++ l2) = xor2 (xor_all l1) (xor_all l2).
Proof.
  unfold xor_all. induction l1 as [|x l1 IH]; cbn [foldr app].
  - by destruct (foldr xor2 L0 l2).
  - by rewrite IH, xor2_assoc.
Qed.

Lemma xor_all_perm l1 l2 : l1 ≡ₚ l2 → xor_all l1 = xor_all l2.
Proof.
  unfold xor_all. induction 1 as [|x l1 l2 _ IH|x y l|l1 l2 l3 _ IH1 _ IH2];
    cbn [foldr].
  - done.
  - by rewrite IH.
  - by rewrite <-!xor2_assoc, (xor2_comm x y).
  - by rewrite IH1.
Qed.

Lemma xor_propagate_all inputs :
  inputs ≠ [] → xor_propagate inputs = Ok (xor_all inputs).
Proof.
  intros Hne. unfold xor_propagate.
  destruct (reverse inputs) as [|val stack] eqn:Hrev.
  - apply (f_equal reverse) in Hrev. rewrite reverse_involutive in Hrev. done.
  - rewrite xor_loop_fold. f_equal.
    rewrite <-(xor_all_perm (val :: stack) inputs).
    + unfold xor_all. cbn [foldr]. clear Hrev. revert val.
      induction stack as [|x stack IH]; intros val; cbn [foldl foldr].
      * by rewrite xor2_L0_r.
      * rewrite IH. rewrite <-xor2_assoc. rewrite (xor2_comm val x).
        rewrite xor2_assoc. rewrite <-IH. rewrite <-foldl_xor2_shift.
        by rewrite (xor2_comm x val).
    + rewrite <-Hrev. apply reverse_Permutation.
Qed.

Lemma eval_tree_all t : eval_tree t = Ok (xor_all (leaves t)).
Proof.
  induction t as [v|l IHl r IHr]; cbn [eval_tree leaves].
  - unfold xor_all. cbn. by rewrite xor2_L0_r.
  - rewrite IHl, IHr. unfold mbind, result_bind.
    by rewrite xor_2inp_total, xor_all_app.
Qed.

End algebra.

(** ** The AND rule and the XOR reduction *)

Section and_rule.
Import Logic.

Lemma py_in_true x xs : py_in x xs = true ↔ x ∈ xs.
Proof. unfold py_in. apply bool_decide_eq_true. Qed.

Lemma py_in_false x xs : py_in x xs = false ↔ x ∉ xs.
Proof. unfold py_in. apply bool_decide_eq_false. Qed.

Ltac py_in_hyps :=
  repeat match goal with
  | H : py_in _ _ = true |- _ => apply py_in_true in H
  | H : py_in _ _ = false |- _ => apply py_in_false in H
  end.

Lemma all_ones_true inputs :
  forallb (λ x, bool_decide (x = L1)) inputs = true ↔ Forall (λ v, v = L1) inputs.
Proof.
  rewrite forallb_forall, Forall_forall. split; intros H x Hx.
  - apply H in Hx. by apply bool_decide_eq_true in Hx.
  - by apply bool_decide_eq_true, H.
Qed.

(** Without [0], [X], [D] and [~D] a list holds only [1]s. *)
Lemma only_ones inputs :
  L0 ∉ inputs → LX ∉ inputs → LD ∉ inputs → LDbar ∉ inputs →
  Forall (λ v, v = L1) inputs.
Proof.
  intros H0 HX HD HDb. apply Forall_forall. intros v Hv.
  apply list_elem_of_In in Hv. destruct v; done.
Qed.

(** C3. For a list of two or more of the five values, [and_propagate]
    returns the value the documented AND rule names: 0 if some input is 0;
    else 1 if all inputs are 1; else 0 if both D and ~D occur; else X if
    some input is X; else D if D occurs (and no ~D, X or 0); else ~D. *)
Theorem and_propagate_table (inputs : list value) :
  (2 ≤ length inputs) →
  and_propagate inputs = Ok (and_table inputs).
Proof.
  intros Hlen. unfold and_propagate, and_table.
  assert ((1 <? length inputs) = true) as -> by (apply Nat.ltb_lt; lia).
  cbn [negb].
  destruct (py_in L0 inputs) eqn:E0.
  { apply py_in_true in E0. by rewrite decide_True. }
  apply py_in_false in E0. rewrite (decide_False (P := L0 ∈ inputs)) by done.
  destruct (forallb _ inputs) eqn:E1.
  { apply all_ones_true in E1. by rewrite decide_True. }
  assert (¬ Forall (λ v, v = L1) inputs) as N1.
  { intros H. apply all_ones_true in H. congruence. }
  rewrite (decide_False (P := Forall _ inputs)) by done.
  destruct (py_in LD inputs) eqn:ED, (py_in LDbar inputs) eqn:EDb;
    cbn [andb negb]; py_in_hyps.
  - by rewrite decide_True.
  - rewrite (decide_False (P := _ ∧ _)) by (intros [? ?]; done).
    destruct (py_in LX inputs) eqn:EX; py_in_hyps.
    + by rewrite decide_True.
    + rewrite (decide_False (P := LX ∈ inputs)) by done.
      by rewrite decide_True.
  - rewrite (decide_False (P := _ ∧ _)) by (intros [? ?]; done).
    destruct (py_in LX inputs) eqn:EX; py_in_hyps.
    + by rewrite decide_True.
    + rewrite (decide_False (P := LX ∈ inputs)) by done.
      rewrite (decide_False (P := _ ∧ _)) by (intros [? ?]; done). done.
  - rewrite (decide_False (P := _ ∧ _)) by (intros [? ?]; done).
    destruct (py_in LX inputs) eqn:EX; py_in_hyps.
    + by rewrite decide_True.
    + destruct N1. by apply only_ones.
Qed.

Lemma and_propagate_table_witness :
  (2 ≤ length [LD; L1; LD]) ∧ and_propagate [LD; L1; LD] = Ok LD.
Proof.
  split; [cbn; lia|].
  apply (and_propagate_table [LD; L1; LD]). cbn. lia.
Defined.

(** C8. The two-input XOR built from AND, OR and [invert] is commutative
    and associative on the five values, and for every list of two or more
    inputs every grouping and order of two-input reductions (a binary tree
    whose leaves are the inputs in some order) gives the value that the
    right-to-left reduction of [xor_propagate] gives. *)
Theorem xor_2inp_assoc_comm :
  (∀ a b, xor_2inp a b = xor_2inp b a) ∧
  (∀ a b c,
     (ab ← xor_2inp a b; xor_2inp ab c) = (bc ← xor_2inp b c; xor_2inp a bc)) ∧
  (∀ inputs t,
     (2 ≤ length inputs) → leaves t ≡ₚ inputs →
     eval_tree t = xor_propagate inputs ∧ ∃ v, xor_propagate inputs = Ok v).
Proof.
  split; [|split].
  - intros a b. by rewrite !xor_2inp_total, xor2_comm.
  - intros a b c. rewrite !xor_2inp_total. unfold mbind, result_bind.
    by rewrite !xor_2inp_total, xor2_assoc.
  - intros inputs t Hlen Hperm.
    assert (inputs ≠ []) as Hne by (intros ->; cbn in Hlen; lia).
    rewrite eval_tree_all, xor_propagate_all by done.
    split; [|eauto]. f_equal. by apply xor_all_perm.
Qed.

Lemma xor_2inp_assoc_comm_witness :
  eval_tree (Pair (Leaf LX) (Pair (Leaf L1) (Leaf LD)))
    = xor_propagate [LD; LX; L1] ∧
  eval_tree (Pair (Pair (Leaf LDbar) (Leaf LD)) (Leaf L1))
    = xor_propagate [LD; LDbar; L1].
Proof.
  split.
  - apply (proj2 (proj2 xor_2inp_assoc_comm) [LD; LX; L1]); [cbn; lia|].
    cbn. symmetry. apply (Permutation_cons_append [LX; L1] LD).
  - apply (proj2 (proj2 xor_2inp_assoc_comm) [LD; LDbar; L1]); [cbn; lia|].
    cbn. apply Permutation_swap.
Defined.

End and_rule.

(** ** Running the monad *)

Lemma bind_ok {A B} (m : M A) (f : A → M B) c a c' :
  m c = (Ok a, c') → (m ≫= f) c = f a c'.
Proof. intros H. unfold mbind, M_bind. by rewrite H. Qed.

Lemma bind_raise {A B} (m : M A) (f : A → M B) c e c' :
  m c = (Raise e, c') → (m ≫= f) c = (Raise e, c').
Proof. intros H. unfold mbind, M_bind. by rewrite H. Qed.

Lemma get_node_ok c n nd : nodes c !! n = Some nd → get_node n c = (Ok nd, c).
Proof. intros H. unfold get_node. by rewrite H. Qed.

Lemma get_gate_ok c g gt : gate_heap c !! g = Some gt → get_gate g c = (Ok gt, c).
Proof. intros H. unfold get_gate. by rewrite H. Qed.

(** ** Assignment and fault masking: [set_state] *)

Section set_state.
Import NodeM.

Lemma store_state_lookup c self nd v :
  nodes c !! self = Some nd →
  nodes (store_state c self nd v) !! self = Some (with_state v nd).
Proof.
  intros H. unfold store_state. cbn [nodes].
  apply list_lookup_insert_eq. by eapply lookup_lt_Some.
Qed.

(** Assigning [val] to node [self] succeeds and stores [stored]. *)
Definition assigns (c : circuit) (self : node_id) (val stored : value) : Prop :=
  ∃ nd, nodes c !! self = Some nd ∧
    set_state self val c = (Ok tt, store_state c self nd stored) ∧
    state <$> nodes (store_state c self nd stored) !! self = Some stored.

Lemma set_state_run c self nd val :
  nodes c !! self = Some nd →
  set_state self val c =
    if is_faulty nd && py_in val [LD; LDbar] then (Raise ValueError, c)
    else if bool_decide (stuck_at nd = Some 0%Z) && bool_decide (val = L1)
      then (Ok tt, store_state c self nd LD)
    else if bool_decide (stuck_at nd = Some 1%Z) && bool_decide (val = L0)
      then (Ok tt, store_state c self nd LDbar)
    else (Ok tt, store_state c self nd val).
Proof.
  intros H. unfold set_state. erewrite bind_ok by by apply get_node_ok.
  repeat case_match; done.
Qed.

Lemma assigns_intro c self nd val stored :
  nodes c !! self = Some nd →
  set_state self val c = (Ok tt, store_state c self nd stored) →
  assigns c self val stored.
Proof.
  intros H E. exists nd. split; [done|]. split; [done|].
  by rewrite (store_state_lookup _ _ _ _ H).
Qed.

(** C1 (as the code has it). Assigning D or ~D to a node that carries a
    fault raises [ValueError] and leaves the circuit, hence the stored
    value, unchanged; on a node without a fault the same assignment raises
    nothing and stores the value. *)
Theorem set_state_fault_value_error (c : circuit) (self : node_id) (nd : Node)
    (val : value) :
  nodes c !! self = Some nd →
  val = LD ∨ val = LDbar →
  (stuck_at nd ≠ None → set_state self val c = (Raise ValueError, c)) ∧
  (stuck_at nd = None → assigns c self val val).
Proof.
  intros H Hval. split; intros Hs.
  - rewrite (set_state_run _ _ _ _ H). unfold is_faulty.
    rewrite bool_decide_eq_true_2 by done.
    by destruct Hval as [-> | ->].
  - apply (assigns_intro _ _ nd); [done|].
    rewrite (set_state_run _ _ _ _ H). unfold is_faulty.
    rewrite bool_decide_eq_false_2 by (intros ?; done).
    rewrite Hs. cbn. by destruct Hval as [-> | ->].
Qed.

Lemma set_state_fault_value_error_witness :
  set_state 0 LDbar (single_pi (Some 1%Z)) = (Raise ValueError, single_pi (Some 1%Z)) ∧
  assigns (single_pi None) 0 LD LD.
Proof.
  split.
  - apply (set_state_fault_value_error (single_pi (Some 1%Z)) 0
             (mkNode (Some 1%Z) LX [] None None None) LDbar);
      [reflexivity | by right | done].
  - apply (set_state_fault_value_error (single_pi None) 0
             (mkNode None LX [] None None None) LD);
      [reflexivity | by left | reflexivity].
Defined.

(** C1 as stated fails: on a fault-free node the assignment of D is
    accepted and stored, and it is the faulty node that rejects it. *)
Lemma set_state_D_fault_free_accepted :
  stuck_at <$> nodes (single_pi None) !! 0 = Some None ∧
  set_state 0 LD (single_pi None)
    = (Ok tt, mkCircuit [mkNode None LD [] None None None] []) ∧
  stuck_at <$> nodes (single_pi (Some 0%Z)) !! 0 = Some (Some 0%Z) ∧
  set_state 0 LD (single_pi (Some 0%Z)) = (Raise ValueError, single_pi (Some 0%Z)).
Proof. repeat split. Qed.

(** C6. On a node stuck at 0, assigning 1 stores D and assigning 0 stores
    0; on a node stuck at 1, assigning 0 stores ~D and assigning 1 stores
    1; every other assignment of 0, 1 or X stores the value as given. *)
Theorem set_state_masking (c : circuit) (self : node_id) (nd : Node) :
  nodes c !! self = Some nd →
  (stuck_at nd = Some 0%Z → assigns c self L1 LD ∧ assigns c self L0 L0) ∧
  (stuck_at nd = Some 1%Z → assigns c self L0 LDbar ∧ assigns c self L1 L1) ∧
  (∀ val, val ∈ [L0; L1; LX] →
     ¬ (stuck_at nd = Some 0%Z ∧ val = L1) →
     ¬ (stuck_at nd = Some 1%Z ∧ val = L0) →
     assigns c self val val).
Proof.
  intros H. split; [|split].
  - intros Hs. split; apply (assigns_intro _ _ nd); try done;
      rewrite (set_state_run _ _ _ _ H); unfold is_faulty; by rewrite Hs.
  - intros Hs. split; apply (assigns_intro _ _ nd); try done;
      rewrite (set_state_run _ _ _ _ H); unfold is_faulty; by rewrite Hs.
  - intros val Hval N0 N1. apply (assigns_intro _ _ nd); [done|].
    rewrite (set_state_run _ _ _ _ H).
    assert (py_in val [LD; LDbar] = false) as ->.
    { rewrite !elem_of_cons, elem_of_nil in Hval.
      by destruct Hval as [-> | [-> | [-> | []]]]. }
    rewrite andb_false_r.
    destruct (bool_decide (stuck_at nd = Some 0%Z)) eqn:E0;
      destruct (bool_decide (val = L1)) eqn:E1; cbn [andb];
      destruct (bool_decide (stuck_at nd = Some 1%Z)) eqn:E2;
      destruct (bool_decide (val = L0)) eqn:E3; cbn [andb]; try done;
      repeat match goal with
      | E : bool_decide _ = true |- _ => apply bool_decide_eq_true in E
      end; tauto.
Qed.

Lemma set_state_masking_witness :
  assigns (single_pi (Some 0%Z)) 0 L1 LD ∧ assigns (single_pi (Some 0%Z)) 0 L0 L0.
Proof.
  apply (set_state_masking (single_pi (Some 0%Z)) 0
           (mkNode (Some 0%Z) LX [] None None None)); reflexivity.
Defined.

End set_state.

(** ** Circuits built through the constructors *)

(** The calls a client of the module makes on a circuit. *)
Inductive call : Type :=
  | NewNode (s : option Z)
  | NewGate (ty : gate_type) (ins : list node_id)
  | SetState (n : node_id) (v : value)
  | SetStuckAt (n : node_id) (s : option Z)
  | RemoveFault (n : node_id)
  | MakeFaulty (n : node_id) (s : Z) (set : bool)
  | ActivateFault (n : node_id)
  | Reset (n : node_id)
  | ResetGate (g : gate_id)
  | SetControllability (n : node_id)
  | Propagate (g : gate_id).

(** The subclass constructor [Not], [And], ... for a type tag. *)
Definition construct (ty : gate_type) (ins : list node_id) : M gate_id :=
  match ty with
  | t_not => GateM.Not ins
  | t_and => GateM.And ins
  | t_nand => GateM.Nand ins
  | t_or => GateM.Or ins
  | t_nor => GateM.Nor ins
  | t_xor => GateM.Xor ins
  | t_xnor => GateM.Xnor ins
  end.

(** The circuit after a call, whether it returns or raises. *)
Definition exec (k : call) (c : circuit) : circuit :=
  match k with
  | NewNode s => (NodeM.init None s c).2
  | NewGate ty ins => (construct ty ins c).2
  | SetState n v => (NodeM.set_state n v c).2
  | SetStuckAt n s => (NodeM.set_stuck_at n s c).2
  | RemoveFault n => (NodeM.remove_fault n c).2
  | MakeFaulty n s set => (NodeM.make_faulty n s set c).2
  | ActivateFault n => (NodeM.activate_fault n c).2
  | Reset n => (NodeM.reset n c).2
  | ResetGate g => (GateM.reset g c).2
  | SetControllability n => (NodeM.set_controllability n c).2
  | Propagate g => (GateM.propagate g c).2
  end.

(** A gate is constructed over nodes that exist. *)
Definition admissible (c : circuit) (k : call) : bool :=
  match k with
  | NewGate _ ins => forallb (λ n, n <? length (nodes c)) ins
  | _ => true
  end.

Inductive built : circuit → Prop :=
  | built_empty : built empty_circuit
  | built_call c k : built c → admissible c k = true → built (exec k c).

Fixpoint run_script (ks : list call) (c : circuit) : circuit :=
  match ks with
  | [] => c
  | k :: ks' => run_script ks' (exec k c)
  end.

Fixpoint script_ok (ks : list call) (c : circuit) : bool :=
  match ks with
  | [] => true
  | k :: ks' => admissible c k && script_ok ks' (exec k c)
  end.

(** How often node [n] occurs among the inputs of a gate. *)
Definition occurrences (n : node_id) (gt : Gate) : nat :=
  length (filter (λ i, i = n) (inputs gt)).

(** The consumer entries node [n] receives from the gates [gs], the first of
    which has handle [k]: each gate once per occurrence of [n] among its
    inputs, in order of construction. *)
Fixpoint entries_from (k : gate_id) (n : node_id) (gs : list Gate) : list gate_id :=
  match gs with
  | [] => []
  | gt :: gs' => replicate (occurrences n gt) k ++ entries_from (S k) n gs'
  end.

Definition consumer_entries (n : node_id) (gs : list Gate) : list gate_id :=
  entries_from 0 n gs.

(** The invariant of constructed circuits: a gate's output exists and was
    created after each of its inputs; a node's [gates] list is exactly its
    consumer entries; a node's producer is a gate that outputs it. *)
Record wf (c : circuit) : Prop := mk_wf {
  wf_gate : ∀ g gt, gate_heap c !! g = Some gt →
    output gt < length (nodes c) ∧ Forall (λ i, i < output gt) (inputs gt);
  wf_consumers : ∀ n nd, nodes c !! n = Some nd →
    gates nd = consumer_entries n (gate_heap c);
  wf_producer : ∀ n nd g, nodes c !! n = Some nd → gate_output nd = Some g →
    ∃ gt, gate_heap c !! g = Some gt ∧ output gt = n
}.

(** The links between objects, which only the constructors change. *)
Definition node_links (nd : Node) : list gate_id * option gate_id :=
  (gates nd, gate_output nd).
Definition gate_links (gt : Gate) : list node_id * node_id :=
  (inputs gt, output gt).
Definition same_links (c c' : circuit) : Prop :=
  node_links <$> nodes c' = node_links <$> nodes c ∧
  gate_links <$> gate_heap c' = gate_links <$> gate_heap c.

Lemma same_links_refl c : same_links c c.
Proof. by split. Qed.

Lemma same_links_trans c1 c2 c3 :
  same_links c1 c2 → same_links c2 c3 → same_links c1 c3.
Proof. intros [H1 H2] [H3 H4]. split; congruence. Qed.

Lemma same_links_node c c' n nd' :
  same_links c c' → nodes c' !! n = Some nd' →
  ∃ nd, nodes c !! n = Some nd ∧ node_links nd = node_links nd'.
Proof.
  intros [Hn _] H.
  assert ((node_links <$> nodes c) !! n = Some (node_links nd')) as E.
  { rewrite <-Hn, list_lookup_fmap, H. done. }
  rewrite list_lookup_fmap in E.
  destruct (nodes c !! n) as [nd|]; [|done].
  exists nd. split; [done|]. cbn in E. congruence.
Qed.

Lemma same_links_gate c c' g gt' :
  same_links c c' → gate_heap c' !! g = Some gt' →
  ∃ gt, gate_heap c !! g = Some gt ∧ gate_links gt = gate_links gt'.
Proof.
  intros [_ Hg] H.
  assert ((gate_links <$> gate_heap c) !! g = Some (gate_links gt')) as E.
  { rewrite <-Hg, list_lookup_fmap, H. done. }
  rewrite list_lookup_fmap in E.
  destruct (gate_heap c !! g) as [gt|]; [|done].
  exists gt. split; [done|]. cbn in E. congruence.
Qed.

Lemma same_links_length c c' :
  same_links c c' → length (nodes c') = length (nodes c).
Proof.
  intros [Hn _]. apply (f_equal length) in Hn. by rewrite !length_fmap in Hn.
Qed.

Lemma entries_from_links k n gs gs' :
  gate_links <$> gs' = gate_links <$> gs →
  entries_from k n gs' = entries_from k n gs.
Proof.
  revert k gs'. induction gs as [|gt gs IH]; intros k [|gt' gs'] E; try done.
  cbn in E. injection E as E1 E2 E3. cbn [entries_from].
  rewrite (IH _ _ E3). unfold occurrences. by rewrite E1.
Qed.

Lemma wf_same_links c c' : same_links c c' → wf c → wf c'.
Proof.
  intros HL [Hg Hc Hp]. split.
  - intros g gt' H. destruct (same_links_gate _ _ _ _ HL H) as (gt & Hgt & E).
    unfold gate_links in E. injection E as E1 E2.
    rewrite (same_links_length _ _ HL), <-E1, <-E2. by apply (Hg g).
  - intros n nd' H. destruct (same_links_node _ _ _ _ HL H) as (nd & Hnd & E).
    unfold node_links in E. injection E as E1 E2.
    rewrite <-E1, (Hc _ _ Hnd). unfold consumer_entries.
    symmetry. apply entries_from_links, HL.
  - intros n nd' g H Hout.
    destruct (same_links_node _ _ _ _ HL H) as (nd & Hnd & E).
    unfold node_links in E. injection E as E1 E2.
    rewrite <-E2 in Hout. destruct (Hp _ _ _ Hnd Hout) as (gt & Hgt & Ho).
    destruct HL as [_ HLg].
    assert ((gate_links <$> gate_heap c') !! g = Some (gate_links gt)) as E.
    { rewrite HLg, list_lookup_fmap, Hgt. done. }
    rewrite list_lookup_fmap in E.
    destruct (gate_heap c' !! g) as [gt'|]; [|done].
    exists gt'. split; [done|]. cbn in E. injection E as E3 E4. congruence.
Qed.

(** Rewriting the fields of a node other than its links. *)
Lemma same_links_update c n nd nd' :
  nodes c !! n = Some nd → node_links nd' = node_links nd →
  same_links c (mkCircuit (<[n := nd']> (nodes c)) (gate_heap c)).
Proof.
  intros H E. split; [|done]. cbn [nodes].
  rewrite list_fmap_insert, E. apply list_insert_id.
  by rewrite list_lookup_fmap, H.
Qed.

Lemma same_links_store c n nd v :
  nodes c !! n = Some nd → same_links c (store_state c n nd v).
Proof. intros H. by apply (same_links_update _ _ nd). Qed.

(** ** What [Gate.__init__] does to the circuit *)

(** [node.gates.append(g)] on node [n]. *)
Definition add_consumer (g : gate_id) (ns : list Node) (n : node_id) : list Node :=
  match ns !! n with
  | Some nd => <[n := with_gates (gates nd ++ [g]) nd]> ns
  | None => ns
  end.

(** The loop [for node in self.inputs: node.gates.append(self)]. *)
Definition attach (g : gate_id) (ins : list node_id) (ns : list Node) : list Node :=
  foldl (add_consumer g) ns ins.

(** The circuit after a gate of type [ty] over [ins] was constructed, with
    control value [cv] and depth [d]. *)
Definition after_init (c : circuit) (cv : Z) (ty : gate_type)
    (ins : list node_id) (d : nat) : circuit :=
  let g := length (gate_heap c) in
  mkCircuit (attach g ins (nodes c) ++ [mkNode None LX [] (Some g) None None])
            (gate_heap c ++ [mkGate cv ty ins (length (nodes c)) d]).

(** The control value each subclass sets. *)
Definition control_of (ty : gate_type) : Z :=
  match ty with
  | t_and | t_nand => 0
  | t_or | t_nor => 1
  | _ => -1
  end.

Definition existing (c : circuit) (ins : list node_id) : Prop :=
  Forall (λ n, n < length (nodes c)) ins.

Lemma admissible_existing c ty ins :
  admissible c (NewGate ty ins) = true ↔ existing c ins.
Proof.
  unfold existing. cbn. rewrite forallb_forall, Forall_forall.
  split; intros H n Hn; apply H in Hn; by apply Nat.ltb_lt.
Qed.

Lemma add_consumer_length g ns n : length (add_consumer g ns n) = length ns.
Proof. unfold add_consumer. destruct (ns !! n); [apply length_insert|done]. Qed.

Lemma attach_length g ins ns : length (attach g ins ns) = length ns.
Proof.
  unfold attach. revert ns. induction ins as [|i ins IH]; intros ns; [done|].
  cbn [foldl]. by rewrite IH, add_consumer_length.
Qed.

Lemma attach_lookup g ins ns m nd :
  ns !! m = Some nd →
  attach g ins ns !! m =
    Some (with_gates (gates nd ++ replicate (length (filter (λ i, i = m) ins)) g) nd).
Proof.
  unfold attach. revert ns nd. induction ins as [|i ins IH]; intros ns nd H.
  - cbn. rewrite app_nil_r. by destruct nd.
  - cbn [foldl]. rewrite filter_cons. destruct (decide (i = m)) as [->|Hne].
    + erewrite IH; last first.
      { unfold add_consumer. rewrite H. apply list_lookup_insert_eq.
        by eapply lookup_lt_Some. }
      cbn. by rewrite <-app_assoc.
    + apply IH. unfold add_consumer. destruct (ns !! i); [|done].
      by rewrite list_lookup_insert_ne.
Qed.

Lemma for_each_attach g ins c :
  existing c ins →
  for_each (λ node, nd ← get_node node;
                    put_node node (with_gates (gates nd ++ [g]) nd)) ins c
    = (Ok tt, mkCircuit (attach g ins (nodes c)) (gate_heap c)).
Proof.
  unfold attach, existing. revert c.
  induction ins as [|i ins IH]; intros c H.
  - by destruct c.
  - inversion_clear H as [|? ? Hi H']. cbn [for_each foldl].
    apply lookup_lt_is_Some_2 in Hi as [nd Hnd].
    erewrite bind_ok; last first.
    { erewrite bind_ok by by apply get_node_ok. reflexivity. }
    rewrite IH; cbn [nodes gate_heap].
    + unfold add_consumer. by rewrite Hnd.
    + by rewrite length_insert.
Qed.

(** Methods that only read the circuit. *)
Definition read_only {A} (m : M A) : Prop := ∀ c, (m c).2 = c.

Lemma read_only_bind {A B} (m : M A) (f : A → M B) :
  read_only m → (∀ a, read_only (f a)) → read_only (m ≫= f).
Proof.
  intros Hm Hf c. unfold mbind, M_bind. specialize (Hm c).
  destruct (m c) as [[a|e] c']; cbn in Hm; subst; [apply Hf|done].
Qed.

Lemma read_only_ret {A} (a : A) : read_only (mret a).
Proof. done. Qed.

Lemma read_only_lift {A} (r : result A) : read_only (lift r).
Proof. done. Qed.

Lemma read_only_get_node n : read_only (get_node n).
Proof. intros c. unfold get_node. by destruct (nodes c !! n). Qed.

Lemma read_only_get_gate g : read_only (get_gate g).
Proof. intros c. unfold get_gate. by destruct (gate_heap c !! g). Qed.

Lemma read_only_for_fold {A B} (body : B → A → M B) acc xs :
  (∀ b a, read_only (body b a)) → read_only (for_fold body acc xs).
Proof.
  intros H. revert acc. induction xs as [|x xs IH]; intros acc; [done|].
  cbn [for_fold]. apply read_only_bind; [apply H|apply IH].
Qed.

Lemma read_only_map_M {A B} (f : A → M B) xs :
  (∀ a, read_only (f a)) → read_only (map_M f xs).
Proof.
  intros H. induction xs as [|x xs IH]; [done|].
  cbn [map_M]. apply read_only_bind; [apply H|]. intros y.
  apply read_only_bind; [apply IH|]. intros ys. apply read_only_ret.
Qed.

Create HintDb ro.
#[local] Hint Resolve read_only_ret read_only_lift read_only_get_node
  read_only_get_gate : ro.

Lemma read_only_set_depth ins : read_only (GateM.set_depth ins).
Proof.
  unfold GateM.set_depth. apply read_only_bind; [|auto with ro].
  apply read_only_for_fold. intros d n.
  apply read_only_bind; [auto with ro|]. intros nd.
  destruct (gate_output nd); [|auto with ro].
  apply read_only_bind; auto with ro.
Qed.

Lemma read_only_read_states ns : read_only (GateM.read_states ns).
Proof.
  apply read_only_map_M. intros n. apply read_only_bind; auto with ro.
Qed.

(** [set_depth] returns once every input exists and has an existing producer. *)
Lemma set_depth_ok c ins :
  (∀ n, n ∈ ins → ∃ nd, nodes c !! n = Some nd ∧
     ∀ g, gate_output nd = Some g → is_Some (gate_heap c !! g)) →
  ∃ d, GateM.set_depth ins c = (Ok d, c).
Proof.
  intros H. unfold GateM.set_depth.
  enough (∀ acc, ∃ d, for_fold (λ d input,
           nd ← get_node input;
           match gate_output nd with
           | None => mret d
           | Some g =>
               gt ← get_gate g;
               mret (if d <? depth gt then depth gt else d)
           end) acc ins c = (Ok d, c)) as Hloop.
  { destruct (Hloop 0) as [d Hd]. exists (d + 1). by erewrite bind_ok. }
  induction ins as [|i ins IH]; intros acc; [by exists acc|].
  destruct (H i) as (nd & Hnd & Hprod); [by left|].
  cbn [for_fold].
  assert (∃ acc', (nd ← get_node i;
           match gate_output nd with
           | None => mret acc
           | Some g =>
               gt ← get_gate g;
               mret (if acc <? depth gt then depth gt else acc)
           end) c = (Ok acc', c)) as [acc' Hacc].
  { erewrite bind_ok by by apply get_node_ok.
    destruct (gate_output nd) as [g|]; [|by exists acc].
    destruct (Hprod g eq_refl) as [gt Hgt].
    erewrite bind_ok by by apply get_gate_ok. by eexists. }
  erewrite bind_ok by exact Hacc.
  apply IH. intros n Hn. apply H. by right.
Qed.

Lemma init_run c ty ins :
  wf c → existing c ins →
  ∃ d, GateM.init ty ins c
         = (Ok (length (gate_heap c)), after_init c (-1) ty ins d).
Proof.
  intros Hwf Hins.
  set (g := length (gate_heap c)).
  set (c2 := mkCircuit (attach g ins (nodes c) ++ [mkNode None LX [] (Some g) None None])
                       (gate_heap c)).
  assert (NodeM.init (Some g) None (mkCircuit (attach g ins (nodes c)) (gate_heap c))
            = (Ok (length (nodes c)), c2)) as Hnew.
  { unfold NodeM.init, alloc_node. cbn [nodes gate_heap].
    by rewrite attach_length. }
  destruct (set_depth_ok c2 ins) as [d Hd].
  { intros n Hn. unfold existing in Hins. rewrite Forall_forall in Hins.
    apply list_elem_of_In, Hins in Hn.
    apply lookup_lt_is_Some_2 in Hn as [nd Hnd].
    exists (with_gates (gates nd ++ replicate (length (filter (λ i, i = n) ins)) g) nd).
    split.
    - subst c2. cbn [nodes]. apply lookup_app_l_Some. by apply attach_lookup.
    - intros g' Hg'. cbn in Hg'.
      destruct (wf_producer c Hwf n nd g' Hnd Hg') as (gt & Hgt & _). by exists gt. }
  exists d. unfold GateM.init.
  erewrite bind_ok by reflexivity.
  erewrite bind_ok by by apply for_each_attach.
  erewrite bind_ok by exact Hnew.
  erewrite bind_ok by exact Hd.
  reflexivity.
Qed.

Lemma after_init_gate c cv ty ins d :
  gate_heap (after_init c cv ty ins d) !! length (gate_heap c)
    = Some (mkGate cv ty ins (length (nodes c)) d).
Proof. unfold after_init. cbn [gate_heap]. apply list_lookup_middle. done. Qed.

Lemma set_control_value_run c cv ty ins d v :
  GateM.set_control_value (length (gate_heap c)) v (after_init c cv ty ins d)
    = (Ok (length (gate_heap c)), after_init c v ty ins d).
Proof.
  unfold GateM.set_control_value.
  erewrite bind_ok by (apply get_gate_ok, after_init_gate).
  unfold mbind, M_bind, put_gate, mret, M_ret, after_init. cbn.
  do 3 f_equal. rewrite insert_app_r_alt by done.
  by rewrite Nat.sub_diag.
Qed.

Lemma construct_run c ty ins :
  wf c → existing c ins →
  ∃ d, construct ty ins c
         = (Ok (length (gate_heap c)), after_init c (control_of ty) ty ins d).
Proof.
  intros Hwf Hins.
  destruct ty; cbn [construct control_of];
    unfold GateM.Not, GateM.And, GateM.Nand, GateM.Or, GateM.Nor, GateM.Xor,
      GateM.Xnor;
    match goal with
    | |- context [GateM.init ?ty ins] =>
        destruct (init_run c ty ins Hwf Hins) as [d Hd]
    end; exists d; try exact Hd;
    (erewrite bind_ok by exact Hd); apply set_control_value_run.
Qed.

Lemma occurrences_0 n gt : n ∉ inputs gt → occurrences n gt = 0.
Proof.
  intros H. unfold occurrences.
  induction (inputs gt) as [|i l IH]; [done|].
  rewrite filter_cons. destruct (decide (i = n)) as [->|_].
  - destruct H. by left.
  - apply IH. intros Hin. apply H. by right.
Qed.

Lemma entries_from_nil k n gs :
  (∀ gt, gt ∈ gs → n ∉ inputs gt) → entries_from k n gs = [].
Proof.
  revert k. induction gs as [|gt gs IH]; intros k H; [done|].
  cbn [entries_from]. rewrite occurrences_0 by (apply H; by left).
  cbn. apply IH. intros gt' Hgt'. apply H. by right.
Qed.

Lemma entries_from_snoc k n gs gt :
  entries_from k n (gs ++ [gt])
    = entries_from k n gs ++ replicate (occurrences n gt) (k + length gs).
Proof.
  revert k. induction gs as [|gt0 gs IH]; intros k.
  - cbn. by rewrite app_nil_r, Nat.add_0_r.
  - cbn [entries_from app length]. rewrite IH, <-app_assoc.
    by rewrite Nat.add_succ_r.
Qed.

(** No gate of a well-formed circuit reads a node that does not exist yet. *)
Lemma fresh_not_input c gt n :
  wf c → gt ∈ gate_heap c → length (nodes c) ≤ n → n ∉ inputs gt.
Proof.
  intros Hwf Hgt Hn Hin. apply list_elem_of_lookup in Hgt as [g Hg].
  destruct (wf_gate c Hwf g gt Hg) as [Ho Hi].
  rewrite Forall_forall in Hi. apply list_elem_of_In, Hi in Hin. lia.
Qed.

Lemma wf_empty : wf empty_circuit.
Proof. split; intros *; cbn; by rewrite lookup_nil. Qed.

Lemma wf_new_node c s o :
  wf c → (∀ g, o = Some g → False) →
  wf (mkCircuit (nodes c ++ [mkNode s LX [] o None None]) (gate_heap c)).
Proof.
  intros Hwf Ho. split; cbn [nodes gate_heap].
  - intros g gt Hg. destruct (wf_gate c Hwf g gt Hg) as [H1 H2].
    split; [|done]. rewrite length_app. cbn. lia.
  - intros n nd Hn. apply lookup_snoc_Some in Hn as [[_ Hn]|[-> <-]].
    + by apply (wf_consumers c Hwf).
    + cbn. unfold consumer_entries. symmetry. apply entries_from_nil.
      intros gt Hgt. by apply (fresh_not_input c).
  - intros n nd g Hn Hg. apply lookup_snoc_Some in Hn as [[_ Hn]|[-> <-]].
    + by apply (wf_producer c Hwf n nd).
    + destruct (Ho g Hg).
Qed.

Lemma wf_after_init c cv ty ins d :
  wf c → existing c ins → wf (after_init c cv ty ins d).
Proof.
  intros Hwf Hins. unfold after_init.
  set (g := length (gate_heap c)). set (no := length (nodes c)).
  split; cbn [nodes gate_heap].
  - intros g0 gt0 Hg0. rewrite length_app, attach_length. cbn [length].
    apply lookup_snoc_Some in Hg0 as [[_ Hg0]|[-> <-]].
    + destruct (wf_gate c Hwf g0 gt0 Hg0) as [H1 H2]. split; [lia|done].
    + cbn. split; [lia|]. exact Hins.
  - intros n nd' Hn. unfold consumer_entries. rewrite entries_from_snoc.
    apply lookup_snoc_Some in Hn as [[Hlt Hn]|[-> <-]].
    + rewrite attach_length in Hlt.
      apply lookup_lt_is_Some_2 in Hlt as [nd Hnd].
      rewrite (attach_lookup _ _ _ _ _ Hnd) in Hn. injection Hn as <-.
      cbn [gates with_gates]. rewrite (wf_consumers c Hwf n nd Hnd).
      reflexivity.
    + rewrite attach_length. cbn [gates].
      rewrite entries_from_nil; last first.
      { intros gt Hgt. by apply (fresh_not_input c). }
      rewrite occurrences_0; [done|]. cbn [inputs]. intros Hin.
      unfold existing in Hins. rewrite Forall_forall in Hins.
      apply list_elem_of_In, Hins in Hin. lia.
  - intros n nd' g0 Hn Hg0.
    apply lookup_snoc_Some in Hn as [[Hlt Hn]|[-> <-]].
    + rewrite attach_length in Hlt.
      apply lookup_lt_is_Some_2 in Hlt as [nd Hnd].
      rewrite (attach_lookup _ _ _ _ _ Hnd) in Hn. injection Hn as <-.
      cbn in Hg0. destruct (wf_producer c Hwf n nd g0 Hnd Hg0) as (gt & Hgt & Ho).
      exists gt. split; [|done]. by apply lookup_app_l_Some.
    + cbn in Hg0. injection Hg0 as <-. eexists. split.
      * apply list_lookup_middle. done.
      * cbn. by rewrite attach_length.
Qed.

(** ** The other methods leave the links alone *)

Lemma get_node_none c n : nodes c !! n = None → get_node n c = (Raise DanglingRef, c).
Proof. intros H. unfold get_node. by rewrite H. Qed.

Lemma get_gate_none c g :
  gate_heap c !! g = None → get_gate g c = (Raise DanglingRef, c).
Proof. intros H. unfold get_gate. by rewrite H. Qed.

Lemma set_state_effect c n val :
  (∃ e, NodeM.set_state n val c = (Raise e, c)) ∨
  (∃ nd v, nodes c !! n = Some nd ∧
     NodeM.set_state n val c = (Ok tt, store_state c n nd v)).
Proof.
  destruct (nodes c !! n) as [nd|] eqn:E.
  - rewrite (set_state_run _ _ _ _ E).
    repeat case_match; eauto.
  - left. exists DanglingRef. unfold NodeM.set_state.
    by erewrite bind_raise by by apply get_node_none.
Qed.

(** An update of node [n] by [f], as the simple setters perform it. *)
Lemma update_links c n (f : Node → Node) :
  (∀ nd, node_links (f nd) = node_links nd) →
  same_links c ((nd ← get_node n; put_node n (f nd)) c).2.
Proof.
  intros Hf. destruct (nodes c !! n) as [nd|] eqn:E.
  - erewrite bind_ok by by apply get_node_ok.
    cbn. by apply (same_links_update _ _ nd).
  - erewrite bind_raise by by apply get_node_none. apply same_links_refl.
Qed.

(** Methods that leave every link as it was. *)
Definition keeps_links {A} (m : M A) : Prop := ∀ c, same_links c (m c).2.

Lemma keeps_links_bind {A B} (m : M A) (f : A → M B) :
  keeps_links m → (∀ a, keeps_links (f a)) → keeps_links (m ≫= f).
Proof.
  intros Hm Hf c. unfold mbind, M_bind. specialize (Hm c).
  destruct (m c) as [[a|e] c']; cbn [snd] in *; [|done].
  eapply same_links_trans; [exact Hm|apply Hf].
Qed.

Lemma keeps_links_read_only {A} (m : M A) : read_only m → keeps_links m.
Proof. intros H c. rewrite H. apply same_links_refl. Qed.

Lemma keeps_links_for_each {A} (body : A → M unit) xs :
  (∀ x, keeps_links (body x)) → keeps_links (for_each body xs).
Proof.
  intros H. induction xs as [|x xs IH].
  - intros c. apply same_links_refl.
  - cbn [for_each]. apply keeps_links_bind; [apply H|done].
Qed.

Lemma set_state_links n val : keeps_links (NodeM.set_state n val).
Proof.
  intros c.
  destruct (set_state_effect c n val) as [[e ->]|(nd & v & H & ->)]; cbn [snd].
  - apply same_links_refl.
  - by apply same_links_store.
Qed.

Lemma set_stuck_at_links n s : keeps_links (NodeM.set_stuck_at n s).
Proof. intros c. by apply update_links. Qed.

Lemma remove_fault_links n : keeps_links (NodeM.remove_fault n).
Proof. intros c. by apply update_links. Qed.

Lemma reset_links n : keeps_links (NodeM.reset n).
Proof. intros c. by apply update_links. Qed.

Lemma activate_fault_links n : keeps_links (NodeM.activate_fault n).
Proof.
  intros c. unfold NodeM.activate_fault.
  destruct (nodes c !! n) as [nd|] eqn:E;
    [|erewrite bind_raise by (by apply get_node_none); apply same_links_refl].
  erewrite bind_ok by by apply get_node_ok.
  destruct (stuck_at nd) as [s|]; [|apply same_links_refl].
  destruct (NodeM.fault_value s) as [v|e] eqn:Ev.
  - erewrite bind_ok by reflexivity. cbn.
    by apply (same_links_update _ _ nd).
  - erewrite bind_raise by reflexivity. apply same_links_refl.
Qed.

Lemma make_faulty_links n s set : keeps_links (NodeM.make_faulty n s set).
Proof.
  unfold NodeM.make_faulty. apply keeps_links_bind; [apply set_stuck_at_links|].
  intros _. destruct set; [apply activate_fault_links|].
  intros c. apply same_links_refl.
Qed.

Lemma gate_reset_links g : keeps_links (GateM.reset g).
Proof.
  unfold GateM.reset. apply keeps_links_bind.
  { apply keeps_links_read_only, read_only_get_gate. }
  intros gt. apply keeps_links_bind; [|intros _; apply reset_links].
  apply keeps_links_for_each, reset_links.
Qed.

Lemma set_controllability_links n : keeps_links (NodeM.set_controllability n).
Proof.
  intros c. unfold NodeM.set_controllability.
  destruct (nodes c !! n) as [nd|] eqn:E;
    [|erewrite bind_raise by (by apply get_node_none); apply same_links_refl].
  erewrite bind_ok by by apply get_node_ok.
  destruct (gate_output nd) as [g|].
  - destruct (gate_heap c !! g) as [gt|] eqn:Eg;
      [|erewrite bind_raise by (by apply get_gate_none); apply same_links_refl].
    erewrite bind_ok by by apply get_gate_ok.
    pose proof (read_only_map_M get_node (inputs gt) read_only_get_node c) as Hro.
    destruct (map_M get_node (inputs gt) c) as [[gate_inputs|e] c1] eqn:Em;
      cbn in Hro; subst c1;
      [|erewrite bind_raise by exact Em; apply same_links_refl].
    erewrite bind_ok by exact Em.
    destruct (NodeM.formulas (type gt) gate_inputs) as [[c0 c1]|e] eqn:Ef.
    + erewrite bind_ok by reflexivity.
      cbn. by apply (same_links_update _ _ nd).
    + erewrite bind_raise by reflexivity. apply same_links_refl.
  - cbn. by apply (same_links_update _ _ nd).
Qed.

(** [propagate] either raises and changes nothing, or stores a value in the
    gate's output node and returns the stored value. *)
Lemma propagate_effect c g :
  (∃ e, GateM.propagate g c = (Raise e, c)) ∨
  (∃ gt nd v, gate_heap c !! g = Some gt ∧ nodes c !! output gt = Some nd ∧
     GateM.propagate g c = (Ok v, store_state c (output gt) nd v)).
Proof.
  unfold GateM.propagate.
  destruct (gate_heap c !! g) as [gt|] eqn:Eg;
    [|left; eexists; by erewrite bind_raise by by apply get_gate_none].
  erewrite bind_ok by by apply get_gate_ok.
  pose proof (read_only_read_states (inputs gt) c) as Hro.
  destruct (GateM.read_states (inputs gt) c) as [[vals|e] c1] eqn:Er;
    cbn in Hro; subst c1;
    [|left; eexists; by erewrite bind_raise by exact Er].
  erewrite bind_ok by exact Er.
  destruct (GateM._propagate (type gt) vals) as [out|e] eqn:Ep;
    [|left; eexists; by erewrite bind_raise by reflexivity].
  erewrite bind_ok by reflexivity.
  destruct (set_state_effect c (output gt) out) as [[e Hs]|(nd & v & Hnd & Hs)].
  - left. eexists. by erewrite bind_raise by exact Hs.
  - right. exists gt, nd, v. split; [done|]. split; [done|].
    erewrite bind_ok by exact Hs.
    erewrite bind_ok by (apply get_node_ok; by apply store_state_lookup).
    reflexivity.
Qed.

Lemma propagate_links g : keeps_links (GateM.propagate g).
Proof.
  intros c. destruct (propagate_effect c g) as [[e ->]|(gt & nd & v & _ & H & ->)]; cbn [snd].
  - apply same_links_refl.
  - by apply same_links_store.
Qed.

Lemma exec_new_node c s :
  exec (NewNode s) c = mkCircuit (nodes c ++ [mkNode s LX [] None None None]) (gate_heap c).
Proof. done. Qed.

(** Every constructed circuit is well formed. *)
Lemma built_wf c : built c → wf c.
Proof.
  induction 1 as [|c k _ IH Hadm]; [apply wf_empty|].
  destruct k as [s|ty ins|n v|n s|n|n s set|n|n|g|n|g]; cbn [exec];
    [| |eapply wf_same_links; [|exact IH]..].
  - apply (wf_new_node c s None IH). by intros g.
  - apply admissible_existing in Hadm.
    destruct (construct_run c ty ins IH Hadm) as [d ->]. cbn [snd].
    by apply wf_after_init.
  - apply set_state_links.
  - apply set_stuck_at_links.
  - apply remove_fault_links.
  - apply make_faulty_links.
  - apply activate_fault_links.
  - apply reset_links.
  - apply gate_reset_links.
  - apply set_controllability_links.
  - apply propagate_links.
Qed.

Lemma built_script ks c :
  built c → script_ok ks c = true → built (run_script ks c).
Proof.
  revert c. induction ks as [|k ks IH]; intros c Hc Hok; [done|].
  cbn in Hok. apply andb_prop in Hok as [Hk Hok].
  cbn [run_script]. apply IH; [|done]. by apply built_call.
Qed.

(** ** Construction, fan-out and the frame of [propagate] *)

(** [c'] differs from [c] at most in the value of the output node of gate
    [g]: the gates, the number of nodes, and every node's fault, consumer
    list, producer and scores are the same; every node other than the output
    is the same; and so is every input node of [g]. *)
Definition only_output_value_changed (c c' : circuit) (g : gate_id) : Prop :=
  ∃ gt, gate_heap c !! g = Some gt ∧
    gate_heap c' = gate_heap c ∧
    length (nodes c') = length (nodes c) ∧
    (∀ n nd, nodes c !! n = Some nd →
       ∃ nd', nodes c' !! n = Some nd' ∧
         stuck_at nd' = stuck_at nd ∧ gates nd' = gates nd ∧
         gate_output nd' = gate_output nd ∧
         cc0 nd' = cc0 nd ∧ cc1 nd' = cc1 nd ∧
         (n ≠ output gt → nd' = nd)) ∧
    (∀ i, i ∈ inputs gt → nodes c' !! i = nodes c !! i).

(** C10. A call of [propagate] that returns changes nothing but the value
    stored in the gate's output node: all gates, every node's fault,
    consumer list, producer and scores, and every input node's value stay
    as they were. *)
Theorem propagate_frame (c c' : circuit) (g : gate_id) (v : value) :
  built c →
  GateM.propagate g c = (Ok v, c') →
  only_output_value_changed c c' g.
Proof.
  intros Hb Hrun. apply built_wf in Hb.
  destruct (propagate_effect c g) as [[e He]|(gt & nd & v' & Hg & Hnd & He)];
    [congruence|].
  rewrite He in Hrun. injection Hrun as -> <-.
  exists gt. split; [done|]. split; [done|].
  split; [apply length_insert|]. split.
  - intros n nd0 Hn. unfold store_state. cbn [nodes].
    destruct (decide (n = output gt)) as [->|Hne].
    + exists (with_state v nd). rewrite list_lookup_insert_eq
        by by eapply lookup_lt_Some.
      assert (nd0 = nd) as -> by congruence. by repeat split.
    + exists nd0. rewrite list_lookup_insert_ne by done. by repeat split.
  - intros i Hi. unfold store_state. cbn [nodes].
    apply list_lookup_insert_ne.
    destruct (wf_gate c Hb g gt Hg) as [_ Hins].
    rewrite Forall_forall in Hins. apply list_elem_of_In, Hins in Hi. lia.
Qed.

Definition and_demo : circuit :=
  run_script [NewNode None; NewNode None; NewGate t_and [0; 1];
              SetState 0 L1; SetState 1 LD] empty_circuit.

Lemma propagate_frame_witness :
  GateM.propagate 0 and_demo
    = (Ok LD, store_state and_demo 2 (mkNode None LX [] (Some 0) None None) LD) ∧
  only_output_value_changed and_demo
    (store_state and_demo 2 (mkNode None LX [] (Some 0) None None) LD) 0.
Proof.
  split; [reflexivity|].
  apply (propagate_frame and_demo _ 0 LD).
  - apply built_script; [apply built_empty | reflexivity].
  - reflexivity.
Defined.

(** *** Fan-out *)

(** The gates that read node [n] as an input, each gate once. *)
Definition reading_gates (c : circuit) (n : node_id) : list Gate :=
  filter (λ gt, n ∈ inputs gt) (gate_heap c).

(** The number of consumer entries of node [n]: one per occurrence of [n]
    among the inputs of a gate. *)
Definition total_occurrences (c : circuit) (n : node_id) : nat :=
  sum_list_with (occurrences n) (gate_heap c).

Lemma entries_from_length k n gs :
  length (entries_from k n gs) = sum_list_with (occurrences n) gs.
Proof.
  revert k. induction gs as [|gt gs IH]; intros k; [done|].
  cbn [entries_from sum_list_with].
  by rewrite length_app, length_replicate, IH.
Qed.

Lemma occurrences_pos n gt : n ∈ inputs gt → 1 ≤ occurrences n gt.
Proof.
  unfold occurrences. induction (inputs gt) as [|i l IH]; intros H.
  - by apply elem_of_nil in H.
  - rewrite filter_cons. destruct (decide (i = n)) as [->|Hne]; [cbn; lia|].
    apply IH. apply elem_of_cons in H as [->|H]; done.
Qed.

Lemma single_occurrences n gs :
  (∀ gt, gt ∈ gs → occurrences n gt ≤ 1) →
  sum_list_with (occurrences n) gs = length (filter (λ gt, n ∈ inputs gt) gs).
Proof.
  induction gs as [|gt gs IH]; intros H; [done|].
  cbn [sum_list_with]. rewrite filter_cons.
  rewrite IH by (intros gt' Hgt'; apply H; by right).
  specialize (H gt (list_elem_of_here _ _)).
  destruct (decide (n ∈ inputs gt)) as [Hin|Hout].
  - apply occurrences_pos in Hin. cbn [length]. lia.
  - by rewrite occurrences_0.
Qed.

Lemma occurrences_le_total n gs gt :
  gt ∈ gs → occurrences n gt ≤ sum_list_with (occurrences n) gs.
Proof.
  induction gs as [|gt0 gs IH]; intros H.
  - by apply elem_of_nil in H.
  - cbn [sum_list_with].
    apply elem_of_cons in H as [->|H]; [lia|]. apply IH in H. lia.
Qed.

Lemma is_fanout_length nd : NodeM.is_fanout nd = true ↔ 1 < length (gates nd).
Proof. unfold NodeM.is_fanout. apply Nat.ltb_lt. Qed.

(** C9 (as the code has it). In a constructed circuit [is_fanout] holds of
    a node iff the node has more than one consumer entry, where a gate
    contributes one entry per occurrence of the node among its inputs.  So a
    node that some gate lists twice is fan-out; and when no gate lists the
    node more than once, [is_fanout] holds iff more than one gate reads it. *)
Theorem is_fanout_counts_entries (c : circuit) (n : node_id) (nd : Node) :
  built c → nodes c !! n = Some nd →
  (NodeM.is_fanout nd = true ↔ 1 < total_occurrences c n) ∧
  ((∃ gt, gt ∈ gate_heap c ∧ 2 ≤ occurrences n gt) → NodeM.is_fanout nd = true) ∧
  ((∀ gt, gt ∈ gate_heap c → occurrences n gt ≤ 1) →
     (NodeM.is_fanout nd = true ↔ 1 < length (reading_gates c n))).
Proof.
  intros Hb Hn. apply built_wf in Hb.
  assert (length (gates nd) = total_occurrences c n) as Hlen.
  { rewrite (wf_consumers c Hb n nd Hn). apply entries_from_length. }
  rewrite is_fanout_length, Hlen. split; [done|]. split.
  - intros (gt & Hgt & H2). unfold total_occurrences.
    pose proof (occurrences_le_total n _ _ Hgt). lia.
  - intros H1. unfold total_occurrences, reading_gates.
    by rewrite single_occurrences.
Qed.

Definition twice_demo : circuit :=
  run_script [NewNode None; NewGate t_and [0; 0]] empty_circuit.

Lemma is_fanout_counts_entries_witness :
  NodeM.is_fanout (mkNode None LX [0; 0] None None None) = true
    ↔ 1 < total_occurrences twice_demo 0.
Proof.
  apply (is_fanout_counts_entries twice_demo 0).
  - apply built_script; [apply built_empty | reflexivity].
  - reflexivity.
Defined.

(** C9 as stated fails: the single AND gate of [twice_demo] lists its
    primary input twice; one gate reads the node, yet [is_fanout] holds. *)
Lemma is_fanout_same_gate_twice :
  nodes twice_demo !! 0 = Some (mkNode None LX [0; 0] None None None) ∧
  inputs <$> gate_heap twice_demo = [[0; 0]] ∧
  length (reading_gates twice_demo 0) = 1 ∧
  NodeM.is_fanout (mkNode None LX [0; 0] None None None) = true.
Proof. repeat split. Qed.

(** *** Gate arity *)

(** The arities the propagation functions of a type reject by assertion:
    NOT with other than one input, AND/NAND/OR/NOR with fewer than two.
    ([xor_propagate] has no assertion.) *)
Definition arity_fault (ty : gate_type) (n : nat) : Prop :=
  match ty with
  | t_not => n ≠ 1
  | t_and | t_nand | t_or | t_nor => n < 2
  | t_xor | t_xnor => False
  end.

Lemma read_states_ok c ns :
  existing c ns →
  ∃ vals, GateM.read_states ns c = (Ok vals, c) ∧ length vals = length ns.
Proof.
  unfold GateM.read_states, existing.
  induction ns as [|n ns IH]; intros H; [by exists []|].
  inversion_clear H as [|? ? Hn H'].
  apply lookup_lt_is_Some_2 in Hn as [nd Hnd].
  destruct (IH H') as (vals & Hvals & Hlen).
  exists (state nd :: vals). split; [|cbn; by rewrite Hlen].
  cbn [map_M].
  erewrite bind_ok; last first.
  { erewrite bind_ok by by apply get_node_ok. reflexivity. }
  erewrite bind_ok by exact Hvals. reflexivity.
Qed.

Lemma _propagate_arity ty vals :
  arity_fault ty (length vals) → GateM._propagate ty vals = Raise AssertionError.
Proof.
  destruct ty; cbn [arity_fault GateM._propagate]; intros H; try done.
  - by destruct vals as [|v [|w vals]].
  - unfold Logic.and_propagate.
    by rewrite (proj2 (Nat.ltb_ge 1 (length vals))) by lia.
  - unfold Logic.nand_propagate, Logic.and_propagate.
    by rewrite (proj2 (Nat.ltb_ge 1 (length vals))) by lia.
  - unfold Logic.or_propagate.
    by rewrite (proj2 (Nat.ltb_ge 1 (length vals))) by lia.
  - unfold Logic.nor_propagate, Logic.or_propagate.
    by rewrite (proj2 (Nat.ltb_ge 1 (length vals))) by lia.
Qed.

(** C2 (as the code has it). Over existing nodes, a gate of any type is
    constructed with any number of inputs: [Gate.__init__] and the subclass
    constructor return the new gate, which records the type and the inputs
    given.  The arity is checked by assertion only when the gate is
    propagated: a NOT gate with other than one input, or an AND, NAND, OR or
    NOR gate with fewer than two, then raises [AssertionError] and leaves the
    circuit unchanged. *)
Theorem construct_any_arity (c : circuit) (ty : gate_type) (ins : list node_id) :
  built c → existing c ins →
  ∃ g c0 c',
    GateM.init ty ins c = (Ok g, c0) ∧
    construct ty ins c = (Ok g, c') ∧
    (∃ gt, gate_heap c' !! g = Some gt ∧ type gt = ty ∧ inputs gt = ins) ∧
    (arity_fault ty (length ins) →
       GateM.propagate g c' = (Raise AssertionError, c')).
Proof.
  intros Hb Hins. apply built_wf in Hb.
  destruct (init_run c ty ins Hb Hins) as [d0 H0].
  destruct (construct_run c ty ins Hb Hins) as [d H].
  eexists _, _, _. split; [exact H0|]. split; [exact H|]. split.
  - eexists. split; [apply after_init_gate|done].
  - intros Harity. unfold GateM.propagate.
    erewrite bind_ok by (apply get_gate_ok, after_init_gate).
    cbn [inputs type output].
    destruct (read_states_ok (after_init c (control_of ty) ty ins d) ins)
      as (vals & Hvals & Hlen).
    { unfold existing in *. rewrite Forall_forall in Hins.
      apply Forall_forall. intros n Hn. apply Hins in Hn.
      unfold after_init. cbn [nodes].
      rewrite length_app, attach_length. cbn [length]. lia. }
    erewrite bind_ok by exact Hvals.
    erewrite bind_raise; [reflexivity|].
    unfold lift. rewrite _propagate_arity; [done|]. by rewrite Hlen.
Qed.

Lemma construct_any_arity_witness :
  ∃ g c0 c',
    GateM.init t_and [0] (single_pi None) = (Ok g, c0) ∧
    construct t_and [0] (single_pi None) = (Ok g, c') ∧
    (∃ gt, gate_heap c' !! g = Some gt ∧ type gt = t_and ∧ inputs gt = [0]) ∧
    (arity_fault t_and (length [0]) →
       GateM.propagate g c' = (Raise AssertionError, c')).
Proof.
  apply (construct_any_arity (single_pi None) t_and [0]).
  - apply (built_script [NewNode None]); [apply built_empty | reflexivity].
  - repeat constructor.
Defined.

(** C2 as stated fails: gates of every type are constructed with a wrong
    number of inputs, and the failure of the AND gate comes only with
    [propagate]. *)
Lemma wrong_arity_gate_constructed :
  (construct t_not [] empty_circuit).1 = Ok 0 ∧
  (construct t_not [0; 0] (single_pi None)).1 = Ok 0 ∧
  (construct t_and [0] (single_pi None)).1 = Ok 0 ∧
  (construct t_nand [0] (single_pi None)).1 = Ok 0 ∧
  (construct t_or [0] (single_pi None)).1 = Ok 0 ∧
  (construct t_nor [] (single_pi None)).1 = Ok 0 ∧
  (construct t_xor [0] (single_pi None)).1 = Ok 0 ∧
  (construct t_xnor [0] (single_pi None)).1 = Ok 0 ∧
  (GateM.init t_and [0] (single_pi None)).1 = Ok 0 ∧
  (GateM.propagate 0 (construct t_and [0] (single_pi None)).2).1
    = Raise AssertionError.
Proof. repeat split. Qed.

(** [xor_propagate] asserts nothing about its arity: one input is returned
    as it is, and an empty list fails in [pop]. *)
Lemma xor_propagate_short_lists v :
  Logic.xor_propagate [v] = Ok v ∧
  Logic.xnor_propagate [v] = Ok (Logic.invert v) ∧
  Logic.xor_propagate [] = Raise IndexError.
Proof. repeat split. Qed.

(** ** X-paths *)

(** Node [m] is the output of a gate that reads node [n]. *)
Definition feeds (c : circuit) (n m : node_id) : Prop :=
  ∃ nd g gt, nodes c !! n = Some nd ∧ g ∈ gates nd ∧
    gate_heap c !! g = Some gt ∧ output gt = m.

Definition has_state (c : circuit) (n : node_id) (v : value) : Prop :=
  ∃ nd, nodes c !! n = Some nd ∧ state nd = v.

Definition primary_output (c : circuit) (n : node_id) : Prop :=
  ∃ nd, nodes c !! n = Some nd ∧ NodeM.is_po nd = true.

(** [p] leaves [n] along fan-out edges: [n] feeds the first node of [p] and
    each node of [p] feeds the next. *)
Fixpoint follows (c : circuit) (n : node_id) (p : list node_id) : Prop :=
  match p with
  | [] => True
  | m :: p' => feeds c n m ∧ follows c m p'
  end.

(** An X-path of node [n]: a non-empty path of nodes in state X that starts
    at the output of a gate reading [n] and ends in a primary output. *)
Definition x_path (c : circuit) (n : node_id) (p : list node_id) : Prop :=
  follows c n p ∧ Forall (λ m, has_state c m LX) p ∧
  ∃ l, list.last p = Some l ∧ primary_output c l.

(** Node [m] is in state X and an all-X path leads from it to a primary
    output. *)
Inductive xreach (c : circuit) : node_id → Prop :=
  | xreach_po m : has_state c m LX → primary_output c m → xreach c m
  | xreach_step m m' :
      has_state c m LX → feeds c m m' → xreach c m' → xreach c m.

Lemma xreach_state c m : xreach c m → has_state c m LX.
Proof. by destruct 1. Qed.

Lemma xreach_path c m : xreach c m → ∃ p, follows c m p ∧
  Forall (λ m, has_state c m LX) p ∧ ∃ l, list.last (m :: p) = Some l ∧ primary_output c l.
Proof.
  induction 1 as [m Hs Hpo|m m' Hs Hf Hr (p & Hp & HX & l & Hl & Hpo)].
  - exists []. split; [exact I|]. split; [constructor|]. by exists m.
  - exists (m' :: p). split; [done|]. split.
    + constructor; [by apply xreach_state|done].
    + exists l. split; [|done]. by rewrite last_cons_cons.
Qed.

Lemma path_xreach c n p l :
  follows c n p → Forall (λ m, has_state c m LX) p →
  list.last p = Some l → primary_output c l →
  ∃ m, feeds c n m ∧ xreach c m.
Proof.
  revert n. induction p as [|m p IH]; intros n Hf HX Hl Hpo; [done|].
  destruct Hf as [Hnm Hf]. inversion_clear HX as [|? ? Hm HX'].
  exists m. split; [done|].
  destruct p as [|m' p].
  - cbn in Hl. injection Hl as ->. by apply xreach_po.
  - rewrite last_cons_cons in Hl.
    destruct (IH m Hf HX' Hl Hpo) as (m2 & Hm2 & Hr).
    by apply (xreach_step c m m2).
Qed.

Lemma x_path_xreach c n :
  (∃ p, x_path c n p) ↔ ∃ m, feeds c n m ∧ xreach c m.
Proof.
  split.
  - intros (p & Hf & HX & l & Hl & Hpo). by apply (path_xreach c n p l).
  - intros (m & Hnm & Hr).
    destruct (xreach_path c m Hr) as (p & Hp & HX & l & Hl & Hpo).
    exists (m :: p). split; [done|]. split.
    + constructor; [by apply xreach_state|done].
    + by exists l.
Qed.

(** *** The loop *)

Lemma pop_last_nil {A} : NodeM.pop_last (@nil A) = None.
Proof. done. Qed.

Lemma pop_last_snoc {A} (l : list A) x : NodeM.pop_last (l ++ [x]) = Some (l, x).
Proof.
  unfold NodeM.pop_last. rewrite reverse_snoc. by rewrite reverse_involutive.
Qed.

(** [explored] is written and never read. *)
Lemma x_path_loop_explored fuel c e1 e2 s :
  NodeM.x_path_loop fuel c e1 s = NodeM.x_path_loop fuel c e2 s.
Proof.
  revert e1 e2 s. induction fuel as [|fuel IH]; intros e1 e2 s; cbn.
  - done.
  - destruct (NodeM.pop_last s) as [[rest node]|]; [|done].
    destruct (NodeM.node_at c node) as [nd|]; [|done].
    destruct (NodeM.is_po nd); [done|].
    destruct (NodeM.x_outputs c (gates nd)); [|done]. apply IH.
Qed.

(** More fuel does not change a result. *)
Lemma x_path_loop_mono fuel fuel' c e s r :
  fuel ≤ fuel' → NodeM.x_path_loop fuel c e s = Some r →
  NodeM.x_path_loop fuel' c e s = Some r.
Proof.
  revert fuel' e s. induction fuel as [|fuel IH]; intros fuel' e s Hle H.
  - cbn in H. destruct fuel'; cbn; destruct (NodeM.pop_last s) as [[rest node]|]; done.
  - destruct fuel' as [|fuel']; [lia|]. cbn in *.
    destruct (NodeM.pop_last s) as [[rest node]|]; [|done].
    destruct (NodeM.node_at c node) as [nd|]; [|done].
    destruct (NodeM.is_po nd); [done|].
    destruct (NodeM.x_outputs c (gates nd)); [|done].
    apply IH; [lia|done].
Qed.

Lemma entries_from_elem k n gs g :
  g ∈ entries_from k n gs →
  ∃ gt, k ≤ g ∧ gs !! (g - k) = Some gt ∧ n ∈ inputs gt.
Proof.
  revert k. induction gs as [|gt gs IH]; intros k H.
  - by apply elem_of_nil in H.
  - cbn [entries_from] in H. apply elem_of_app in H as [H|H].
    + apply elem_of_replicate in H as [-> Hocc]. exists gt.
      rewrite Nat.sub_diag. repeat split; [done|].
      destruct (decide (n ∈ inputs gt)) as [|Hout]; [done|].
      by rewrite occurrences_0 in Hocc.
    + destruct (IH _ H) as (gt' & Hle & Hg & Hin). exists gt'.
      split; [lia|]. split; [|done].
      replace (g - k) with (S (g - S k)) by lia. done.
Qed.

(** In a well-formed circuit a consumer entry is an existing gate whose
    output exists and is younger than the node. *)
Lemma consumer_gate c n nd g :
  wf c → nodes c !! n = Some nd → g ∈ gates nd →
  ∃ gt, gate_heap c !! g = Some gt ∧ n < output gt < length (nodes c).
Proof.
  intros Hwf Hn Hg. rewrite (wf_consumers c Hwf n nd Hn) in Hg.
  apply entries_from_elem in Hg as (gt & _ & Hgt & Hin).
  rewrite Nat.sub_0_r in Hgt. exists gt. split; [done|].
  destruct (wf_gate c Hwf g gt Hgt) as [Ho Hi].
  rewrite Forall_forall in Hi. apply list_elem_of_In, Hi in Hin. lia.
Qed.

(** The X-valued outputs collected from the gates [gs]. *)
Lemma x_outputs_spec c gs :
  (∀ g, g ∈ gs → ∃ gt, gate_heap c !! g = Some gt ∧ output gt < length (nodes c)) →
  ∃ new, NodeM.x_outputs c gs = Ok new ∧
    ∀ o, o ∈ new ↔
      ∃ g gt, g ∈ gs ∧ gate_heap c !! g = Some gt ∧ output gt = o ∧
        has_state c o LX.
Proof.
  unfold NodeM.x_outputs. intros H.
  enough (∀ acc, ∃ new,
    for_fold (NodeM.push_if_x c) acc gs = Ok (acc ++ new) ∧
    ∀ o, o ∈ new ↔
      ∃ g gt, g ∈ gs ∧ gate_heap c !! g = Some gt ∧ output gt = o ∧
        has_state c o LX) as Hgen.
  { destruct (Hgen []) as (new & Hnew & Hspec). by exists new. }
  induction gs as [|g gs IH]; intros acc.
  - exists []. rewrite app_nil_r. split; [done|]. intros o. split.
    + intros Ho. by apply elem_of_nil in Ho.
    + intros (g & gt & Hg & _). by apply elem_of_nil in Hg.
  - destruct (H g) as (gt & Hgt & Hlt); [by left|].
    apply lookup_lt_is_Some_2 in Hlt as [ond Hond].
    assert (NodeM.push_if_x c acc g
      = Ok (if bool_decide (state ond = LX) then acc ++ [output gt] else acc))
      as Hstep.
    { unfold NodeM.push_if_x, NodeM.gate_at. rewrite Hgt. cbn.
      unfold NodeM.node_at. by rewrite Hond. }
    cbn [for_fold]. rewrite Hstep.
    specialize (IH (λ g' Hg', H g' (list_elem_of_further _ _ _ Hg'))).
    destruct (bool_decide (state ond = LX)) eqn:EX.
    + apply bool_decide_eq_true in EX.
      destruct (IH (acc ++ [output gt])) as (new & Hnew & Hspec).
      exists (output gt :: new). split.
      { etrans; [exact Hnew|]. by rewrite <-app_assoc. }
      intros o. rewrite elem_of_cons, Hspec. split.
      * intros [->|(g' & gt' & Hg' & Hrest)].
        -- exists g, gt. repeat split; [by left|done|]. by exists ond.
        -- exists g', gt'. split; [by right|done].
      * intros (g' & gt' & Hg' & Hgt' & Ho & Hs).
        apply elem_of_cons in Hg' as [->|Hg'].
        -- left. congruence.
        -- right. by exists g', gt'.
    + apply bool_decide_eq_false in EX.
      destruct (IH acc) as (new & Hnew & Hspec).
      exists new. split; [exact Hnew|].
      intros o. rewrite Hspec. split.
      * intros (g' & gt' & Hg' & Hrest). exists g', gt'. split; [by right|done].
      * intros (g' & gt' & Hg' & Hgt' & Ho & Hs).
        apply elem_of_cons in Hg' as [->|Hg'].
        -- destruct Hs as (ond' & Hond' & Hs). destruct EX. congruence.
        -- by exists g', gt'.
Qed.

(** The stack suffix [ns] makes the loop answer [True] ([finds]), or is
    consumed without an answer ([skips]), within some number of iterations. *)
Definition finds (c : circuit) (ns : list node_id) : Prop :=
  ∃ k, ∀ rest e fuel, k ≤ fuel →
    NodeM.x_path_loop fuel c e (rest ++ ns) = Some (Ok true).

Definition skips (c : circuit) (ns : list node_id) : Prop :=
  ∃ k, ∀ rest e fuel,
    NodeM.x_path_loop (k + fuel) c e (rest ++ ns) = NodeM.x_path_loop fuel c e rest.

Definition decided_node (c : circuit) (m : node_id) : Prop :=
  (xreach c m ∧ finds c [m]) ∨ (¬ xreach c m ∧ skips c [m]).

Definition decided_list (c : circuit) (ns : list node_id) : Prop :=
  (Exists (xreach c) ns ∧ finds c ns) ∨
  (Forall (λ m, ¬ xreach c m) ns ∧ skips c ns).

Lemma x_path_loop_nil fuel c e : NodeM.x_path_loop fuel c e [] = Some (Ok false).
Proof. by destruct fuel. Qed.

Lemma decided_list_of_nodes c ns :
  Forall (decided_node c) ns → decided_list c ns.
Proof.
  induction ns as [|m ns IH] using rev_ind; intros H.
  - right. split; [constructor|]. exists 0. intros rest e fuel.
    by rewrite app_nil_r.
  - apply Forall_app in H as [Hns Hm]. inversion_clear Hm as [|? ? Hm' _].
    specialize (IH Hns).
    destruct Hm' as [[Hr [km Hkm]]|[Hnr [km Hkm]]].
    + left. split; [apply Exists_app; right; by constructor|].
      exists km. intros rest e fuel Hle. rewrite app_assoc. by apply Hkm.
    + destruct IH as [[Hex [kn Hkn]]|[Hall [kn Hkn]]].
      * left. split; [apply Exists_app; by left|].
        exists (km + kn). intros rest e fuel Hle. rewrite app_assoc.
        replace fuel with (km + (fuel - km)) by lia.
        rewrite Hkm. apply Hkn. lia.
      * right. split.
        { apply Forall_app. split; [done|]. by constructor. }
        exists (km + kn). intros rest e fuel. rewrite app_assoc.
        rewrite <-Nat.add_assoc, Hkm. apply Hkn.
Qed.

(** One iteration on a node that is not a primary output. *)
Lemma x_path_loop_step c m nd new rest e fuel :
  nodes c !! m = Some nd → NodeM.is_po nd = false →
  NodeM.x_outputs c (gates nd) = Ok new →
  NodeM.x_path_loop (S fuel) c e (rest ++ [m])
    = NodeM.x_path_loop fuel c (e ++ [m]) (rest ++ new).
Proof.
  intros Hm Hpo Hnew. cbn [NodeM.x_path_loop]. rewrite pop_last_snoc.
  unfold NodeM.node_at. by rewrite Hm, Hpo, Hnew.
Qed.

Lemma x_outputs_of_node c m nd :
  wf c → nodes c !! m = Some nd →
  ∃ new, NodeM.x_outputs c (gates nd) = Ok new ∧
    (∀ o, o ∈ new ↔ feeds c m o ∧ has_state c o LX) ∧
    (∀ o, o ∈ new → m < o < length (nodes c)).
Proof.
  intros Hwf Hm.
  destruct (x_outputs_spec c (gates nd)) as (new & Hnew & Hspec).
  { intros g Hg. destruct (consumer_gate c m nd g Hwf Hm Hg) as (gt & Hgt & Hlt).
    exists gt. split; [done|lia]. }
  exists new. split; [done|]. split.
  - intros o. rewrite Hspec. split.
    + intros (g & gt & Hg & Hgt & Ho & Hs). split; [|done]. by exists nd, g, gt.
    + intros [(nd' & g & gt & Hm' & Hg & Hgt & Ho) Hs].
      assert (nd' = nd) as -> by congruence. by exists g, gt.
  - intros o Ho. apply Hspec in Ho as (g & gt & Hg & Hgt & <- & _).
    destruct (consumer_gate c m nd g Hwf Hm Hg) as (gt' & Hgt' & Hlt).
    by assert (gt' = gt) as -> by congruence.
Qed.

(** The search from any stacked node terminates with the right answer. *)
Lemma decided_all c :
  wf c → ∀ m, m < length (nodes c) → has_state c m LX → decided_node c m.
Proof.
  intros Hwf.
  enough (∀ d m, length (nodes c) - m ≤ d → m < length (nodes c) →
            has_state c m LX → decided_node c m) as H.
  { intros m. by apply (H (length (nodes c) - m)). }
  induction d as [|d IH]; intros m Hd Hlt Hs; [lia|].
  destruct Hs as (nd & Hm & Hstate).
  destruct (NodeM.is_po nd) eqn:Hpo.
  - left. split.
    + apply xreach_po; by exists nd.
    + exists 1. intros rest e [|fuel] Hle; [lia|].
      cbn [NodeM.x_path_loop]. rewrite pop_last_snoc.
      unfold NodeM.node_at. by rewrite Hm, Hpo.
  - destruct (x_outputs_of_node c m nd Hwf Hm) as (new & Hnew & Hspec & Hyoung).
    assert (decided_list c new) as Hdec.
    { apply decided_list_of_nodes, list.Forall_forall. intros o Ho.
      pose proof (Hyoung o Ho). apply IH; [lia|lia|]. by apply Hspec. }
    destruct Hdec as [[Hex [kn Hkn]]|[Hall [kn Hkn]]].
    + left. split.
      * apply list.Exists_exists in Hex as (o & Ho & Hr).
        apply Hspec in Ho as [Hf _].
        apply (xreach_step c m o); [by exists nd|done|done].
      * exists (S kn). intros rest e [|fuel] Hle; [lia|].
        rewrite (x_path_loop_step c m nd new) by done. apply Hkn. lia.
    + right. split.
      * intros Hr. inversion Hr as [? _ (nd' & Hm' & Hpo')|? o _ Hf Hro]; subst.
        -- congruence.
        -- rewrite list.Forall_forall in Hall. apply (Hall o); [|done].
           apply Hspec. split; [done|]. by apply xreach_state.
      * exists (S kn). intros rest e fuel. cbn [Nat.add].
        rewrite (x_path_loop_step c m nd new) by done.
        rewrite Hkn. apply x_path_loop_explored.
Qed.

(** C5. In a constructed circuit [has_x_path] returns, and always the same
    Boolean, whatever fuel suffices.  On a primary output the Boolean is
    true iff the node's own value is X.  On any other node it is true iff
    there is a path of nodes, each with value X, from the output of one of
    the node's consumer gates to a primary output, along the edges node,
    consuming gate, that gate's output. *)
Theorem has_x_path_correct (c : circuit) (self : node_id) (nd : Node) :
  built c → nodes c !! self = Some nd →
  ∃ b : bool,
    (∃ k, ∀ fuel, k ≤ fuel → NodeM.has_x_path fuel c self = Some (Ok b)) ∧
    (∀ fuel r, NodeM.has_x_path fuel c self = Some r → r = Ok b) ∧
    (NodeM.is_po nd = true → (b = true ↔ state nd = LX)) ∧
    (NodeM.is_po nd = false → (b = true ↔ ∃ p, x_path c self p)).
Proof.
  intros Hb Hself. apply built_wf in Hb. unfold NodeM.has_x_path, NodeM.node_at.
  rewrite Hself. destruct (NodeM.is_po nd) eqn:Hpo.
  { exists (bool_decide (state nd = LX)). split; [by exists 0|].
    split; [by intros fuel r [= <-]|]. split; [|done].
    intros _. apply bool_decide_eq_true. }
  destruct (x_outputs_of_node c self nd Hb Hself) as (new & Hnew & Hspec & Hyoung).
  rewrite Hnew.
  assert (decided_list c new) as Hdec.
  { apply decided_list_of_nodes, list.Forall_forall. intros o Ho.
    apply decided_all; [done| |by apply Hspec]. pose proof (Hyoung o Ho). lia. }
  destruct Hdec as [[Hex [k Hk]]|[Hall [k Hk]]].
  - exists true.
    assert (∀ fuel, k ≤ fuel → NodeM.x_path_loop fuel c [] new = Some (Ok true))
      as Hrun by (intros fuel Hle; by apply (Hk [] [] fuel)).
    split; [by exists k|]. split; [|split; [done|]].
    + intros fuel r Hr.
      apply (x_path_loop_mono fuel (fuel `max` k)) in Hr; [|lia].
      rewrite Hrun in Hr by lia. congruence.
    + intros _. split; [|done]. intros _. apply x_path_xreach.
      apply list.Exists_exists in Hex as (o & Ho & Hr).
      exists o. split; [|done]. by apply Hspec.
  - exists false.
    assert (∀ fuel, k ≤ fuel → NodeM.x_path_loop fuel c [] new = Some (Ok false))
      as Hrun.
    { intros fuel Hle. replace fuel with (k + (fuel - k)) by lia.
      etrans; [exact (Hk [] [] (fuel - k))|]. apply x_path_loop_nil. }
    split; [by exists k|]. split; [|split; [done|]].
    + intros fuel r Hr.
      apply (x_path_loop_mono fuel (fuel `max` k)) in Hr; [|lia].
      rewrite Hrun in Hr by lia. congruence.
    + intros _. split; [done|]. intros Hp. apply x_path_xreach in Hp as (o & Hf & Hr).
      rewrite list.Forall_forall in Hall. destruct (Hall o); [|done].
      apply Hspec. split; [done|]. by apply xreach_state.
Qed.

(** Two primary inputs, an AND over them and a NOT over the AND. *)
Definition chain_demo : circuit :=
  run_script [NewNode None; NewNode None; NewGate t_and [0; 1];
              NewGate t_not [2]] empty_circuit.

Lemma has_x_path_correct_witness :
  ∃ b : bool,
    (∃ k, ∀ fuel, k ≤ fuel → NodeM.has_x_path fuel chain_demo 0 = Some (Ok b)) ∧
    (∀ fuel r, NodeM.has_x_path fuel chain_demo 0 = Some r → r = Ok b) ∧
    (NodeM.is_po (mkNode None LX [0] None None None) = true →
       (b = true ↔ state (mkNode None LX [0] None None None) = LX)) ∧
    (NodeM.is_po (mkNode None LX [0] None None None) = false →
       (b = true ↔ ∃ p, x_path chain_demo 0 p)).
Proof.
  apply (has_x_path_correct chain_demo 0 (mkNode None LX [0] None None None)).
  - apply built_script; [apply built_empty | reflexivity].
  - reflexivity.
Defined.

(** ** Controllability scores on a deep circuit *)

(** A ladder of [k] AND gates over two primary inputs: node [j + 2] is the
    AND of nodes [j] and [j + 1]. *)
Definition ladder (k : nat) : list call :=
  NewNode None :: NewNode None :: ((λ j, NewGate t_and [j; j + 1]) <$> seq 0 k).

(** [set_controllability] on the first [n] nodes, in dependency order. *)
Definition score_all (n : nat) : list call := SetControllability <$> seq 0 n.

(** The ladder of 28 gates, an XOR over its last two nodes (28 and 29), and
    every node scored. *)
Definition deep_xor : circuit :=
  run_script (ladder 28 ++ [NewGate t_xor [28; 29]] ++ score_all 30) empty_circuit.

(** The ladder of 25 gates with every node scored; its last gate is the AND
    of nodes 24 and 25. *)
Definition deep_and : circuit :=
  run_script (ladder 25 ++ score_all 27) empty_circuit.

(** The examples of the docstring of [construct_odds]. *)
Example construct_odds_2 : NodeM.construct_odds 2 = [[1]; [2]].
Proof. reflexivity. Qed.

Example construct_odds_3 : NodeM.construct_odds 3 = [[1]; [2]; [3]; [1; 2; 3]].
Proof. reflexivity. Qed.

Example construct_odds_4 :
  NodeM.construct_odds 4
    = [[1]; [2]; [3]; [4]; [1; 2; 3]; [1; 2; 4]; [1; 3; 4]; [2; 3; 4]].
Proof. reflexivity. Qed.

(** Two scored primary inputs and one gate over them. *)
Definition two_input (ty : gate_type) : circuit :=
  run_script [NewNode None; NewNode None; NewGate ty [0; 1];
              SetControllability 0; SetControllability 1] empty_circuit.

Example and_scores :
  (NodeM.set_controllability 2 (two_input t_and)).1 = Ok (2, 3)%Z.
Proof. reflexivity. Qed.

Example xor_scores :
  (NodeM.set_controllability 2 (two_input t_xor)).1 = Ok (3, 3)%Z.
Proof. reflexivity. Qed.

Example xnor_scores :
  (NodeM.set_controllability 2 (two_input t_xnor)).1 = Ok (3, 3)%Z.
Proof. reflexivity. Qed.

(** ** The controllable-input selectors *)

(** The score the selectors read from candidate [n]. *)
Definition score (c : circuit) (val : value) (n : node_id) : Z :=
  match nodes c !! n with
  | Some nd => default 0%Z (GateM.attribute val nd)
  | None => 0%Z
  end.

Definition x_valued (c : circuit) (n : node_id) : Prop :=
  state <$> nodes c !! n = Some LX.

#[local] Instance x_valued_dec c n : Decision (x_valued c n).
Proof. unfold x_valued. apply _. Defined.

(** The candidates as documented: the X-valued inputs, or all inputs when
    there is none or the caller opts out. *)
Definition chosen (c : circuit) (gt : Gate) (unassigned : bool) : list node_id :=
  if unassigned
  then match filter (x_valued c) (inputs gt) with
       | [] => inputs gt
       | xs => xs
       end
  else inputs gt.


Definition is_first_min (f : node_id → Z) (ins : list node_id) (r : node_id) : Prop :=
  ∃ i, ins !! i = Some r ∧ (∀ x, x ∈ ins → (f r ≤ f x)%Z) ∧
    (∀ j x, j < i → ins !! j = Some x → (f r < f x)%Z).


Lemma unassigned_loop c ins acc :
  existing c ins →
  for_fold (λ acc node,
      nd ← get_node node;
      mret (if bool_decide (state nd = LX) then acc ++ [node] else acc))
    acc ins c = (Ok (acc ++ filter (x_valued c) ins), c).
Proof.
  unfold existing. revert acc. induction ins as [|n ins IH]; intros acc H.
  - by rewrite app_nil_r.
  - inversion_clear H as [|? ? Hn H']. apply lookup_lt_is_Some_2 in Hn as [nd Hnd].
    cbn [for_fold]. rewrite filter_cons.
    erewrite bind_ok; last first.
    { erewrite bind_ok by by apply get_node_ok. reflexivity. }
    rewrite IH by done.
    destruct (decide (x_valued c n)) as [E|E];
      unfold x_valued in E; rewrite Hnd in E; cbn in E.
    + injection E as E. rewrite bool_decide_eq_true_2 by done.
      by rewrite <-app_assoc.
    + rewrite bool_decide_eq_false_2 by congruence. done.
Qed.













(** C7, at the input where the code departs from it.  In [deep_and] the
    gate 24 reads nodes 24 and 25, both in state X, with computed
    1-controllabilities 150049 and 242785.  Node 24 is the first candidate of
    least score, and the hardest input is found (node 25), yet
    [get_easiest_controllable_input] returns [None]: no score is below its
    initial minimum 100000. *)
Theorem easiest_input_none_above_100000 :
  built deep_and ∧
  (inputs <$> gate_heap deep_and !! 24) = Some [24; 25] ∧
  (∃ gt, gate_heap deep_and !! 24 = Some gt ∧ chosen deep_and gt true = [24; 25]) ∧
  score deep_and L1 24 = 150049%Z ∧ score deep_and L1 25 = 242785%Z ∧
  is_first_min (score deep_and L1) [24; 25] 24 ∧
  GateM.get_easiest_controllable_input 24 L1 true deep_and = (Ok None, deep_and) ∧
  GateM.get_hardest_controllable_input 24 L1 true deep_and = (Ok (Some 25), deep_and).
Proof.
  split; [apply built_script; [apply built_empty | by vm_compute]|].
  split; [by vm_compute|]. split; [eexists; split; by vm_compute|].
  split; [by vm_compute|]. split; [by vm_compute|]. split.
  - exists 0. split; [done|]. split.
    + intros x Hx. rewrite !elem_of_cons, elem_of_nil in Hx.
      destruct Hx as [->|[->|[]]]; by vm_compute.
    + intros j x Hj. lia.
  - split; by vm_compute.
Qed.

(** ** The parity minimum of XOR and XNOR *)

(** The scores of an input as integers. *)
Definition plain (nd : Node) : Z * Z :=
  (default 0%Z (cc0 nd), default 0%Z (cc1 nd)).

Definition has_scores (nd : Node) : Prop := is_Some (cc0 nd) ∧ is_Some (cc1 nd).

(** A subset of the inputs is a mask with one Boolean per input. *)
Definition size (mask : list bool) : nat := length (filter (λ b, b = true) mask).

(** Sum of cc1 over the inputs in the subset and of cc0 over the others. *)
Fixpoint cost (mask : list bool) (scores : list (Z * Z)) : Z :=
  match mask, scores with
  | b :: mask', (c0, c1) :: scores' =>
      ((if b : bool then c1 else c0) + cost mask' scores')%Z
  | _, _ => 0%Z
  end.

Definition odd_subset (n : nat) (mask : list bool) : Prop :=
  length mask = n ∧ size mask `mod` 2 = 1.

(** [m] is the least cost of an odd-sized subset of the inputs. *)
Definition is_parity_min (scores : list (Z * Z)) (m : Z) : Prop :=
  (∃ mask, odd_subset (length scores) mask ∧ cost mask scores = m) ∧
  (∀ mask, odd_subset (length scores) mask → (m ≤ cost mask scores)%Z).

(** The mask of a combination of positions, and the positions of a mask. *)
Definition mask_of (comb l : list nat) : list bool :=
  (λ i, bool_decide (i ∈ comb)) <$> l.

Fixpoint sel (mask : list bool) (l : list nat) : list nat :=
  match mask, l with
  | b :: mask', x :: l' => if b : bool then x :: sel mask' l' else sel mask' l'
  | _, _ => []
  end.

Lemma combinations_spec (l c : list nat) r :
  c ∈ NodeM.combinations l r ↔ c `sublist_of` l ∧ length c = r.
Proof.
  revert c r. induction l as [|x l IH]; intros c r.
  - destruct r; cbn [NodeM.combinations].
    + rewrite list_elem_of_singleton, sublist_nil_r. split; [by intros ->|tauto].
    + rewrite elem_of_nil, sublist_nil_r. split; [done|]. by intros [-> ?].
  - destruct r as [|r]; cbn [NodeM.combinations].
    + rewrite list_elem_of_singleton. split.
      * intros ->. split; [apply sublist_nil_l|done].
      * intros [_ Hlen]. by destruct c.
    + rewrite elem_of_app, list_elem_of_fmap, sublist_cons_r, IH. split.
      * intros [(c' & -> & Hc')|[Hs Hlen]].
        -- apply IH in Hc' as [Hs <-]. split; [|done]. right. by exists c'.
        -- split; [by left|done].
      * intros [[Hs|(c' & -> & Hs)] Hlen].
        -- by right.
        -- left. exists c'. split; [done|]. apply IH. split; [done|].
           cbn in Hlen. lia.
Qed.

Lemma mask_of_ext comb comb' l :
  (∀ i, i ∈ l → i ∈ comb ↔ i ∈ comb') → mask_of comb l = mask_of comb' l.
Proof.
  intros H. unfold mask_of. apply list_fmap_ext. intros k i Hi.
  apply list_elem_of_lookup_2 in Hi. apply bool_decide_ext. by apply H.
Qed.

Lemma mask_of_cons_fresh x comb l :
  x ∉ l → mask_of (x :: comb) l = mask_of comb l.
Proof.
  intros Hx. apply mask_of_ext. intros i Hi. rewrite elem_of_cons.
  split; [|by right]. intros [->|Hc]; done.
Qed.

Lemma size_cons b mask : size (b :: mask) = (if b then 1 else 0) + size mask.
Proof. unfold size. rewrite filter_cons. by destruct b. Qed.

Lemma sublist_not_elem (x : nat) c l : c `sublist_of` l → x ∉ l → x ∉ c.
Proof.
  intros Hs Hx Hc. apply Hx. by apply (elem_of_sublist c l).
Qed.

Lemma size_mask_of comb l :
  comb `sublist_of` l → NoDup l → size (mask_of comb l) = length comb.
Proof.
  induction 1 as [|x c l Hs IH|x c l Hs IH]; intros Hnd; [done| |];
    apply list.NoDup_cons in Hnd as [Hx Hnd].
  - unfold mask_of. rewrite fmap_cons. fold (mask_of (x :: c) l).
    rewrite size_cons, bool_decide_eq_true_2 by by left.
    rewrite mask_of_cons_fresh by done. cbn. by rewrite IH.
  - unfold mask_of. rewrite fmap_cons. fold (mask_of c l).
    rewrite size_cons, bool_decide_eq_false_2; [by apply IH|].
    by apply (sublist_not_elem x c l).
Qed.

Lemma sel_sublist mask l : sel mask l `sublist_of` l.
Proof.
  revert mask. induction l as [|x l IH]; intros [|b mask]; cbn;
    try apply sublist_nil_l.
  destruct b; [by apply sublist_skip|by apply sublist_cons].
Qed.

Lemma sel_length mask l : length mask = length l → length (sel mask l) = size mask.
Proof.
  revert mask. induction l as [|x l IH]; intros [|b mask] H; try done.
  cbn in H. rewrite size_cons. cbn [sel]. destruct b; cbn; rewrite IH; lia.
Qed.

Lemma mask_of_sel mask l :
  length mask = length l → NoDup l → mask_of (sel mask l) l = mask.
Proof.
  revert mask. induction l as [|x l IH]; intros [|b mask] H Hnd; try done.
  apply list.NoDup_cons in Hnd as [Hx Hnd]. cbn in H.
  unfold mask_of. rewrite fmap_cons. cbn [sel]. destruct b.
  - fold (mask_of (x :: sel mask l) l).
    rewrite bool_decide_eq_true_2 by by left.
    rewrite mask_of_cons_fresh by done. f_equal. apply IH; [lia|done].
  - fold (mask_of (sel mask l) l).
    rewrite bool_decide_eq_false_2.
    + f_equal. apply IH; [lia|done].
    + apply (sublist_not_elem x _ l); [apply sel_sublist|done].
Qed.

Lemma size_le_length mask : size mask ≤ length mask.
Proof.
  induction mask as [|b mask IH]; [done|]. rewrite size_cons.
  destruct b; cbn; lia.
Qed.

(** [construct_odds] enumerates exactly the odd-sized subsets. *)
Lemma construct_odds_mask n comb :
  comb ∈ NodeM.construct_odds n → odd_subset n (mask_of comb (NodeM.range1 n)).
Proof.
  unfold NodeM.construct_odds. intros H.
  apply list_elem_of_bind in H as (odd & Hc & Hodd).
  apply list_elem_of_filter in Hodd as [Hodd _].
  apply combinations_spec in Hc as [Hs Hlen]. split.
  - unfold mask_of, NodeM.range1. by rewrite length_fmap, length_seq.
  - rewrite size_mask_of; [by rewrite Hlen|done|apply NoDup_seq].
Qed.

Lemma mask_construct_odds n mask :
  odd_subset n mask →
  ∃ comb, comb ∈ NodeM.construct_odds n ∧ mask_of comb (NodeM.range1 n) = mask.
Proof.
  intros [Hlen Hodd]. exists (sel mask (NodeM.range1 n)).
  assert (length mask = length (NodeM.range1 n)) as Hl.
  { unfold NodeM.range1. by rewrite length_seq. }
  split; [|apply mask_of_sel; [done|apply NoDup_seq]].
  unfold NodeM.construct_odds. apply list_elem_of_bind.
  exists (size mask). split.
  - apply combinations_spec. split; [apply sel_sublist|by apply sel_length].
  - apply list_elem_of_filter. split; [done|].
    unfold NodeM.range1. apply elem_of_seq.
    pose proof (size_le_length mask).
    destruct (size mask) eqn:E; [by cbn in Hodd|lia].
Qed.

Lemma add_score_step comb acc idx nd :
  has_scores nd →
  NodeM.add_score comb acc (idx, nd)
    = Ok (Z.add acc (if bool_decide (idx + 1 ∈ comb)
                     then (plain nd).2 else (plain nd).1)).
Proof.
  intros [[c0 H0] [c1 H1]]. unfold NodeM.add_score, plain.
  rewrite H0, H1. by destruct (bool_decide (idx + 1 ∈ comb)).
Qed.

Lemma cost_cons b mask p scores :
  cost (b :: mask) (p :: scores)
    = Z.add (if b then p.2 else p.1) (cost mask scores).
Proof. by destruct p. Qed.

Lemma add_score_fold comb gate_inputs (ix : nat → nat) acc :
  Forall has_scores gate_inputs →
  for_fold (NodeM.add_score comb) acc (imap (λ i x, (ix i, x)) gate_inputs)
    = Ok (Z.add acc (cost ((λ i, bool_decide (ix i + 1 ∈ comb))
                             <$> seq 0 (length gate_inputs))
                          (plain <$> gate_inputs))).
Proof.
  revert ix acc. induction gate_inputs as [|nd l IH]; intros ix acc H.
  - cbn. by rewrite Z.add_0_r.
  - inversion_clear H as [|? ? Hnd H'].
    rewrite imap_cons. cbn [for_fold length seq]. rewrite !fmap_cons.
    rewrite <-fmap_S_seq, <-list_fmap_compose, cost_cons.
    rewrite add_score_step by done.
    etrans; [exact (IH (λ i, ix (S i)) _ H')|].
    f_equal. unfold compose. lia.
Qed.

Lemma term_of_cost comb gate_inputs :
  Forall has_scores gate_inputs →
  NodeM.term_of comb gate_inputs
    = Ok (cost (mask_of comb (NodeM.range1 (length gate_inputs)))
               (plain <$> gate_inputs)).
Proof.
  intros H. unfold NodeM.term_of, NodeM.enumerate.
  etrans; [exact (add_score_fold comb gate_inputs (λ i, i) 0%Z H)|].
  rewrite Z.add_0_l. do 2 f_equal.
  unfold mask_of, NodeM.range1. rewrite <-fmap_S_seq, <-list_fmap_compose.
  apply list_fmap_ext. intros k i _. unfold compose. by rewrite Nat.add_1_r.
Qed.

(** The cost the outer loop compares for a combination. *)
Definition comb_cost (gate_inputs : list Node) (comb : list nat) : Z :=
  cost (mask_of comb (NodeM.range1 (length gate_inputs))) (plain <$> gate_inputs).

Lemma keep_min_step gate_inputs m comb :
  Forall has_scores gate_inputs →
  NodeM.keep_min gate_inputs m comb = Ok (Z.min m (comb_cost gate_inputs comb)).
Proof.
  intros H. unfold NodeM.keep_min. rewrite term_of_cost by done. cbn.
  fold (comb_cost gate_inputs comb). f_equal.
  destruct (comb_cost gate_inputs comb <? m)%Z eqn:E.
  - apply Z.ltb_lt in E. lia.
  - apply Z.ltb_ge in E. lia.
Qed.

Lemma keep_min_fold gate_inputs combos m0 :
  Forall has_scores gate_inputs →
  for_fold (NodeM.keep_min gate_inputs) m0 combos
    = Ok (foldl (λ m comb, Z.min m (comb_cost gate_inputs comb)) m0 combos).
Proof.
  intros H. revert m0. induction combos as [|comb combos IH]; intros m0; [done|].
  cbn [for_fold foldl]. rewrite keep_min_step by done.
  etrans; [apply IH|]. done.
Qed.

Lemma fold_min_spec {A} (t : A → Z) (xs : list A) m0 :
  ∃ r, foldl (λ m x, Z.min m (t x)) m0 xs = r ∧
    (r ≤ m0)%Z ∧ (∀ x, x ∈ xs → (r ≤ t x)%Z) ∧ (r = m0 ∨ ∃ x, x ∈ xs ∧ r = t x).
Proof.
  revert m0. induction xs as [|x xs IH]; intros m0; cbn [foldl].
  - exists m0. split; [done|]. split; [lia|]. split; [|by left].
    intros x Hx. by apply elem_of_nil in Hx.
  - destruct (IH (Z.min m0 (t x))) as (r & Hr & H1 & H2 & H3).
    exists r. split; [done|]. split; [lia|]. split.
    + intros y Hy. apply elem_of_cons in Hy as [->|Hy]; [lia|by apply H2].
    + destruct H3 as [H3|(y & Hy & H3)].
      * destruct (Z.min_spec m0 (t x)) as [[_ E]|[_ E]]; rewrite E in H3.
        -- by left.
        -- right. exists x. split; [by left|done].
      * right. exists y. split; [by right|done].
Qed.

(** Below the initial minimum 1000000, [xor_cc1_xnor_cc0] is one more than
    the least cost of an odd-sized subset. *)
Lemma xor_cc1_parity_min gate_inputs m :
  Forall has_scores gate_inputs →
  is_parity_min (plain <$> gate_inputs) m → (m < 1000000)%Z →
  NodeM.xor_cc1_xnor_cc0 gate_inputs = Ok (m + 1)%Z.
Proof.
  intros H [(mask & Hodd & Hcost) Hleast] Hsmall.
  rewrite length_fmap in Hodd, Hleast.
  unfold NodeM.xor_cc1_xnor_cc0. rewrite keep_min_fold by done. cbn.
  do 2 f_equal.
  destruct (fold_min_spec (comb_cost gate_inputs)
              (NodeM.construct_odds (length gate_inputs)) 1000000)
    as (r & -> & H1 & H2 & H3).
  destruct (mask_construct_odds _ _ Hodd) as (comb0 & Hin0 & Hmask0).
  assert (comb_cost gate_inputs comb0 = m) as Hc0.
  { unfold comb_cost. by rewrite Hmask0. }
  specialize (H2 comb0 Hin0). rewrite Hc0 in H2.
  destruct H3 as [H3|(comb & Hin & H3)]; [lia|].
  apply construct_odds_mask in Hin. apply Hleast in Hin.
  fold (comb_cost gate_inputs comb) in Hin. lia.
Qed.

(** When every odd-sized subset costs 1000000 or more, the result is 1000001
    whatever the costs are. *)
Lemma xor_cc1_capped gate_inputs :
  Forall has_scores gate_inputs →
  (∀ mask, odd_subset (length gate_inputs) mask →
     (1000000 ≤ cost mask (plain <$> gate_inputs))%Z) →
  NodeM.xor_cc1_xnor_cc0 gate_inputs = Ok 1000001%Z.
Proof.
  intros H Hbig.
  unfold NodeM.xor_cc1_xnor_cc0. rewrite keep_min_fold by done. cbn.
  do 2 f_equal.
  destruct (fold_min_spec (comb_cost gate_inputs)
              (NodeM.construct_odds (length gate_inputs)) 1000000)
    as (r & -> & H1 & H2 & H3).
  destruct H3 as [H3|(comb & Hin & H3)]; [lia|].
  apply construct_odds_mask in Hin. apply Hbig in Hin.
  fold (comb_cost gate_inputs comb) in Hin. lia.
Qed.

(** C4, at the input where the code departs from it.  In [deep_xor] the XOR
    gate 28 reads nodes 28 and 29, whose computed scores (cc0, cc1) are
    (15, 1028457) and (15, 1664079).  The least cost of an odd-sized subset
    of its inputs is 1028457 + 15 = 1028472, so the documented cc1 is
    1028473; [set_controllability] returns cc1 = 1000001, one more than the
    initial minimum of the search, and an XNOR over the same inputs gets the
    same number as its cc0. *)
Theorem xor_cc1_capped_at_1000000 :
  built deep_xor ∧
  (∃ gt, gate_heap deep_xor !! 28 = Some gt ∧ type gt = t_xor ∧
     inputs gt = [28; 29] ∧ output gt = 30) ∧
  (∃ nd28 nd29,
     nodes deep_xor !! 28 = Some nd28 ∧ nodes deep_xor !! 29 = Some nd29 ∧
     plain nd28 = (15, 1028457)%Z ∧ plain nd29 = (15, 1664079)%Z ∧
     has_scores nd28 ∧ has_scores nd29 ∧
     NodeM.formulas t_xor [nd28; nd29] = Ok (31, 1000001)%Z ∧
     NodeM.formulas t_xnor [nd28; nd29] = Ok (1000001, 31)%Z) ∧
  is_parity_min [(15, 1028457); (15, 1664079)]%Z 1028472 ∧
  (NodeM.set_controllability 30 deep_xor).1 = Ok (31, 1000001)%Z.
Proof.
  split; [apply built_script; [apply built_empty | by vm_compute]|].
  split; [eexists; by vm_compute|]. split.
  { eexists _, _. split; [by vm_compute|]. split; [by vm_compute|].
    split; [by vm_compute|]. split; [by vm_compute|].
    split; [split; by eexists|]. split; [split; by eexists|].
    split; by vm_compute. }
  split; [|by vm_compute]. split.
  - exists [true; false]. by vm_compute.
  - intros mask [Hlen Hodd].
    destruct mask as [|a [|b [|? ?]]]; try done.
    destruct a, b; try done; by vm_compute.
Qed.

(** * Further properties of the propagation algebra *)

Section flags.
Import Logic.

(** Each propagation function looks at its inputs only through their number
    and through which of the five values occur. *)
Lemma py_in_cons v x l : py_in v (x :: l) = bool_decide (v = x) || py_in v l.
Proof.
  unfold py_in. rewrite <-bool_decide_or. apply bool_decide_ext, elem_of_cons.
Qed.

Lemma py_in_nil v : py_in v [] = false.
Proof. apply bool_decide_eq_false. by intros H%elem_of_nil. Qed.

Lemma all_ones_flags l :
  forallb (λ x, bool_decide (x = L1)) l
    = negb (py_in L0 l || py_in LX l || py_in LD l || py_in LDbar l).
Proof.
  induction l as [|x l IH]; [by rewrite !py_in_nil|].
  cbn [forallb]. rewrite IH, !py_in_cons.
  destruct x; cbn; by repeat destruct (py_in _ l).
Qed.

Lemma any_truthy_flags l :
  existsb truthy l = py_in L1 l || py_in LX l || py_in LD l || py_in LDbar l.
Proof.
  induction l as [|x l IH]; [by rewrite !py_in_nil|].
  cbn [existsb]. rewrite IH, !py_in_cons.
  destruct x; cbn; by repeat destruct (py_in _ l).
Qed.

Lemma py_in_perm v l1 l2 : l1 ≡ₚ l2 → py_in v l1 = py_in v l2.
Proof. intros H. unfold py_in. apply bool_decide_ext. by rewrite H. Qed.

Lemma py_in_invert v l : py_in v (invert <$> l) = py_in (invert v) l.
Proof.
  induction l as [|x l IH]; [by rewrite !py_in_nil|].
  rewrite fmap_cons, !py_in_cons, IH. f_equal. by destruct v, x.
Qed.

Lemma invert_involutive v : invert (invert v) = v.
Proof. by destruct v. Qed.

End flags.

Section algebra_more.
Import Logic.

(** Unfold AND, OR, NAND, NOR to tests on the membership flags. *)
Ltac by_flags l :=
  unfold nand_propagate, nor_propagate, and_propagate, or_propagate;
  rewrite ?length_fmap, ?all_ones_flags, ?any_truthy_flags, ?py_in_invert;
  cbn [invert];
  destruct (1 <? length l);
  destruct (py_in L0 l), (py_in L1 l), (py_in LX l), (py_in LD l),
    (py_in LDbar l); try reflexivity.

Lemma or_as_and (l : list value) :
  or_propagate l = invert <$> and_propagate (invert <$> l).
Proof. by_flags l. Qed.

(** X1. OR is the dual of AND under [invert] (De Morgan), errors included, and
    so NOR is AND, and NAND is OR, of the inverted inputs. *)
Theorem and_or_duality (l : list value) :
  or_propagate l = invert <$> and_propagate (invert <$> l) ∧
  and_propagate l = invert <$> or_propagate (invert <$> l) ∧
  nor_propagate l = and_propagate (invert <$> l) ∧
  nand_propagate l = or_propagate (invert <$> l).
Proof. repeat split; by_flags l. Qed.

(** X2. The order of the inputs does not matter to any gate type. *)
Theorem propagate_permutation (ty : gate_type) (l1 l2 : list value) :
  l1 ≡ₚ l2 → GateM._propagate ty l1 = GateM._propagate ty l2.
Proof.
  intros H.
  assert (and_propagate l1 = and_propagate l2) as Hand.
  { unfold and_propagate.
    by rewrite !all_ones_flags, (Permutation_length H),
      !(py_in_perm _ l1 l2 H). }
  assert (or_propagate l1 = or_propagate l2) as Hor.
  { unfold or_propagate.
    by rewrite !any_truthy_flags, (Permutation_length H),
      !(py_in_perm _ l1 l2 H). }
  assert (xor_propagate l1 = xor_propagate l2) as Hxor.
  { destruct l1 as [|a l1].
    - apply Permutation_nil_l in H. by subst.
    - assert (l2 ≠ []) as Hne.
      { intros ->. by apply Permutation_nil_r in H. }
      rewrite !xor_propagate_all by done. f_equal. by apply xor_all_perm. }
  destruct ty; cbn [GateM._propagate];
    unfold nand_propagate, nor_propagate, xnor_propagate; try congruence.
  destruct l1 as [|a [|b l1]].
  - apply Permutation_nil_l in H. by subst.
  - apply Permutation_singleton_l in H. by subst.
  - pose proof (Permutation_length H) as Hlen.
    destruct l2 as [|a' [|b' l2]]; done.
Qed.

Lemma propagate_permutation_witness :
  GateM._propagate t_nand [LD; L1; LX] = GateM._propagate t_nand [LX; LD; L1].
Proof.
  apply (propagate_permutation t_nand [LD; L1; LX] [LX; LD; L1]).
  symmetry. apply (Permutation_cons_append [LD; L1] LX).
Defined.

(** *** Good-circuit and faulty-circuit readings *)

(** The bit a value stands for in the good circuit and in the faulty one:
    D is 1/0 and ~D is 0/1.  (X stands for no bit; it is given [false].) *)
Definition good_bit (v : value) : bool :=
  match v with
  | L1 | LD => true
  | _ => false
  end.

Definition faulty_bit (v : value) : bool :=
  match v with
  | L1 | LDbar => true
  | _ => false
  end.

Definition of_bits (g f : bool) : value :=
  match g, f with
  | false, false => L0
  | true, true => L1
  | true, false => LD
  | false, true => LDbar
  end.

(** The Boolean function of a gate type. *)
Definition gate_function (ty : gate_type) (bs : list bool) : bool :=
  match ty with
  | t_not => negb (hd false bs)
  | t_and => forallb id bs
  | t_nand => negb (forallb id bs)
  | t_or => existsb id bs
  | t_nor => negb (existsb id bs)
  | t_xor => foldr xorb false bs
  | t_xnor => negb (foldr xorb false bs)
  end.

(** The numbers of inputs each propagation function accepts. *)
Definition arity_ok (ty : gate_type) (n : nat) : Prop :=
  match ty with
  | t_not => n = 1
  | t_and | t_nand | t_or | t_nor => 2 ≤ n
  | t_xor | t_xnor => 1 ≤ n
  end.

Lemma good_all_flags l :
  forallb id (good_bit <$> l) = negb (py_in L0 l || py_in LX l || py_in LDbar l).
Proof.
  induction l as [|x l IH]; [by rewrite !py_in_nil|].
  rewrite fmap_cons. cbn [forallb]. rewrite IH, !py_in_cons.
  destruct x; cbn; by repeat destruct (py_in _ l).
Qed.

Lemma faulty_all_flags l :
  forallb id (faulty_bit <$> l) = negb (py_in L0 l || py_in LX l || py_in LD l).
Proof.
  induction l as [|x l IH]; [by rewrite !py_in_nil|].
  rewrite fmap_cons. cbn [forallb]. rewrite IH, !py_in_cons.
  destruct x; cbn; by repeat destruct (py_in _ l).
Qed.

Lemma good_any_flags l :
  existsb id (good_bit <$> l) = py_in L1 l || py_in LD l.
Proof.
  induction l as [|x l IH]; [by rewrite !py_in_nil|].
  rewrite fmap_cons. cbn [existsb]. rewrite IH, !py_in_cons.
  destruct x; cbn; by repeat destruct (py_in _ l).
Qed.

Lemma faulty_any_flags l :
  existsb id (faulty_bit <$> l) = py_in L1 l || py_in LDbar l.
Proof.
  induction l as [|x l IH]; [by rewrite !py_in_nil|].
  rewrite fmap_cons. cbn [existsb]. rewrite IH, !py_in_cons.
  destruct x; cbn; by repeat destruct (py_in _ l).
Qed.

Lemma xor2_bits a g f :
  a ≠ LX →
  xor2 a (of_bits g f) = of_bits (xorb (good_bit a) g) (xorb (faulty_bit a) f).
Proof. intros H. by destruct a, g, f. Qed.

Lemma xor_all_bits l :
  LX ∉ l →
  xor_all l = of_bits (foldr xorb false (good_bit <$> l))
                      (foldr xorb false (faulty_bit <$> l)).
Proof.
  induction l as [|a l IH]; intros H; [done|].
  rewrite !fmap_cons. cbn [foldr]. unfold xor_all in *. cbn [foldr].
  rewrite IH by (intros Hin; apply H; by right).
  apply xor2_bits. intros ->. apply H. by left.
Qed.

(** X3. Without an X among the inputs, every gate type computes its Boolean
    function separately on the good-circuit bits and on the faulty-circuit
    bits of its inputs. *)
Theorem propagate_good_faulty (ty : gate_type) (l : list value) :
  arity_ok ty (length l) → LX ∉ l →
  GateM._propagate ty l
    = Ok (of_bits (gate_function ty (good_bit <$> l))
                  (gate_function ty (faulty_bit <$> l))).
Proof.
  intros Hlen HX.
  assert (py_in LX l = false) as EX by by apply bool_decide_eq_false.
  destruct ty; cbn [GateM._propagate gate_function arity_ok] in *.
  - destruct l as [|a [|b l]]; try done. cbn.
    destruct a; try done.
  - unfold and_propagate.
    rewrite all_ones_flags, good_all_flags, faulty_all_flags, EX.
    rewrite (proj2 (Nat.ltb_lt 1 (length l))) by lia.
    by destruct (py_in L0 l), (py_in LD l), (py_in LDbar l).
  - unfold nand_propagate, and_propagate.
    rewrite all_ones_flags, good_all_flags, faulty_all_flags, EX.
    rewrite (proj2 (Nat.ltb_lt 1 (length l))) by lia.
    by destruct (py_in L0 l), (py_in LD l), (py_in LDbar l).
  - unfold or_propagate.
    rewrite any_truthy_flags, good_any_flags, faulty_any_flags, EX.
    rewrite (proj2 (Nat.ltb_lt 1 (length l))) by lia.
    by destruct (py_in L1 l), (py_in LD l), (py_in LDbar l).
  - unfold nor_propagate, or_propagate.
    rewrite any_truthy_flags, good_any_flags, faulty_any_flags, EX.
    rewrite (proj2 (Nat.ltb_lt 1 (length l))) by lia.
    by destruct (py_in L1 l), (py_in LD l), (py_in LDbar l).
  - rewrite xor_propagate_all by (intros ->; cbn in Hlen; lia).
    by rewrite xor_all_bits.
  - unfold xnor_propagate.
    rewrite xor_propagate_all by (intros ->; cbn in Hlen; lia).
    rewrite xor_all_bits by done. cbn.
    by destruct (foldr xorb false (good_bit <$> l)),
      (foldr xorb false (faulty_bit <$> l)).
Qed.

Lemma propagate_good_faulty_witness :
  GateM._propagate t_xor [LD; L1; LDbar] = Ok L0.
Proof.
  apply (propagate_good_faulty t_xor [LD; L1; LDbar]); [cbn; lia|].
  rewrite !elem_of_cons, elem_of_nil. by intros [?|[?|[?|[]]]].
Defined.

(** An X among the inputs of XOR or XNOR makes the output X. *)
Lemma xor_all_X l : LX ∈ l → xor_all l = LX.
Proof.
  induction l as [|a l IH]; intros H; [by apply elem_of_nil in H|].
  unfold xor_all in *. cbn [foldr].
  apply elem_of_cons in H as [<-|H].
  - by destruct (foldr xor2 L0 l).
  - rewrite IH by done. by destruct a.
Qed.

(** X4. Each propagation function returns a value exactly on the arities it
    accepts; otherwise NOT, AND, NAND, OR and NOR fail their assertion and
    XOR and XNOR fail in [pop] on the empty list. *)
Theorem propagate_total_on_arity (ty : gate_type) (l : list value) :
  (arity_ok ty (length l) → ∃ v, GateM._propagate ty l = Ok v) ∧
  (¬ arity_ok ty (length l) →
     GateM._propagate ty l
       = Raise (match ty with
                | t_xor | t_xnor => IndexError
                | _ => AssertionError
                end)).
Proof.
  split.
  - intros H. destruct ty; cbn [GateM._propagate arity_ok] in *.
    + destruct l as [|a [|b l]]; try done. by eexists.
    + unfold and_propagate.
      rewrite (proj2 (Nat.ltb_lt 1 (length l))) by lia. cbn [negb].
      repeat case_match; by eexists.
    + unfold nand_propagate, and_propagate.
      rewrite (proj2 (Nat.ltb_lt 1 (length l))) by lia. cbn [negb].
      repeat case_match; by eexists.
    + unfold or_propagate.
      rewrite (proj2 (Nat.ltb_lt 1 (length l))) by lia. cbn [negb].
      repeat case_match; by eexists.
    + unfold nor_propagate, or_propagate.
      rewrite (proj2 (Nat.ltb_lt 1 (length l))) by lia. cbn [negb].
      repeat case_match; by eexists.
    + rewrite xor_propagate_all by (intros ->; cbn in H; lia). by eexists.
    + unfold xnor_propagate.
      rewrite xor_propagate_all by (intros ->; cbn in H; lia). by eexists.
  - intros H. destruct ty; cbn [GateM._propagate arity_ok] in *.
    + destruct l as [|a [|b l]]; try done.
    + unfold and_propagate.
      by rewrite (proj2 (Nat.ltb_ge 1 (length l))) by lia.
    + unfold nand_propagate, and_propagate.
      by rewrite (proj2 (Nat.ltb_ge 1 (length l))) by lia.
    + unfold or_propagate.
      by rewrite (proj2 (Nat.ltb_ge 1 (length l))) by lia.
    + unfold nor_propagate, or_propagate.
      by rewrite (proj2 (Nat.ltb_ge 1 (length l))) by lia.
    + destruct l; [done|]. cbn in H. lia.
    + destruct l; [done|]. cbn in H. lia.
Qed.

Lemma propagate_total_on_arity_witness :
  (∃ v, GateM._propagate t_nor [LX; LD] = Ok v) ∧
  GateM._propagate t_xnor [] = Raise IndexError.
Proof.
  split.
  - apply (proj1 (propagate_total_on_arity t_nor [LX; LD])). cbn. lia.
  - apply (proj2 (propagate_total_on_arity t_xnor [])). cbn. lia.
Defined.

End algebra_more.

Section refinement.
Import Logic.

(** [l'] assigns values to some of the X inputs of [l] and agrees with [l]
    elsewhere. *)
Definition refines (l l' : list value) : Prop :=
  Forall2 (λ a b, a = LX ∨ a = b) l l'.

Lemma refines_length l l' : refines l l' → length l' = length l.
Proof. intros H. symmetry. by eapply Forall2_length. Qed.

Lemma refines_no_X l l' : refines l l' → LX ∉ l → l' = l.
Proof.
  induction 1 as [|a b l l' [-> | ->] _ IH]; intros HX; [done| |].
  - destruct HX. by left.
  - f_equal. apply IH. intros Hin. apply HX. by right.
Qed.

Lemma refines_keeps v l l' :
  refines l l' → v ≠ LX → py_in v l = true → py_in v l' = true.
Proof.
  intros H Hv. induction H as [|a b l l' Hab _ IH]; [done|].
  rewrite !py_in_cons. intros Hin. apply orb_true_iff in Hin as [Hin|Hin].
  - apply bool_decide_eq_true in Hin as <-.
    destruct Hab as [-> | <-]; [done|].
    by rewrite bool_decide_eq_true_2.
  - rewrite IH by done. apply orb_true_r.
Qed.

Lemma refines_invert l l' : refines l l' → refines (invert <$> l) (invert <$> l').
Proof.
  induction 1 as [|a b l l' [-> | ->] _ IH]; [constructor| |];
    rewrite !fmap_cons; constructor; auto.
Qed.

Lemma fmap_invert_ok (r : result value) v :
  invert <$> r = Ok v → r = Ok (invert v).
Proof. destruct r as [w|e]; [|done]. intros [= <-]. by rewrite invert_involutive. Qed.

Lemma and_determinate_stable l l' v :
  refines l l' → and_propagate l = Ok v → v ≠ LX → and_propagate l' = Ok v.
Proof.
  intros Href H Hv.
  destruct (py_in LX l) eqn:EX; last first.
  { apply bool_decide_eq_false in EX. by rewrite (refines_no_X l l'). }
  unfold and_propagate in *. rewrite all_ones_flags in *.
  rewrite (refines_length l l' Href).
  destruct (1 <? length l); [|done]. cbn [negb] in *.
  destruct (py_in L0 l) eqn:E0.
  - injection H as <-. by rewrite (refines_keeps L0 l l').
  - rewrite EX in H. cbn in H.
    destruct (py_in LD l) eqn:ED, (py_in LDbar l) eqn:EDb; cbn in H;
      try (by injection H as <-).
    injection H as <-.
    rewrite (refines_keeps LD l l'), (refines_keeps LDbar l l') by done.
    by destruct (py_in L0 l'), (py_in LX l').
Qed.

Lemma or_determinate_stable l l' v :
  refines l l' → or_propagate l = Ok v → v ≠ LX → or_propagate l' = Ok v.
Proof.
  intros Href H Hv.
  rewrite (or_as_and l) in H. apply fmap_invert_ok in H.
  rewrite (or_as_and l').
  rewrite (and_determinate_stable _ _ _ (refines_invert l l' Href) H).
  - cbn. by rewrite invert_involutive.
  - by destruct v.
Qed.

(** X5. A determinate output does not depend on the X inputs: if a gate returns
    a value other than X, it returns the same value however the X inputs are
    assigned later. *)
Theorem propagate_determinate_stable (ty : gate_type) (l l' : list value)
    (v : value) :
  refines l l' → GateM._propagate ty l = Ok v → v ≠ LX →
  GateM._propagate ty l' = Ok v.
Proof.
  intros Href H Hv. destruct ty; cbn [GateM._propagate] in *.
  - destruct l as [|a [|b l]]; try done. injection H as <-.
    rewrite (refines_no_X _ _ Href); [done|].
    rewrite list_elem_of_singleton. intros <-. done.
  - by apply (and_determinate_stable l).
  - unfold nand_propagate in *. apply fmap_invert_ok in H.
    rewrite (and_determinate_stable l l' (invert v)); try done.
    + cbn. by rewrite invert_involutive.
    + by destruct v.
  - by apply (or_determinate_stable l).
  - unfold nor_propagate in *. apply fmap_invert_ok in H.
    rewrite (or_determinate_stable l l' (invert v)); try done.
    + cbn. by rewrite invert_involutive.
    + by destruct v.
  - destruct (decide (LX ∈ l)) as [HX|HX];
      [|by rewrite (refines_no_X _ _ Href)].
    rewrite xor_propagate_all in H by (intros ->; by apply elem_of_nil in HX).
    rewrite xor_all_X in H by done. by injection H as <-.
  - destruct (decide (LX ∈ l)) as [HX|HX];
      [|by rewrite (refines_no_X _ _ Href)].
    unfold xnor_propagate in H.
    rewrite xor_propagate_all in H by (intros ->; by apply elem_of_nil in HX).
    rewrite xor_all_X in H by done. by injection H as <-.
Qed.

Lemma propagate_determinate_stable_witness :
  GateM._propagate t_and [LD; LX; LDbar] = Ok L0 ∧
  GateM._propagate t_and [LD; L1; LDbar] = Ok L0.
Proof.
  split; [reflexivity|].
  apply (propagate_determinate_stable t_and [LD; LX; LDbar] [LD; L1; LDbar] L0).
  - constructor; [by right|]. constructor; [by left|].
    constructor; [by right|]. constructor.
  - reflexivity.
  - done.
Defined.

End refinement.

(** * Faults on a node *)

Section faults.
Import NodeM.

(** The circuit with node [n] replaced by [nd']. *)
Definition set_node (c : circuit) (n : node_id) (nd' : Node) : circuit :=
  mkCircuit (<[n := nd']> (nodes c)) (gate_heap c).

Lemma set_node_lookup c n nd nd' :
  nodes c !! n = Some nd → nodes (set_node c n nd') !! n = Some nd'.
Proof.
  intros H. unfold set_node. cbn [nodes].
  apply list_lookup_insert_eq. by eapply lookup_lt_Some.
Qed.

Lemma set_node_set_node c n nd1 nd2 :
  set_node (set_node c n nd1) n nd2 = set_node c n nd2.
Proof. unfold set_node. cbn [nodes gate_heap]. by rewrite list_insert_insert_eq. Qed.

Lemma set_node_same c n nd : nodes c !! n = Some nd → set_node c n nd = c.
Proof.
  intros H. unfold set_node. rewrite list_insert_id by done. by destruct c.
Qed.

Lemma update_run c n nd (f : Node → Node) :
  nodes c !! n = Some nd →
  (nd ← get_node n; put_node n (f nd)) c = (Ok tt, set_node c n (f nd)).
Proof. intros H. by erewrite bind_ok by by apply get_node_ok. Qed.

Lemma activate_fault_run c n nd :
  nodes c !! n = Some nd →
  activate_fault n c =
    match stuck_at nd with
    | None => (Ok tt, c)
    | Some s =>
        match fault_value s with
        | Ok v => (Ok tt, set_node c n (with_state v nd))
        | Raise e => (Raise e, c)
        end
    end.
Proof.
  intros H. unfold activate_fault. erewrite bind_ok by by apply get_node_ok.
  destruct (stuck_at nd) as [s|]; [|done].
  destruct (fault_value s) as [v|e] eqn:E.
  - by erewrite bind_ok by reflexivity.
  - by erewrite bind_raise by reflexivity.
Qed.

Lemma is_fault_activated_run c n nd :
  nodes c !! n = Some nd →
  is_fault_activated n c =
    match stuck_at nd with
    | None => (Raise ValueError, c)
    | Some s =>
        match fault_value s with
        | Ok v => (Ok (bool_decide (state nd = v)), c)
        | Raise e => (Raise e, c)
        end
    end.
Proof.
  intros H. unfold is_fault_activated. erewrite bind_ok by by apply get_node_ok.
  destruct (stuck_at nd) as [s|]; [|done].
  destruct (fault_value s) as [v|e] eqn:E.
  - by erewrite bind_ok by reflexivity.
  - by erewrite bind_raise by reflexivity.
Qed.

Lemma make_faulty_run c n nd s set :
  nodes c !! n = Some nd →
  make_faulty n s set c =
    let nd1 := with_stuck_at (Some s) nd in
    if set
    then match fault_value s with
         | Ok v => (Ok tt, set_node c n (with_state v nd1))
         | Raise e => (Raise e, set_node c n nd1)
         end
    else (Ok tt, set_node c n nd1).
Proof.
  intros H. unfold make_faulty, set_stuck_at.
  erewrite bind_ok by by apply update_run.
  destruct set; [|done].
  rewrite (activate_fault_run _ n (with_stuck_at (Some s) nd))
    by by eapply set_node_lookup.
  cbn [stuck_at with_stuck_at].
  destruct (fault_value s); [|done]. by rewrite set_node_set_node.
Qed.

(** The value a stuck-at fault shows when it is excited. *)
Definition excited (s : Z) : value := if bool_decide (s = 0%Z) then LD else LDbar.

(** X6. Attaching a stuck-at-0 or stuck-at-1 fault with activation stores D or
    ~D, and from then on [is_fault_activated] answers [True]; removing the
    fault makes the node fault-free with state X, where
    [is_fault_activated] raises [ValueError]. *)
Theorem fault_life_cycle (c : circuit) (n : node_id) (nd : Node) (s : Z) :
  nodes c !! n = Some nd → s = 0%Z ∨ s = 1%Z →
  let c1 := set_node c n (with_state (excited s) (with_stuck_at (Some s) nd)) in
  let c2 := set_node c n (with_state LX (with_stuck_at None nd)) in
  make_faulty n s true c = (Ok tt, c1) ∧
  is_fault_activated n c1 = (Ok true, c1) ∧
  remove_fault n c1 = (Ok tt, c2) ∧
  is_fault_activated n c2 = (Raise ValueError, c2).
Proof.
  intros H Hs c1 c2.
  assert (fault_value s = Ok (excited s)) as Hv by by destruct Hs as [-> | ->].
  split; [|split; [|split]].
  - rewrite (make_faulty_run _ _ _ _ _ H). cbn zeta. by rewrite Hv.
  - rewrite (is_fault_activated_run c1 n _ (set_node_lookup _ _ _ _ H)).
    cbn [stuck_at with_state with_stuck_at state]. rewrite Hv.
    by rewrite bool_decide_eq_true_2.
  - unfold remove_fault.
    rewrite (update_run c1 n _ _ (set_node_lookup _ _ _ _ H)).
    unfold c1, c2. by rewrite set_node_set_node.
  - by rewrite (is_fault_activated_run c2 n _ (set_node_lookup _ _ _ _ H)).
Qed.

Lemma fault_life_cycle_witness :
  make_faulty 0 1 true (single_pi None)
    = (Ok tt, mkCircuit [mkNode (Some 1%Z) LDbar [] None None None] []).
Proof.
  apply (fault_life_cycle (single_pi None) 0
           (mkNode None LX [] None None None) 1); [reflexivity|by right].
Defined.

(** X7. On a fault-free node in state X, attaching any fault, activated or not,
    and removing it again restores the circuit, even when the activation
    failed. *)
Theorem make_faulty_remove_fault (c : circuit) (n : node_id) (nd : Node)
    (s : Z) (set : bool) :
  nodes c !! n = Some nd → stuck_at nd = None → state nd = LX →
  remove_fault n (make_faulty n s set c).2 = (Ok tt, c).
Proof.
  intros H Hs Hx. rewrite (make_faulty_run _ _ _ _ _ H). cbn zeta.
  destruct nd as [sa st gs go c0 c1]. cbn in Hs, Hx. subst sa st.
  unfold remove_fault.
  destruct set; [destruct (fault_value s)|]; cbn [snd];
    rewrite (update_run _ n _ _ (set_node_lookup _ _ _ _ H));
    rewrite set_node_set_node; cbn; by rewrite set_node_same.
Qed.

Lemma make_faulty_remove_fault_witness :
  remove_fault 0 (make_faulty 0 7 true (single_pi None)).2
    = (Ok tt, single_pi None).
Proof.
  apply (make_faulty_remove_fault (single_pi None) 0
           (mkNode None LX [] None None None) 7 true); reflexivity.
Defined.

(** X8. A stuck-at value other than 0, 1, -1 or -2 cannot be activated:
    [make_faulty] with activation raises [IndexError], but only after it has
    attached the fault; the node's state is left as it was. *)
Theorem make_faulty_bad_value (c : circuit) (n : node_id) (nd : Node) (s : Z) :
  nodes c !! n = Some nd → (s < -2 ∨ 1 < s)%Z →
  make_faulty n s true c
    = (Raise IndexError, set_node c n (with_stuck_at (Some s) nd)) ∧
  make_faulty n s false c = (Ok tt, set_node c n (with_stuck_at (Some s) nd)).
Proof.
  intros H Hs. rewrite !(make_faulty_run _ _ _ _ _ H). cbn zeta.
  split; [|done]. unfold fault_value.
  rewrite !bool_decide_eq_false_2 by lia. done.
Qed.

Lemma make_faulty_bad_value_witness :
  make_faulty 0 2 true (single_pi None)
    = (Raise IndexError, mkCircuit [mkNode (Some 2%Z) LX [] None None None] []).
Proof.
  apply (make_faulty_bad_value (single_pi None) 0
           (mkNode None LX [] None None None) 2); [reflexivity|lia].
Defined.

(** X9. On a node stuck at 0 or 1, assigning 0, 1 or X succeeds, and afterwards
    [is_fault_activated] answers [True] exactly when the assigned value was
    the opposite of the stuck value. *)
Theorem assignment_excites_fault (c : circuit) (n : node_id) (nd : Node)
    (s : Z) (val : value) :
  nodes c !! n = Some nd → stuck_at nd = Some s → s = 0%Z ∨ s = 1%Z →
  val ∈ [L0; L1; LX] →
  ∃ c', set_state n val c = (Ok tt, c') ∧
    is_fault_activated n c'
      = (Ok (bool_decide (val = if bool_decide (s = 0%Z) then L1 else L0)), c').
Proof.
  intros H Hs Hs01 Hval.
  rewrite !elem_of_cons, elem_of_nil in Hval.
  assert (∃ stored, set_state n val c = (Ok tt, store_state c n nd stored) ∧
            bool_decide (stored = excited s)
              = bool_decide (val = if bool_decide (s = 0%Z) then L1 else L0))
    as (stored & Hset & Hb).
  { rewrite (set_state_run _ _ _ _ H). unfold is_faulty. rewrite Hs.
    destruct Hs01 as [-> | ->], Hval as [-> | [-> | [-> | []]]];
      eexists; (split; [reflexivity|by vm_compute]). }
  exists (store_state c n nd stored). split; [done|].
  rewrite (is_fault_activated_run _ n _ (store_state_lookup _ _ _ _ H)).
  cbn [stuck_at with_state state]. rewrite Hs.
  assert (fault_value s = Ok (excited s)) as -> by by destruct Hs01 as [-> | ->].
  by rewrite Hb.
Qed.

Lemma assignment_excites_fault_witness :
  ∃ c', set_state 0 L1 (single_pi (Some 0%Z)) = (Ok tt, c') ∧
    is_fault_activated 0 c' = (Ok true, c').
Proof.
  apply (assignment_excites_fault (single_pi (Some 0%Z)) 0
           (mkNode (Some 0%Z) LX [] None None None) 0 L1);
    [reflexivity|reflexivity|by left|].
  apply list_elem_of_further, list_elem_of_here.
Defined.

End faults.

(** * What the methods leave unchanged *)

Section frame.
Context {A : Type} (f : Node → A).

(** [c'] has the gates of [c] and, node by node, the same [f]. *)
Definition framed (c c' : circuit) : Prop :=
  gate_heap c' = gate_heap c ∧ f <$> nodes c' = f <$> nodes c.

Definition keeps {B} (m : M B) : Prop := ∀ c, framed c (m c).2.

Lemma framed_refl c : framed c c.
Proof. by split. Qed.

Lemma framed_trans c1 c2 c3 : framed c1 c2 → framed c2 c3 → framed c1 c3.
Proof. intros [H1 H2] [H3 H4]. split; congruence. Qed.

Lemma framed_lookup c c' n nd' :
  framed c c' → nodes c' !! n = Some nd' →
  ∃ nd, nodes c !! n = Some nd ∧ f nd = f nd'.
Proof.
  intros [_ Hn] H.
  assert ((f <$> nodes c) !! n = Some (f nd')) as E.
  { by rewrite <-Hn, list_lookup_fmap, H. }
  rewrite list_lookup_fmap in E.
  destruct (nodes c !! n) as [nd|]; [|done].
  exists nd. split; [done|]. cbn in E. congruence.
Qed.

Lemma framed_lookup_inv c c' n nd :
  framed c c' → nodes c !! n = Some nd →
  ∃ nd', nodes c' !! n = Some nd' ∧ f nd' = f nd.
Proof.
  intros [_ Hn] H.
  assert ((f <$> nodes c') !! n = Some (f nd)) as E.
  { by rewrite Hn, list_lookup_fmap, H. }
  rewrite list_lookup_fmap in E.
  destruct (nodes c' !! n) as [nd'|]; [|done].
  exists nd'. split; [done|]. cbn in E. congruence.
Qed.

Lemma framed_length c c' : framed c c' → length (nodes c') = length (nodes c).
Proof. intros [_ Hn]. apply (f_equal length) in Hn. by rewrite !length_fmap in Hn. Qed.

Lemma framed_set_node c n nd nd' :
  nodes c !! n = Some nd → f nd' = f nd → framed c (set_node c n nd').
Proof.
  intros H E. split; [done|]. unfold set_node. cbn [nodes].
  rewrite list_fmap_insert, E. apply list_insert_id.
  by rewrite list_lookup_fmap, H.
Qed.

Lemma keeps_bind {B C} (m : M B) (k : B → M C) :
  keeps m → (∀ b, keeps (k b)) → keeps (m ≫= k).
Proof.
  intros Hm Hk c. unfold mbind, M_bind. specialize (Hm c).
  destruct (m c) as [[b|e] c']; cbn [snd] in *; [|done].
  eapply framed_trans; [exact Hm|apply Hk].
Qed.

Lemma keeps_read_only {B} (m : M B) : read_only m → keeps m.
Proof. intros H c. rewrite H. apply framed_refl. Qed.

Lemma keeps_for_each {B} (body : B → M unit) xs :
  (∀ x, keeps (body x)) → keeps (for_each body xs).
Proof.
  intros H. induction xs as [|x xs IH].
  - intros c. apply framed_refl.
  - cbn [for_each]. apply keeps_bind; [apply H|done].
Qed.

Lemma keeps_update n (g : Node → Node) :
  (∀ nd, f (g nd) = f nd) → keeps (nd ← get_node n; put_node n (g nd)).
Proof.
  intros Hg c. destruct (nodes c !! n) as [nd|] eqn:E.
  - rewrite (update_run _ _ _ _ E). cbn [snd]. by apply (framed_set_node _ _ nd).
  - erewrite bind_raise by by apply get_node_none. apply framed_refl.
Qed.

(** Methods that write the state of nodes only. *)
Section state_writers.
Hypothesis f_state : ∀ v nd, f (with_state v nd) = f nd.

Lemma keeps_set_state n val : keeps (NodeM.set_state n val).
Proof.
  intros c.
  destruct (set_state_effect c n val) as [[e ->]|(nd & v & H & ->)]; cbn [snd].
  - apply framed_refl.
  - by apply (framed_set_node _ _ nd).
Qed.

Lemma keeps_reset n : keeps (NodeM.reset n).
Proof. by apply keeps_update. Qed.

Lemma keeps_activate_fault n : keeps (NodeM.activate_fault n).
Proof.
  intros c. destruct (nodes c !! n) as [nd|] eqn:E.
  - rewrite (activate_fault_run _ _ _ E).
    destruct (stuck_at nd) as [s|]; [|apply framed_refl].
    destruct (NodeM.fault_value s); cbn [snd]; [|apply framed_refl].
    by apply (framed_set_node _ _ nd).
  - unfold NodeM.activate_fault.
    erewrite bind_raise by by apply get_node_none. apply framed_refl.
Qed.

Lemma keeps_propagate g : keeps (GateM.propagate g).
Proof.
  intros c.
  destruct (propagate_effect c g) as [[e ->]|(gt & nd & v & _ & H & ->)]; cbn [snd].
  - apply framed_refl.
  - by apply (framed_set_node _ _ nd).
Qed.

Lemma keeps_gate_reset g : keeps (GateM.reset g).
Proof.
  unfold GateM.reset. apply keeps_bind.
  { apply keeps_read_only, read_only_get_gate. }
  intros gt. apply keeps_bind; [|intros _; apply keeps_reset].
  apply keeps_for_each, keeps_reset.
Qed.

Section fault_writers.
Hypothesis f_stuck_at : ∀ s nd, f (with_stuck_at s nd) = f nd.

Lemma keeps_set_stuck_at n s : keeps (NodeM.set_stuck_at n s).
Proof. by apply keeps_update. Qed.

Lemma keeps_remove_fault n : keeps (NodeM.remove_fault n).
Proof. apply keeps_update. intros nd. by rewrite f_state, f_stuck_at. Qed.

Lemma keeps_make_faulty n s set : keeps (NodeM.make_faulty n s set).
Proof.
  unfold NodeM.make_faulty. apply keeps_bind; [apply keeps_set_stuck_at|].
  intros _. destruct set; [apply keeps_activate_fault|].
  intros c. apply framed_refl.
Qed.

End fault_writers.
End state_writers.

(** [set_controllability] writes the scores only. *)
Lemma keeps_set_controllability n :
  (∀ c0 c1 nd, f (with_cc c0 c1 nd) = f nd) →
  keeps (NodeM.set_controllability n).
Proof.
  intros f_cc c. unfold NodeM.set_controllability.
  destruct (nodes c !! n) as [nd|] eqn:E;
    [|erewrite bind_raise by (by apply get_node_none); apply framed_refl].
  erewrite bind_ok by by apply get_node_ok.
  destruct (gate_output nd) as [g|].
  - destruct (gate_heap c !! g) as [gt|] eqn:Eg;
      [|erewrite bind_raise by (by apply get_gate_none); apply framed_refl].
    erewrite bind_ok by by apply get_gate_ok.
    pose proof (read_only_map_M get_node (inputs gt) read_only_get_node c) as Hro.
    destruct (map_M get_node (inputs gt) c) as [[gate_inputs|e] c1] eqn:Em;
      cbn in Hro; subst c1;
      [|erewrite bind_raise by exact Em; apply framed_refl].
    erewrite bind_ok by exact Em.
    destruct (NodeM.formulas (type gt) gate_inputs) as [[c0 c1]|e] eqn:Ef.
    + erewrite bind_ok by reflexivity.
      cbn. by apply (framed_set_node _ _ nd).
    + erewrite bind_raise by reflexivity. apply framed_refl.
  - cbn. by apply (framed_set_node _ _ nd).
Qed.

End frame.

(** * Invariants of constructed circuits *)

(** The gate producing node [i], and its depth (0 for a primary input). *)
Definition producer (c : circuit) (i : node_id) : option gate_id :=
  nodes c !! i ≫= gate_output.

Definition producer_depth (c : circuit) (i : node_id) : nat :=
  match producer c i ≫= (λ g, gate_heap c !! g) with
  | Some gt => depth gt
  | None => 0
  end.

(** The depth [set_depth] computes for a gate over [ins]. *)
Definition gate_depth (c : circuit) (ins : list node_id) : nat :=
  foldl (λ d i, d `max` producer_depth c i) 0 ins + 1.

Lemma set_depth_run c ins :
  (∀ n, n ∈ ins → ∃ nd, nodes c !! n = Some nd ∧
     ∀ g, gate_output nd = Some g → is_Some (gate_heap c !! g)) →
  GateM.set_depth ins c = (Ok (gate_depth c ins), c).
Proof.
  intros H. unfold GateM.set_depth, gate_depth.
  enough (∀ acc, for_fold (λ d input,
           nd ← get_node input;
           match gate_output nd with
           | None => mret d
           | Some g =>
               gt ← get_gate g;
               mret (if d <? depth gt then depth gt else d)
           end) acc ins c
           = (Ok (foldl (λ d i, d `max` producer_depth c i) acc ins), c)) as Hloop.
  { by erewrite bind_ok by apply Hloop. }
  induction ins as [|i ins IH]; intros acc; [done|].
  destruct (H i) as (nd & Hnd & Hprod); [by left|].
  cbn [for_fold foldl].
  erewrite bind_ok; [apply IH; intros n Hn; apply H; by right|].
  erewrite bind_ok by by apply get_node_ok.
  unfold producer_depth, producer. rewrite Hnd. cbn.
  destruct (gate_output nd) as [g|]; cbn.
  - destruct (Hprod g eq_refl) as [gt Hgt].
    erewrite bind_ok by by apply get_gate_ok. rewrite Hgt.
    unfold mret, M_ret. do 2 f_equal.
    destruct (depth gt) as [|m]; [lia|].
    destruct (acc <=? m) eqn:E.
    + apply Nat.leb_le in E. lia.
    + apply Nat.leb_gt in E. lia.
  - unfold mret, M_ret. do 2 f_equal. lia.
Qed.

Lemma gate_depth_ext c c' ins :
  (∀ i, i ∈ ins → producer_depth c' i = producer_depth c i) →
  gate_depth c' ins = gate_depth c ins.
Proof.
  intros H. unfold gate_depth. f_equal. generalize 0.
  induction ins as [|i ins IH]; intros acc; [done|].
  cbn [foldl]. rewrite H by by left.
  apply IH. intros j Hj. apply H. by right.
Qed.

Lemma foldl_max_le (g : node_id → nat) ins acc :
  acc ≤ foldl (λ d i, d `max` g i) acc ins ∧
  ∀ i, i ∈ ins → g i ≤ foldl (λ d i, d `max` g i) acc ins.
Proof.
  revert acc. induction ins as [|j ins IH]; intros acc; cbn [foldl].
  - split; [done|]. intros i Hi. by apply elem_of_nil in Hi.
  - destruct (IH (acc `max` g j)) as [H1 H2]. split; [lia|].
    intros i Hi. apply elem_of_cons in Hi as [->|Hi]; [lia|by apply H2].
Qed.

Lemma foldl_max_zero (g : node_id → nat) ins :
  (∀ i, i ∈ ins → g i = 0) → foldl (λ d i, d `max` g i) 0 ins = 0.
Proof.
  induction ins as [|j ins IH]; intros H; [done|].
  cbn [foldl]. rewrite H by by left. cbn. apply IH.
  intros i Hi. apply H. by right.
Qed.

(** Producers in the circuit after a gate was added. *)
Lemma after_init_node c cv ty ins d i nd :
  nodes c !! i = Some nd →
  ∃ nd', nodes (after_init c cv ty ins d) !! i = Some nd' ∧
    stuck_at nd' = stuck_at nd ∧ state nd' = state nd ∧
    gate_output nd' = gate_output nd ∧ cc0 nd' = cc0 nd ∧ cc1 nd' = cc1 nd ∧
    gates nd' = gates nd
      ++ replicate (length (filter (λ j, j = i) ins)) (length (gate_heap c)).
Proof.
  intros H. eexists. split.
  - unfold after_init. cbn [nodes]. apply lookup_app_l_Some.
    by apply attach_lookup.
  - done.
Qed.

Lemma after_init_producer_depth c cv ty ins d i :
  wf c → i < length (nodes c) →
  producer_depth (after_init c cv ty ins d) i = producer_depth c i.
Proof.
  intros Hwf Hi. apply lookup_lt_is_Some_2 in Hi as [nd Hnd].
  destruct (after_init_node c cv ty ins d i nd Hnd) as (nd' & Hnd' & _ & _ & Ho & _).
  unfold producer_depth, producer. rewrite Hnd, Hnd'. cbn. rewrite Ho.
  destruct (gate_output nd) as [g|] eqn:Eg; [|done]. cbn.
  destruct (wf_producer c Hwf i nd g Hnd Eg) as (gt & Hgt & _).
  unfold after_init. cbn [gate_heap].
  by rewrite (lookup_app_l_Some _ _ _ _ Hgt), Hgt.
Qed.

Lemma init_exact c ty ins :
  wf c → existing c ins →
  GateM.init ty ins c
    = (Ok (length (gate_heap c)), after_init c (-1) ty ins (gate_depth c ins)).
Proof.
  intros Hwf Hins.
  set (g := length (gate_heap c)).
  set (c2 := mkCircuit (attach g ins (nodes c) ++ [mkNode None LX [] (Some g) None None])
                       (gate_heap c)).
  assert (NodeM.init (Some g) None (mkCircuit (attach g ins (nodes c)) (gate_heap c))
            = (Ok (length (nodes c)), c2)) as Hnew.
  { unfold NodeM.init, alloc_node. cbn [nodes gate_heap].
    by rewrite attach_length. }
  assert (∀ n, n ∈ ins → ∃ nd, nodes c !! n = Some nd ∧
            nodes c2 !! n
              = Some (with_gates (gates nd
                   ++ replicate (length (filter (λ i, i = n) ins)) g) nd)) as Hnodes.
  { intros n Hn. unfold existing in Hins. rewrite Forall_forall in Hins.
    apply list_elem_of_In, Hins in Hn.
    apply lookup_lt_is_Some_2 in Hn as [nd Hnd]. exists nd. split; [done|].
    subst c2. cbn [nodes]. apply lookup_app_l_Some. by apply attach_lookup. }
  assert (GateM.set_depth ins c2 = (Ok (gate_depth c ins), c2)) as Hd.
  { rewrite set_depth_run.
    - do 2 f_equal. apply gate_depth_ext. intros i Hi.
      destruct (Hnodes i Hi) as (nd & Hnd & Hnd2).
      unfold producer_depth, producer. by rewrite Hnd, Hnd2.
    - intros n Hn. destruct (Hnodes n Hn) as (nd & Hnd & Hnd2).
      eexists. split; [exact Hnd2|]. intros g' Hg'. cbn in Hg'.
      destruct (wf_producer c Hwf n nd g' Hnd Hg') as (gt & Hgt & _). by exists gt. }
  unfold GateM.init.
  erewrite bind_ok by reflexivity.
  erewrite bind_ok by by apply for_each_attach.
  erewrite bind_ok by exact Hnew.
  erewrite bind_ok by exact Hd.
  reflexivity.
Qed.

Lemma construct_exact c ty ins :
  wf c → existing c ins →
  construct ty ins c
    = (Ok (length (gate_heap c)),
       after_init c (control_of ty) ty ins (gate_depth c ins)).
Proof.
  intros Hwf Hins. pose proof (init_exact c ty ins Hwf Hins) as Hd.
  destruct ty; cbn [construct control_of];
    unfold GateM.Not, GateM.And, GateM.Nand, GateM.Or, GateM.Nor, GateM.Xor,
      GateM.Xnor; try exact Hd;
    (erewrite bind_ok by apply (init_exact c _ ins Hwf Hins));
    apply set_control_value_run.
Qed.

(** Everything about a node except its state and its fault. *)
Definition node_static (nd : Node)
    : list gate_id * option gate_id * option Z * option Z :=
  (gates nd, gate_output nd, cc0 nd, cc1 nd).

(** Induction over constructed circuits: a property holds of all of them
    if it holds of the empty circuit, survives a new primary input, a new
    gate, any change of states and faults, and [set_controllability]. *)
Lemma built_invariant (P : circuit → Prop) :
  P empty_circuit →
  (∀ c s, built c → P c →
     P (mkCircuit (nodes c ++ [mkNode s LX [] None None None]) (gate_heap c))) →
  (∀ c ty ins, built c → P c → existing c ins →
     P (after_init c (control_of ty) ty ins (gate_depth c ins))) →
  (∀ c c', built c → P c → framed node_static c c' → P c') →
  (∀ c n, built c → P c → P (NodeM.set_controllability n c).2) →
  ∀ c, built c → P c.
Proof.
  intros Hempty Hnode Hgate Hframe Hcc c Hb.
  induction Hb as [|c k Hb IH Hadm]; [done|].
  destruct k as [s|ty ins|n v|n s|n|n s set|n|n|g|n|g]; cbn [exec].
  - by apply Hnode.
  - apply admissible_existing in Hadm.
    rewrite (construct_exact c ty ins (built_wf c Hb) Hadm). by apply Hgate.
  - apply (Hframe c); [done|done|]. by apply keeps_set_state.
  - apply (Hframe c); [done|done|]. by apply keeps_set_stuck_at.
  - apply (Hframe c); [done|done|]. by apply keeps_remove_fault.
  - apply (Hframe c); [done|done|]. by apply keeps_make_faulty.
  - apply (Hframe c); [done|done|]. by apply keeps_activate_fault.
  - apply (Hframe c); [done|done|]. by apply keeps_reset.
  - apply (Hframe c); [done|done|]. by apply keeps_gate_reset.
  - by apply Hcc.
  - apply (Hframe c); [done|done|]. by apply keeps_propagate.
Qed.

Lemma framed_weaken {A B} (f : Node → A) (g : Node → B) (h : A → B) c c' :
  (∀ nd, g nd = h (f nd)) → framed f c c' → framed g c c'.
Proof.
  intros Hg [H1 H2]. split; [done|].
  rewrite !(list_fmap_ext g (h ∘ f)) by (intros; apply Hg).
  by rewrite !list_fmap_compose, H2.
Qed.

Lemma framed_static_producer c c' :
  framed node_static c c' → framed gate_output c c'.
Proof. by apply (framed_weaken _ _ (λ p, p.1.1.2)). Qed.

Lemma framed_producer c c' i :
  framed gate_output c c' → producer c' i = producer c i.
Proof.
  intros H. unfold producer.
  destruct (nodes c' !! i) as [nd'|] eqn:E'.
  - destruct (framed_lookup _ _ _ _ _ H E') as (nd & -> & Ho). cbn. congruence.
  - apply lookup_ge_None in E'. rewrite (framed_length _ _ _ H) in E'.
    apply lookup_ge_None in E'. by rewrite E'.
Qed.

Lemma framed_producer_depth c c' i :
  framed gate_output c c' → producer_depth c' i = producer_depth c i.
Proof.
  intros H. unfold producer_depth. rewrite (framed_producer _ _ _ H).
  destruct H as [-> _]. done.
Qed.

(** What holds of every gate of a constructed circuit: its control value is
    the one of its subclass, its depth is the one [set_depth] computes from
    its inputs now, and its output node names it as producer. *)
Record gates_ok (c : circuit) : Prop := mk_gates_ok {
  control_ok : ∀ g gt, gate_heap c !! g = Some gt →
    control_value gt = control_of (type gt);
  depth_ok : ∀ g gt, gate_heap c !! g = Some gt →
    depth gt = gate_depth c (inputs gt);
  owner_ok : ∀ g gt, gate_heap c !! g = Some gt →
    ∃ nd, nodes c !! output gt = Some nd ∧ gate_output nd = Some g
}.

Lemma gates_ok_framed c c' :
  framed gate_output c c' → gates_ok c → gates_ok c'.
Proof.
  intros H [Hc Hd Ho]. pose proof H as [Hg Hn]. split.
  - intros g gt Hgt. rewrite Hg in Hgt. by apply (Hc g).
  - intros g gt Hgt. rewrite Hg in Hgt. rewrite (Hd g gt Hgt).
    symmetry. apply gate_depth_ext. intros i _. by apply framed_producer_depth.
  - intros g gt Hgt. rewrite Hg in Hgt.
    destruct (Ho g gt Hgt) as (nd & Hnd & Hout).
    destruct (framed_lookup_inv _ _ _ _ _ H Hnd) as (nd' & Hnd' & E).
    exists nd'. split; [done|congruence].
Qed.

Lemma new_node_producer_depth c nd i :
  i < length (nodes c) →
  producer_depth (mkCircuit (nodes c ++ [nd]) (gate_heap c)) i = producer_depth c i.
Proof.
  intros Hi. unfold producer_depth, producer. cbn [nodes gate_heap].
  by rewrite lookup_app_l.
Qed.

Lemma gate_input_exists c g gt i :
  wf c → gate_heap c !! g = Some gt → i ∈ inputs gt → i < length (nodes c).
Proof.
  intros Hwf Hgt Hi. destruct (wf_gate c Hwf g gt Hgt) as [Ho Hins].
  rewrite Forall_forall in Hins. apply list_elem_of_In, Hins in Hi. lia.
Qed.

Lemma built_gates_ok c : built c → gates_ok c.
Proof.
  revert c. apply built_invariant.
  - split; intros g gt H; cbn in H; by rewrite lookup_nil in H.
  - intros c s Hb [Hc Hd Ho]. apply built_wf in Hb. split; cbn [gate_heap].
    + done.
    + intros g gt Hgt. rewrite (Hd g gt Hgt). symmetry.
      apply gate_depth_ext. intros i Hi. apply new_node_producer_depth.
      by apply (gate_input_exists c g gt).
    + intros g gt Hgt. destruct (Ho g gt Hgt) as (nd & Hnd & Hout).
      exists nd. split; [|done]. cbn [nodes]. by apply lookup_app_l_Some.
  - intros c ty ins Hb [Hc Hd Ho] Hins. apply built_wf in Hb. split.
    + intros g gt Hgt. unfold after_init in Hgt. cbn [gate_heap] in Hgt.
      apply lookup_snoc_Some in Hgt as [[_ Hgt]|[_ <-]]; [by apply (Hc g)|done].
    + intros g gt Hgt.
      assert (∀ i, i ∈ inputs gt → i < length (nodes c)) as Hex.
      { unfold after_init in Hgt. cbn [gate_heap] in Hgt.
        apply lookup_snoc_Some in Hgt as [[_ Hgt]|[_ <-]].
        - intros i. by apply (gate_input_exists c g gt).
        - intros i Hi. cbn in Hi. unfold existing in Hins.
          rewrite Forall_forall in Hins. by apply list_elem_of_In, Hins in Hi. }
      transitivity (gate_depth c (inputs gt)).
      * unfold after_init in Hgt. cbn [gate_heap] in Hgt.
        apply lookup_snoc_Some in Hgt as [[_ Hgt]|[_ <-]]; [by apply (Hd g)|done].
      * symmetry. apply gate_depth_ext. intros i Hi.
        apply after_init_producer_depth; [done|by apply Hex].
    + intros g gt Hgt. unfold after_init in Hgt. cbn [gate_heap] in Hgt.
      apply lookup_snoc_Some in Hgt as [[_ Hgt]|[-> <-]].
      * destruct (Ho g gt Hgt) as (nd & Hnd & Hout).
        destruct (after_init_node c (control_of ty) ty ins (gate_depth c ins)
                    _ nd Hnd) as (nd' & Hnd' & _ & _ & Ho' & _).
        exists nd'. split; [done|congruence].
      * exists (mkNode None LX [] (Some (length (gate_heap c))) None None).
        split; [|reflexivity]. unfold after_init. cbn [nodes output].
        rewrite lookup_app_r by by rewrite attach_length.
        by rewrite attach_length, Nat.sub_diag.
  - intros c c' _ Hok Hf.
    apply (gates_ok_framed c); [by apply framed_static_producer|done].
  - intros c n _ Hok. apply (gates_ok_framed c); [|done].
    by apply keeps_set_controllability.
Qed.

(** X10. In a constructed circuit every gate has depth at least 1, is strictly
    deeper than the gate producing any of its inputs, and has depth 1 when
    all its inputs are primary inputs: visiting gates by ascending depth
    visits every producer before its consumers. *)
Theorem depth_respects_dependencies (c : circuit) (g : gate_id) (gt : Gate) :
  built c → gate_heap c !! g = Some gt →
  1 ≤ depth gt ∧
  (∀ i nd g' gt', i ∈ inputs gt → nodes c !! i = Some nd →
     gate_output nd = Some g' → gate_heap c !! g' = Some gt' →
     depth gt' < depth gt) ∧
  ((∀ i nd, i ∈ inputs gt → nodes c !! i = Some nd → NodeM.is_pi nd = true) →
     depth gt = 1).
Proof.
  intros Hb Hgt. pose proof (built_wf c Hb) as Hwf.
  rewrite (depth_ok c (built_gates_ok c Hb) g gt Hgt). unfold gate_depth.
  split; [lia|]. split.
  - intros i nd g' gt' Hi Hnd Hout Hgt'.
    destruct (foldl_max_le (producer_depth c) (inputs gt) 0) as [_ Hle].
    specialize (Hle i Hi). unfold producer_depth at 1, producer in Hle.
    rewrite Hnd in Hle. cbn in Hle. rewrite Hout in Hle. cbn in Hle.
    rewrite Hgt' in Hle. lia.
  - intros Hpi. rewrite foldl_max_zero; [done|]. intros i Hi.
    pose proof (gate_input_exists c g gt i Hwf Hgt Hi) as Hlt.
    apply lookup_lt_is_Some_2 in Hlt as [nd Hnd].
    specialize (Hpi i nd Hi Hnd). apply bool_decide_eq_true in Hpi.
    unfold producer_depth, producer. rewrite Hnd. cbn. by rewrite Hpi.
Qed.

Lemma depth_respects_dependencies_witness :
  ∃ gt, gate_heap chain_demo !! 1 = Some gt ∧ 1 ≤ depth gt ∧
  (∀ i nd g' gt', i ∈ inputs gt → nodes chain_demo !! i = Some nd →
     gate_output nd = Some g' → gate_heap chain_demo !! g' = Some gt' →
     depth gt' < depth gt).
Proof.
  assert (built chain_demo) as Hb
    by (apply built_script; [apply built_empty | reflexivity]).
  eexists. split; [reflexivity|].
  pose proof (depth_respects_dependencies chain_demo 1 _ Hb eq_refl)
    as (H1 & H2 & _).
  split; [exact H1|exact H2].
Defined.

(** X11. In a constructed circuit every gate owns its output: the output node
    names the gate as its producer, no two gates share an output, and a node
    is a primary input exactly when no gate outputs it. *)
Theorem gate_owns_output (c : circuit) :
  built c →
  (∀ g gt, gate_heap c !! g = Some gt →
     ∃ nd, nodes c !! output gt = Some nd ∧ gate_output nd = Some g ∧
       NodeM.is_pi nd = false) ∧
  (∀ g1 g2 gt1 gt2, gate_heap c !! g1 = Some gt1 → gate_heap c !! g2 = Some gt2 →
     output gt1 = output gt2 → g1 = g2) ∧
  (∀ n nd, nodes c !! n = Some nd →
     (NodeM.is_pi nd = true ↔ ∀ g gt, gate_heap c !! g = Some gt → output gt ≠ n)).
Proof.
  intros Hb. pose proof (built_wf c Hb) as Hwf.
  pose proof (built_gates_ok c Hb) as Hok.
  split; [|split].
  - intros g gt Hgt. destruct (owner_ok c Hok g gt Hgt) as (nd & Hnd & Ho).
    exists nd. split; [done|]. split; [done|].
    unfold NodeM.is_pi. apply bool_decide_eq_false. congruence.
  - intros g1 g2 gt1 gt2 H1 H2 E.
    destruct (owner_ok c Hok g1 gt1 H1) as (nd1 & Hnd1 & Ho1).
    destruct (owner_ok c Hok g2 gt2 H2) as (nd2 & Hnd2 & Ho2).
    rewrite E in Hnd1. congruence.
  - intros n nd Hnd. unfold NodeM.is_pi. rewrite bool_decide_eq_true. split.
    + intros Hnone g gt Hgt <-.
      destruct (owner_ok c Hok g gt Hgt) as (nd' & Hnd' & Ho). congruence.
    + intros Hno. destruct (gate_output nd) as [g|] eqn:Eg; [|done].
      destruct (wf_producer c Hwf n nd g Hnd Eg) as (gt & Hgt & Ho).
      by destruct (Hno g gt Hgt).
Qed.

Lemma gate_owns_output_witness :
  ∃ nd, nodes chain_demo !! 3 = Some nd ∧ gate_output nd = Some 1 ∧
    NodeM.is_pi nd = false.
Proof.
  assert (built chain_demo) as Hb
    by (apply built_script; [apply built_empty | reflexivity]).
  exact (proj1 (gate_owns_output chain_demo Hb) 1
           (mkGate (-1) t_not [2] 3 2) eq_refl).
Defined.

(** The value the output takes when an input carries the controlling
    value. *)
Definition forced (ty : gate_type) : value :=
  match ty with
  | t_nand | t_or => L1
  | _ => L0
  end.

(** X12. In a constructed circuit a gate's control value is 0 for AND and NAND,
    1 for OR and NOR and -1 otherwise; when it is 0 or 1 and some input
    carries it, the gate's output is decided whatever the other inputs are:
    0 for AND and NOR, 1 for NAND and OR. *)
Theorem controlling_value_decides (c : circuit) (g : gate_id) (gt : Gate)
    (vals : list value) :
  built c → gate_heap c !! g = Some gt →
  control_value gt = control_of (type gt) ∧
  (2 ≤ length vals →
   (control_value gt = 0%Z ∧ L0 ∈ vals) ∨ (control_value gt = 1%Z ∧ L1 ∈ vals) →
   GateM._propagate (type gt) vals = Ok (forced (type gt))).
Proof.
  intros Hb Hgt.
  pose proof (control_ok c (built_gates_ok c Hb) g gt Hgt) as Hcv.
  split; [done|]. intros Hlen H. rewrite Hcv in H.
  assert ((1 <? length vals) = true) as Hl by (apply Nat.ltb_lt; lia).
  destruct (type gt); cbn [control_of] in H;
    destruct H as [[? Hin]|[? Hin]]; try done;
    apply (bool_decide_eq_true_2 _) in Hin; fold (py_in L0 vals) in Hin;
    fold (py_in L1 vals) in Hin; cbn [GateM._propagate forced];
    unfold Logic.nand_propagate, Logic.nor_propagate, Logic.and_propagate,
      Logic.or_propagate; by rewrite Hl, Hin.
Qed.

Lemma controlling_value_decides_witness :
  GateM._propagate t_and [LX; L0; LD] = Ok L0.
Proof.
  assert (built and_demo) as Hb
    by (apply built_script; [apply built_empty | reflexivity]).
  refine (proj2 (controlling_value_decides and_demo 0
            (mkGate 0 t_and [0; 1] 2 1) [LX; L0; LD] Hb eq_refl) _ _).
  - cbn. lia.
  - left. split; [done|]. apply list_elem_of_further, list_elem_of_here.
Defined.

(** * Controllability scores *)

Section scores.
Import NodeM.

Lemma for_fold_ok_inv {A B} (P : B → Prop) (body : B → A → result B) acc xs r :
  P acc →
  (∀ b x b', x ∈ xs → P b → body b x = Ok b' → P b') →
  for_fold body acc xs = Ok r → P r.
Proof.
  revert acc. induction xs as [|x xs IH]; intros acc Hacc Hstep H.
  - cbn in H. by injection H as <-.
  - cbn [for_fold] in H. destruct (body acc x) as [b'|e] eqn:E; [|done].
    apply (IH b'); [|intros b y b2 Hy; apply Hstep; by right|done].
    apply (Hstep acc x); [by left|done|done].
Qed.

Lemma for_fold_raise_inv {A B} (P : exn → Prop) (body : B → A → result B)
    acc xs e :
  (∀ b x e, body b x = Raise e → P e) →
  for_fold body acc xs = Raise e → P e.
Proof.
  intros Hstep. revert acc. induction xs as [|x xs IH]; intros acc H; [done|].
  cbn [for_fold] in H. destruct (body acc x) as [b'|e'] eqn:E.
  - by apply (IH b').
  - cbn in H. injection H as <-. by apply (Hstep acc x).
Qed.

Lemma as_int_raise o e : as_int o = Raise e → e = TypeError.
Proof. destruct o; [done|]. by intros [= <-]. Qed.

Lemma map_as_int_cases xs :
  (∃ zs, xs = Some <$> zs ∧ map_M as_int xs = Ok zs) ∨
  (None ∈ xs ∧ map_M as_int xs = Raise TypeError).
Proof.
  induction xs as [|[z|] xs IH].
  - left. by exists [].
  - destruct IH as [(zs & -> & E)|[Hin E]].
    + left. exists (z :: zs). split; [done|]. cbn [map_M]. cbn. by rewrite E.
    + right. split; [by right|]. cbn [map_M]. cbn. by rewrite E.
  - right. split; [by left|done].
Qed.

Lemma sum_of_cases xs :
  (∃ zs, xs = Some <$> zs ∧ sum_of xs = Ok (foldl Z.add 0%Z zs)) ∨
  (None ∈ xs ∧ sum_of xs = Raise TypeError).
Proof.
  unfold sum_of.
  destruct (map_as_int_cases xs) as [(zs & -> & E)|[Hin E]]; rewrite E.
  - left. by exists zs.
  - by right.
Qed.

Lemma min_of_cases xs :
  (xs = [] ∧ min_of xs = Raise ValueError) ∨
  (∃ z zs, xs = Some <$> (z :: zs) ∧ min_of xs = Ok (foldl Z.min z zs)) ∨
  (None ∈ xs ∧ min_of xs = Raise TypeError).
Proof.
  destruct xs as [|x xs]; [by left|]. right. unfold min_of.
  destruct (map_as_int_cases (x :: xs)) as [(zs & Hzs & E)|[Hin E]]; rewrite E.
  - left. destruct zs as [|z zs]; [done|]. by exists z, zs.
  - by right.
Qed.

Lemma foldl_add_ge zs acc :
  Forall (λ z, 1 ≤ z)%Z zs → (acc ≤ foldl Z.add acc zs)%Z.
Proof.
  intros H. revert acc. induction H as [|z zs Hz _ IH]; intros acc; [done|].
  cbn [foldl]. specialize (IH (acc + z)%Z). lia.
Qed.

Lemma foldl_min_ge zs acc :
  Forall (λ z, 1 ≤ z)%Z zs → (1 ≤ acc)%Z → (1 ≤ foldl Z.min acc zs)%Z.
Proof.
  intros H. revert acc. induction H as [|z zs Hz _ IH]; intros acc Hacc; [done|].
  cbn [foldl]. apply IH. lia.
Qed.

(** The scores a node carries, if any, are at least 1. *)
Definition positive_scores (nd : Node) : Prop :=
  (∀ z, cc0 nd = Some z → (1 ≤ z)%Z) ∧ (∀ z, cc1 nd = Some z → (1 ≤ z)%Z).

Lemma positive_cc0 l zs :
  Forall positive_scores l → cc0 <$> l = Some <$> zs → Forall (λ z, 1 ≤ z)%Z zs.
Proof.
  intros H. revert zs. induction H as [|nd l [Hnd _] _ IH]; intros [|z zs] E;
    try done; try constructor.
  - rewrite !fmap_cons in E. injection E as E1 E2. by apply Hnd.
  - rewrite !fmap_cons in E. injection E as E1 E2. by apply IH.
Qed.

Lemma positive_cc1 l zs :
  Forall positive_scores l → cc1 <$> l = Some <$> zs → Forall (λ z, 1 ≤ z)%Z zs.
Proof.
  intros H. revert zs. induction H as [|nd l [_ Hnd] _ IH]; intros [|z zs] E;
    try done; try constructor.
  - rewrite !fmap_cons in E. injection E as E1 E2. by apply Hnd.
  - rewrite !fmap_cons in E. injection E as E1 E2. by apply IH.
Qed.

Lemma sum_positive l (proj : Node → option Z) a :
  (∀ zs, proj <$> l = Some <$> zs → Forall (λ z, 1 ≤ z)%Z zs) →
  sum_of (proj <$> l) = Ok a → (0 ≤ a)%Z.
Proof.
  intros Hpos H.
  destruct (sum_of_cases (proj <$> l)) as [(zs & E & Hs)|[_ Hs]];
    rewrite Hs in H; [|done].
  injection H as <-. by apply foldl_add_ge, Hpos.
Qed.

Lemma min_positive l (proj : Node → option Z) a :
  (∀ zs, proj <$> l = Some <$> zs → Forall (λ z, 1 ≤ z)%Z zs) →
  min_of (proj <$> l) = Ok a → (1 ≤ a)%Z.
Proof.
  intros Hpos H.
  destruct (min_of_cases (proj <$> l)) as [[_ Hs]|[(z & zs & E & Hs)|[_ Hs]]];
    rewrite Hs in H; try done.
  injection H as <-. specialize (Hpos _ E).
  inversion_clear Hpos. by apply foldl_min_ge.
Qed.

Lemma add_score_nonneg comb acc idx nd acc' :
  positive_scores nd → (0 ≤ acc)%Z →
  add_score comb acc (idx, nd) = Ok acc' → (0 ≤ acc')%Z.
Proof.
  intros [H0 H1] Hacc. unfold add_score.
  destruct (bool_decide (idx + 1 ∈ comb)).
  - destruct (cc1 nd) as [z|]; [|done]. cbn. intros [= <-].
    specialize (H1 z eq_refl). lia.
  - destruct (cc0 nd) as [z|]; [|done]. cbn. intros [= <-].
    specialize (H0 z eq_refl). lia.
Qed.

Lemma xor_cc1_positive l b :
  Forall positive_scores l → xor_cc1_xnor_cc0 l = Ok b → (1 ≤ b)%Z.
Proof.
  intros Hpos H. unfold xor_cc1_xnor_cc0 in H.
  destruct (for_fold (keep_min l) 1000000%Z (construct_odds (length l)))
    as [m|] eqn:E; [|done].
  cbn in H. injection H as <-.
  enough (0 ≤ m)%Z by lia.
  eapply (for_fold_ok_inv (λ m, 0 ≤ m)%Z); [| |exact E]; [lia|].
  intros m0 comb m1 _ Hm0. unfold keep_min.
  destruct (term_of comb l) as [t|] eqn:Et; [|done]. cbn. intros [= <-].
  enough (0 ≤ t)%Z by (destruct (t <? m0)%Z; lia).
  unfold term_of in Et.
  eapply (for_fold_ok_inv (λ t, 0 ≤ t)%Z); [| |exact Et]; [lia|].
  intros acc [idx nd] acc' Hin Hacc.
  apply elem_of_lookup_imap in Hin as (i & nd' & [= -> ->] & Hnd).
  apply add_score_nonneg; [|done].
  rewrite Forall_forall in Hpos. apply Hpos, list_elem_of_In.
  by eapply list_elem_of_lookup_2.
Qed.

Lemma min0_positive l a :
  Forall positive_scores l → min_of (cc0 <$> l) = Ok a → (1 ≤ a)%Z.
Proof. intros H. apply min_positive. intros zs. by apply positive_cc0. Qed.

Lemma min1_positive l a :
  Forall positive_scores l → min_of (cc1 <$> l) = Ok a → (1 ≤ a)%Z.
Proof. intros H. apply min_positive. intros zs. by apply positive_cc1. Qed.

Lemma sum0_positive l a :
  Forall positive_scores l → sum_of (cc0 <$> l) = Ok a → (0 ≤ a)%Z.
Proof. intros H. apply sum_positive. intros zs. by apply positive_cc0. Qed.

Lemma sum1_positive l a :
  Forall positive_scores l → sum_of (cc1 <$> l) = Ok a → (0 ≤ a)%Z.
Proof. intros H. apply sum_positive. intros zs. by apply positive_cc1. Qed.

(** From inputs with positive scores every formula yields positive scores. *)
Lemma formulas_positive ty l c0 c1 :
  Forall positive_scores l → formulas ty l = Ok (c0, c1) →
  (1 ≤ c0)%Z ∧ (1 ≤ c1)%Z.
Proof.
  intros Hpos H.
  destruct ty; cbn [formulas] in H.
  - destruct l as [|i0 l]; [done|]. inversion_clear Hpos as [|? ? [H0 H1] _].
    destruct (cc1 i0) as [a|]; [|done]. destruct (cc0 i0) as [b|]; [|done].
    cbn in H. injection H as <- <-.
    specialize (H0 b eq_refl). specialize (H1 a eq_refl). lia.
  - destruct (min_of (cc0 <$> l)) as [a|] eqn:Ea; [|done].
    destruct (sum_of (cc1 <$> l)) as [b|] eqn:Eb; [|done].
    cbn in H. injection H as <- <-.
    apply (min0_positive _ _ Hpos) in Ea. apply (sum1_positive _ _ Hpos) in Eb.
    lia.
  - destruct (sum_of (cc1 <$> l)) as [a|] eqn:Ea; [|done].
    destruct (min_of (cc0 <$> l)) as [b|] eqn:Eb; [|done].
    cbn in H. injection H as <- <-.
    apply (sum1_positive _ _ Hpos) in Ea. apply (min0_positive _ _ Hpos) in Eb.
    lia.
  - destruct (sum_of (cc0 <$> l)) as [a|] eqn:Ea; [|done].
    destruct (min_of (cc1 <$> l)) as [b|] eqn:Eb; [|done].
    cbn in H. injection H as <- <-.
    apply (sum0_positive _ _ Hpos) in Ea. apply (min1_positive _ _ Hpos) in Eb.
    lia.
  - destruct (min_of (cc1 <$> l)) as [a|] eqn:Ea; [|done].
    destruct (sum_of (cc0 <$> l)) as [b|] eqn:Eb; [|done].
    cbn in H. injection H as <- <-.
    apply (min1_positive _ _ Hpos) in Ea. apply (sum0_positive _ _ Hpos) in Eb.
    lia.
  - destruct (sum_of (cc0 <$> l)) as [s0|] eqn:E0; [|done].
    destruct (sum_of (cc1 <$> l)) as [s1|] eqn:E1; [|done].
    destruct (xor_cc1_xnor_cc0 l) as [b|] eqn:Eb; [|done].
    cbn in H. injection H as <- <-.
    apply (sum0_positive _ _ Hpos) in E0. apply (sum1_positive _ _ Hpos) in E1.
    apply (xor_cc1_positive _ _ Hpos) in Eb. lia.
  - destruct (xor_cc1_xnor_cc0 l) as [a|] eqn:Ea; [|done].
    destruct (sum_of (cc0 <$> l)) as [s0|] eqn:E0; [|done].
    destruct (sum_of (cc1 <$> l)) as [s1|] eqn:E1; [|done].
    cbn in H. injection H as <- <-.
    apply (sum0_positive _ _ Hpos) in E0. apply (sum1_positive _ _ Hpos) in E1.
    apply (xor_cc1_positive _ _ Hpos) in Ea. lia.
Qed.

End scores.

Section score_theorems.
Import NodeM.

Lemma map_M_get_node_ok c ins nds :
  Forall2 (λ i nd, nodes c !! i = Some nd) ins nds →
  map_M get_node ins c = (Ok nds, c).
Proof.
  induction 1 as [|i nd ins nds Hi _ IH]; [done|].
  cbn [map_M]. erewrite bind_ok by by apply get_node_ok.
  by erewrite bind_ok by exact IH.
Qed.

Lemma map_M_get_node_inv c ins nds c' :
  map_M get_node ins c = (Ok nds, c') →
  Forall2 (λ i nd, nodes c !! i = Some nd) ins nds.
Proof.
  revert nds. induction ins as [|i ins IH]; intros nds H.
  - cbn in H. injection H as <- _. constructor.
  - cbn [map_M] in H. destruct (nodes c !! i) as [nd|] eqn:Ei.
    + erewrite bind_ok in H by by apply get_node_ok.
      pose proof (read_only_map_M get_node ins read_only_get_node c) as Hro.
      destruct (map_M get_node ins c) as [[nds'|e] c1] eqn:E;
        cbn in Hro; subst c1.
      * erewrite bind_ok in H by exact E. injection H as <- <-.
        constructor; [done|]. by apply IH.
      * by erewrite bind_raise in H by exact E.
    + by erewrite bind_raise in H by by apply get_node_none.
Qed.

(** [set_controllability] either raises and changes nothing, or returns the
    pair it stores in the node: (1, 1) for a primary input, the value of the
    formula of the producing gate otherwise. *)
Lemma set_controllability_effect c n :
  (∃ e, set_controllability n c = (Raise e, c)) ∨
  (∃ nd c0 c1, nodes c !! n = Some nd ∧
     set_controllability n c = (Ok (c0, c1), set_node c n (with_cc c0 c1 nd)) ∧
     ((gate_output nd = None ∧ c0 = 1%Z ∧ c1 = 1%Z) ∨
      (∃ g gt nds, gate_output nd = Some g ∧ gate_heap c !! g = Some gt ∧
         Forall2 (λ i nd, nodes c !! i = Some nd) (inputs gt) nds ∧
         formulas (type gt) nds = Ok (c0, c1)))).
Proof.
  unfold set_controllability.
  destruct (nodes c !! n) as [nd|] eqn:E;
    [|left; eexists; by erewrite bind_raise by by apply get_node_none].
  erewrite bind_ok by by apply get_node_ok.
  destruct (gate_output nd) as [g|] eqn:Eo.
  - destruct (gate_heap c !! g) as [gt|] eqn:Eg;
      [|left; eexists; by erewrite bind_raise by by apply get_gate_none].
    erewrite bind_ok by by apply get_gate_ok.
    pose proof (read_only_map_M get_node (inputs gt) read_only_get_node c) as Hro.
    destruct (map_M get_node (inputs gt) c) as [[nds|e] c1] eqn:Em;
      cbn in Hro; subst c1;
      [|left; eexists; by erewrite bind_raise by exact Em].
    erewrite bind_ok by exact Em.
    destruct (formulas (type gt) nds) as [[c0 c1]|e] eqn:Ef.
    + erewrite bind_ok by reflexivity. right. exists nd, c0, c1.
      split; [done|]. split; [done|]. right. exists g, gt, nds.
      repeat split; try done. by eapply map_M_get_node_inv.
    + left. eexists. by erewrite bind_raise by reflexivity.
  - right. exists nd, 1%Z, 1%Z. split; [done|]. split; [done|]. by left.
Qed.

Lemma built_positive_scores c :
  built c → ∀ n nd, nodes c !! n = Some nd → positive_scores nd.
Proof.
  revert c.
  apply (built_invariant
           (λ c, ∀ n nd, nodes c !! n = Some nd → positive_scores nd)).
  - intros n nd H. cbn in H. by rewrite lookup_nil in H.
  - intros c s _ IH n nd H. cbn [nodes] in H.
    apply lookup_snoc_Some in H as [[_ H]|[_ <-]]; [by apply (IH n)|done].
  - intros c ty ins _ IH _ n nd' H. unfold after_init in H. cbn [nodes] in H.
    apply lookup_snoc_Some in H as [[Hlt H]|[_ <-]]; [|done].
    rewrite attach_length in Hlt. apply lookup_lt_is_Some_2 in Hlt as [nd Hnd].
    rewrite (attach_lookup _ _ _ _ _ Hnd) in H. injection H as <-.
    apply (IH n nd Hnd).
  - intros c c' _ IH Hf n nd' H.
    destruct (framed_lookup _ _ _ _ _ Hf H) as (nd & Hnd & E).
    unfold node_static in E. injection E as _ _ E0 E1.
    destruct (IH n nd Hnd) as [H0 H1]. split; intros z Hz.
    + apply H0. congruence.
    + apply H1. congruence.
  - intros c n _ IH m nd' H.
    destruct (set_controllability_effect c n)
      as [[e He]|(nd & c0 & c1 & Hnd & He & Hwhy)]; rewrite He in H; cbn [snd] in H.
    { by apply (IH m). }
    unfold set_node in H. cbn [nodes] in H.
    destruct (decide (n = m)) as [->|Hne];
      [|rewrite list_lookup_insert_ne in H by done; by apply (IH m)].
    rewrite list_lookup_insert_eq in H by by eapply lookup_lt_Some.
    injection H as <-.
    assert ((1 ≤ c0)%Z ∧ (1 ≤ c1)%Z) as [P0 P1].
    { destruct Hwhy as [(_ & -> & ->)|(g & gt & nds & _ & _ & Hnds & Hf)]; [lia|].
      apply (formulas_positive (type gt) nds); [|done].
      apply Forall_forall. intros ndi Hin. apply list_elem_of_In in Hin.
      apply list_elem_of_lookup in Hin as [k Hk].
      destruct (Forall2_lookup_r _ _ _ _ _ Hnds Hk) as (i & _ & Hi).
      by apply (IH i). }
    split; intros z [= <-]; done.
Qed.

(** X13. In a constructed circuit every stored score is at least 1. *)
Theorem scores_are_positive (c : circuit) (n : node_id) (nd : Node) (z : Z) :
  built c → nodes c !! n = Some nd → cc0 nd = Some z ∨ cc1 nd = Some z →
  (1 ≤ z)%Z.
Proof.
  intros Hb Hnd H. destruct (built_positive_scores c Hb n nd Hnd) as [H0 H1].
  destruct H; [by apply H0|by apply H1].
Qed.

Lemma scores_are_positive_witness : (1 ≤ 3)%Z.
Proof.
  apply (scores_are_positive (exec (SetControllability 2) (two_input t_and)) 2
           (mkNode None LX [] (Some 0) (Some 2%Z) (Some 3%Z)) 3).
  - apply (built_script
             [NewNode None; NewNode None; NewGate t_and [0; 1];
              SetControllability 0; SetControllability 1;
              SetControllability 2]); [apply built_empty | reflexivity].
  - reflexivity.
  - by right.
Defined.

End score_theorems.

Section score_formulas.
Import NodeM.

Lemma sum_of_raise xs e : sum_of xs = Raise e → e = TypeError.
Proof.
  destruct (sum_of_cases xs) as [(zs & _ & E)|[_ E]]; rewrite E; [done|].
  by intros [= <-].
Qed.

Lemma add_score_raise comb t p e : add_score comb t p = Raise e → e = TypeError.
Proof.
  destruct p as [idx input]. unfold add_score.
  destruct (bool_decide _).
  - destruct (cc1 input); [done|]. by intros [= <-].
  - destruct (cc0 input); [done|]. by intros [= <-].
Qed.

Lemma xor_cc1_raise l e : xor_cc1_xnor_cc0 l = Raise e → e = TypeError.
Proof.
  unfold xor_cc1_xnor_cc0.
  destruct (for_fold (keep_min l) 1000000%Z (construct_odds (length l)))
    as [m|e'] eqn:E; [done|].
  cbn. intros [= <-].
  eapply (for_fold_raise_inv (λ e, e = TypeError)); [|exact E].
  intros m comb e0. unfold keep_min.
  destruct (term_of comb l) as [t|e1] eqn:Et; [done|].
  cbn. intros [= <-].
  eapply (for_fold_raise_inv (λ e, e = TypeError)); [|exact Et].
  intros t p e2. apply add_score_raise.
Qed.

(** X14. An inverting gate has the scores of its base gate with cc0 and cc1
    exchanged, and raises the same exception where the base gate raises. *)
Theorem inverting_gate_scores (l : list Node) :
  formulas t_nand l = prod_swap <$> formulas t_and l ∧
  formulas t_nor l = prod_swap <$> formulas t_or l ∧
  formulas t_xnor l = prod_swap <$> formulas t_xor l.
Proof.
  split; [|split]; cbn [formulas].
  - destruct (min_of_cases (cc0 <$> l)) as [[E0 Em]|[(z & zs & _ & Em)|[_ Em]]];
      destruct (sum_of_cases (cc1 <$> l)) as [(ys & _ & Es)|[Hn Es]];
      rewrite Em, Es; try done.
    apply fmap_nil_inv in E0. subst l. by apply elem_of_nil in Hn.
  - destruct (min_of_cases (cc1 <$> l)) as [[E0 Em]|[(z & zs & _ & Em)|[_ Em]]];
      destruct (sum_of_cases (cc0 <$> l)) as [(ys & _ & Es)|[Hn Es]];
      rewrite Em, Es; try done.
    apply fmap_nil_inv in E0. subst l. by apply elem_of_nil in Hn.
  - destruct (sum_of (cc0 <$> l)) as [s0|e0] eqn:E0;
      [|apply sum_of_raise in E0 as ->];
      (destruct (sum_of (cc1 <$> l)) as [s1|e1] eqn:E1;
       [|apply sum_of_raise in E1 as ->]);
      (destruct (xor_cc1_xnor_cc0 l) as [b|e] eqn:E;
       [|apply xor_cc1_raise in E as ->]); done.
Qed.

End score_formulas.

Section scored_inputs.
Import NodeM.

Lemma some_fmap_elem (f : Node → option Z) (l : list Node) (zs : list Z) nd :
  f <$> l = Some <$> zs → nd ∈ l → is_Some (f nd).
Proof.
  intros E Hin.
  assert (f nd ∈ Some <$> zs) as H
    by (rewrite <-E; apply list_elem_of_fmap; by exists nd).
  apply list_elem_of_fmap in H as (z & -> & _). by exists z.
Qed.

Lemma sum_of_ok_inv xs s : sum_of xs = Ok s → ∃ zs, xs = Some <$> zs.
Proof.
  destruct (sum_of_cases xs) as [(zs & E & _)|[_ E]]; [by exists zs|].
  by rewrite E.
Qed.

Lemma min_of_ok_inv xs s : min_of xs = Ok s → ∃ zs, xs = Some <$> zs.
Proof.
  destruct (min_of_cases xs) as [[_ E]|[(z & zs & E & _)|[_ E]]];
    [by rewrite E|by exists (z :: zs)|by rewrite E].
Qed.

Lemma min_of_raise xs e : xs ≠ [] → min_of xs = Raise e → e = TypeError.
Proof.
  intros Hne.
  destruct (min_of_cases xs) as [[E _]|[(z & zs & _ & E)|[_ E]]];
    [done|by rewrite E|rewrite E; by intros [= <-]].
Qed.

Lemma scored_both (l : list Node) (zs0 zs1 : list Z) :
  cc0 <$> l = Some <$> zs0 → cc1 <$> l = Some <$> zs1 → Forall has_scores l.
Proof.
  intros E0 E1. apply list.Forall_forall. intros nd Hin. split.
  - by apply (some_fmap_elem cc0 l zs0).
  - by apply (some_fmap_elem cc1 l zs1).
Qed.

Lemma scored_fmap (f : Node → option Z) (l : list Node) :
  Forall (λ nd, is_Some (f nd)) l → ∃ zs, f <$> l = Some <$> zs.
Proof.
  induction 1 as [|nd l [z Hz] _ (zs & IH)]; [by exists []|].
  exists (z :: zs). cbn. by rewrite Hz, IH.
Qed.

Lemma nonempty_fmap (f : Node → option Z) (l : list Node) : 1 ≤ length l → f <$> l ≠ [].
Proof. destruct l; cbn; [lia|done]. Qed.

(** With the arity of its type, a formula has a value exactly when every
    input carries both scores, and raises [TypeError] otherwise. *)
Lemma formulas_ok_scored ty l p :
  arity_ok ty (length l) → formulas ty l = Ok p → Forall has_scores l.
Proof.
  intros Har H. destruct ty; cbn [formulas arity_ok] in *.
  - destruct l as [|i0 [|? ?]]; try done.
    destruct (cc1 i0) as [a|] eqn:E1; [|done].
    destruct (cc0 i0) as [b|] eqn:E0; [|done].
    constructor; [|done]. split; [by rewrite E0|by rewrite E1].
  - destruct (min_of (cc0 <$> l)) as [a|] eqn:Ea; [|done].
    destruct (sum_of (cc1 <$> l)) as [b|] eqn:Eb; [|done].
    apply min_of_ok_inv in Ea as [zs0 E0]. apply sum_of_ok_inv in Eb as [zs1 E1].
    by apply (scored_both l zs0 zs1).
  - destruct (sum_of (cc1 <$> l)) as [b|] eqn:Eb; [|done].
    destruct (min_of (cc0 <$> l)) as [a|] eqn:Ea; [|done].
    apply min_of_ok_inv in Ea as [zs0 E0]. apply sum_of_ok_inv in Eb as [zs1 E1].
    by apply (scored_both l zs0 zs1).
  - destruct (sum_of (cc0 <$> l)) as [a|] eqn:Ea; [|done].
    destruct (min_of (cc1 <$> l)) as [b|] eqn:Eb; [|done].
    apply sum_of_ok_inv in Ea as [zs0 E0]. apply min_of_ok_inv in Eb as [zs1 E1].
    by apply (scored_both l zs0 zs1).
  - destruct (min_of (cc1 <$> l)) as [b|] eqn:Eb; [|done].
    destruct (sum_of (cc0 <$> l)) as [a|] eqn:Ea; [|done].
    apply sum_of_ok_inv in Ea as [zs0 E0]. apply min_of_ok_inv in Eb as [zs1 E1].
    by apply (scored_both l zs0 zs1).
  - destruct (sum_of (cc0 <$> l)) as [a|] eqn:Ea; [|done].
    destruct (sum_of (cc1 <$> l)) as [b|] eqn:Eb; [|done].
    apply sum_of_ok_inv in Ea as [zs0 E0]. apply sum_of_ok_inv in Eb as [zs1 E1].
    by apply (scored_both l zs0 zs1).
  - destruct (xor_cc1_xnor_cc0 l) as [x|]; [|done].
    destruct (sum_of (cc0 <$> l)) as [a|] eqn:Ea; [|done].
    destruct (sum_of (cc1 <$> l)) as [b|] eqn:Eb; [|done].
    apply sum_of_ok_inv in Ea as [zs0 E0]. apply sum_of_ok_inv in Eb as [zs1 E1].
    by apply (scored_both l zs0 zs1).
Qed.

Lemma formulas_raise_type ty l e :
  arity_ok ty (length l) → formulas ty l = Raise e → e = TypeError.
Proof.
  intros Har H.
  assert (1 ≤ length l) as Hlen by (destruct ty; cbn in Har; lia).
  pose proof (min_of_raise (cc0 <$> l)) as Hm0.
  pose proof (min_of_raise (cc1 <$> l)) as Hm1.
  pose proof (nonempty_fmap cc0 l Hlen) as Hn0.
  pose proof (nonempty_fmap cc1 l Hlen) as Hn1.
  destruct ty; cbn [formulas] in H.
  - destruct l as [|i0 ?]; [cbn in Hlen; lia|].
    destruct (cc1 i0); [|by injection H as <-].
    destruct (cc0 i0); [done|by injection H as <-].
  - destruct (min_of (cc0 <$> l)) as [a|e0] eqn:Ea;
      [|injection H as <-; by apply Hm0].
    destruct (sum_of (cc1 <$> l)) as [b|e1] eqn:Eb; [done|].
    injection H as <-. by apply sum_of_raise in Eb.
  - destruct (sum_of (cc1 <$> l)) as [b|e1] eqn:Eb;
      [|injection H as <-; by apply sum_of_raise in Eb].
    destruct (min_of (cc0 <$> l)) as [a|e0] eqn:Ea; [done|].
    injection H as <-. by apply Hm0.
  - destruct (sum_of (cc0 <$> l)) as [b|e1] eqn:Eb;
      [|injection H as <-; by apply sum_of_raise in Eb].
    destruct (min_of (cc1 <$> l)) as [a|e0] eqn:Ea; [done|].
    injection H as <-. by apply Hm1.
  - destruct (min_of (cc1 <$> l)) as [a|e0] eqn:Ea;
      [|injection H as <-; by apply Hm1].
    destruct (sum_of (cc0 <$> l)) as [b|e1] eqn:Eb; [done|].
    injection H as <-. by apply sum_of_raise in Eb.
  - destruct (sum_of (cc0 <$> l)) as [a|e0] eqn:Ea;
      [|injection H as <-; by apply sum_of_raise in Ea].
    destruct (sum_of (cc1 <$> l)) as [b|e1] eqn:Eb;
      [|injection H as <-; by apply sum_of_raise in Eb].
    destruct (xor_cc1_xnor_cc0 l) as [x|e2] eqn:Ex; [done|].
    injection H as <-. by apply xor_cc1_raise in Ex.
  - destruct (xor_cc1_xnor_cc0 l) as [x|e2] eqn:Ex;
      [|injection H as <-; by apply xor_cc1_raise in Ex].
    destruct (sum_of (cc0 <$> l)) as [a|e0] eqn:Ea;
      [|injection H as <-; by apply sum_of_raise in Ea].
    destruct (sum_of (cc1 <$> l)) as [b|e1] eqn:Eb; [done|].
    injection H as <-. by apply sum_of_raise in Eb.
Qed.

Lemma sum_of_scored (f : Node → option Z) l :
  Forall (λ nd, is_Some (f nd)) l → ∃ s, sum_of (f <$> l) = Ok s.
Proof.
  intros H. destruct (scored_fmap f l H) as [zs E].
  destruct (sum_of_cases (f <$> l)) as [(ys & _ & Es)|[Hn _]]; [by eexists|].
  rewrite E in Hn. by apply list_elem_of_fmap in Hn as (z & ? & _).
Qed.

Lemma min_of_scored (f : Node → option Z) l :
  1 ≤ length l → Forall (λ nd, is_Some (f nd)) l → ∃ s, min_of (f <$> l) = Ok s.
Proof.
  intros Hlen H. destruct (scored_fmap f l H) as [zs E].
  destruct (min_of_cases (f <$> l)) as [[E0 _]|[(y & ys & _ & Es)|[Hn _]]].
  - by apply nonempty_fmap in E0.
  - by eexists.
  - rewrite E in Hn. by apply list_elem_of_fmap in Hn as (z & ? & _).
Qed.

Lemma formulas_scored ty l :
  arity_ok ty (length l) → Forall has_scores l → ∃ p, formulas ty l = Ok p.
Proof.
  intros Har H.
  assert (1 ≤ length l) as Hlen by (destruct ty; cbn in Har; lia).
  assert (Forall (λ nd, is_Some (cc0 nd)) l) as H0
    by (eapply list.Forall_impl; [exact H|]; by intros nd [? _]).
  assert (Forall (λ nd, is_Some (cc1 nd)) l) as H1
    by (eapply list.Forall_impl; [exact H|]; by intros nd [_ ?]).
  destruct (sum_of_scored cc0 l H0) as [s0 Es0].
  destruct (sum_of_scored cc1 l H1) as [s1 Es1].
  destruct (min_of_scored cc0 l Hlen H0) as [m0 Em0].
  destruct (min_of_scored cc1 l Hlen H1) as [m1 Em1].
  assert (∃ x, xor_cc1_xnor_cc0 l = Ok x) as [x Ex].
  { unfold xor_cc1_xnor_cc0. rewrite keep_min_fold by done. by eexists. }
  destruct ty; cbn [formulas]; rewrite ?Es0, ?Es1, ?Em0, ?Em1, ?Ex;
    try by eexists.
  destruct l as [|i0 ?]; [cbn in Hlen; lia|].
  inversion_clear H as [|? ? [[a Ha] [b Hb]] _]. rewrite Ha, Hb. by eexists.
Qed.

(** X15. Scores must be computed in dependency order: with the arity of its type,
    the score of a gate output is computed exactly when every input of the
    gate has been scored; otherwise the call raises [TypeError] and leaves
    the circuit as it was. *)
Theorem set_controllability_needs_scored_inputs
    (c : circuit) (n : node_id) (nd : Node) (g : gate_id) (gt : Gate) :
  built c → nodes c !! n = Some nd → gate_output nd = Some g →
  gate_heap c !! g = Some gt → arity_ok (type gt) (length (inputs gt)) →
  ((∀ i ndi, i ∈ inputs gt → nodes c !! i = Some ndi → has_scores ndi) →
     ∃ p, (set_controllability n c).1 = Ok p) ∧
  (∀ i ndi, i ∈ inputs gt → nodes c !! i = Some ndi → ¬ has_scores ndi →
     set_controllability n c = (Raise TypeError, c)).
Proof.
  intros Hb Hnd Hout Hgt Har. pose proof (built_wf c Hb) as Hwf.
  assert (∃ nds, Forall2 (λ i nd, nodes c !! i = Some nd) (inputs gt) nds)
    as [nds Hnds].
  { assert (∀ i, i ∈ inputs gt → i < length (nodes c)) as Hex
      by (intros i; by apply (gate_input_exists c g gt)).
    clear Har Hgt. induction (inputs gt) as [|i ins IH]; [by exists []|].
    destruct IH as [nds IH]; [intros j Hj; apply Hex; by right|].
    destruct (lookup_lt_is_Some_2 (nodes c) i) as [ndi Hi];
      [apply Hex; by left|].
    exists (ndi :: nds). by constructor. }
  pose proof (list.Forall2_length _ _ _ Hnds) as Hlen.
  assert (set_controllability n c =
          match formulas (type gt) nds with
          | Ok (c0, c1) => (Ok (c0, c1), set_node c n (with_cc c0 c1 nd))
          | Raise e => (Raise e, c)
          end) as Hrun.
  { unfold set_controllability.
    erewrite bind_ok by by apply get_node_ok. rewrite Hout.
    erewrite bind_ok by by apply get_gate_ok.
    erewrite bind_ok by by apply map_M_get_node_ok.
    destruct (formulas (type gt) nds) as [[c0 c1]|e] eqn:Ef.
    - by erewrite bind_ok by reflexivity.
    - by erewrite bind_raise by reflexivity. }
  rewrite Hlen in Har. split.
  - intros Hsc.
    destruct (formulas_scored (type gt) nds Har) as [[c0 c1] Ef].
    + apply list.Forall_forall. intros ndi Hin.
      apply list_elem_of_lookup in Hin as [k Hk].
      destruct (Forall2_lookup_r _ _ _ _ _ Hnds Hk) as (i & Hi & Hlook).
      apply (Hsc i); [|done]. by eapply list_elem_of_lookup_2.
    + rewrite Hrun, Ef. by eexists.
  - intros i ndi Hi Hlook Hno. rewrite Hrun.
    destruct (formulas (type gt) nds) as [[c0 c1]|e] eqn:Ef.
    + exfalso. apply Hno.
      pose proof (formulas_ok_scored _ _ _ Har Ef) as Hall.
      apply list_elem_of_lookup in Hi as [k Hk].
      destruct (Forall2_lookup_l _ _ _ _ _ Hnds Hk) as (ndi' & Hk' & Hlook').
      rewrite Hlook in Hlook'. injection Hlook' as <-.
      eapply list.Forall_forall; [exact Hall|]. by eapply list_elem_of_lookup_2.
    + by rewrite (formulas_raise_type _ _ _ Har Ef).
Qed.

Definition unscored_and : circuit :=
  run_script [NewNode None; NewNode None; NewGate t_and [0; 1]] empty_circuit.

Lemma set_controllability_needs_scored_inputs_witness :
  NodeM.set_controllability 2 unscored_and = (Raise TypeError, unscored_and).
Proof.
  assert (built unscored_and) as Hb
    by (apply built_script; [apply built_empty | reflexivity]).
  refine (proj2 (set_controllability_needs_scored_inputs unscored_and 2
            (mkNode None LX [] (Some 0) None None) 0
            (mkGate 0 t_and [0; 1] 2 1) Hb eq_refl eq_refl eq_refl _) 0
            (mkNode None LX [0] None None None) _ eq_refl _).
  - cbn. lia.
  - by left.
  - intros [[z Hz] _]. discriminate Hz.
Defined.

End scored_inputs.

Section score_storage.
Import NodeM.

(** X16. A successful [set_controllability] stores the pair it returns in the
    node and touches nothing else; calling it again gives the same pair and
    changes nothing. *)
Theorem set_controllability_idempotent
    (c c' : circuit) (n : node_id) (p : Z * Z) :
  built c → set_controllability n c = (Ok p, c') →
  (∃ nd, nodes c !! n = Some nd ∧
     nodes c' !! n = Some (with_cc p.1 p.2 nd)) ∧
  gate_heap c' = gate_heap c ∧
  (∀ m, m ≠ n → nodes c' !! m = nodes c !! m) ∧
  set_controllability n c' = (Ok p, c').
Proof.
  intros Hb Hrun. pose proof (built_wf c Hb) as Hwf.
  destruct (set_controllability_effect c n)
    as [[e He]|(nd & c0 & c1 & Hnd & He & Hwhy)]; rewrite He in Hrun; [done|].
  injection Hrun as <- <-. cbn [fst snd].
  split; [exists nd; split; [done|by apply (set_node_lookup c n nd)]|].
  split; [done|]. split.
  { intros m Hm. unfold set_node. cbn [nodes].
    by apply list_lookup_insert_ne. }
  pose proof (set_node_lookup c n nd (with_cc c0 c1 nd) Hnd) as Hnd'.
  unfold set_controllability.
  erewrite bind_ok by by apply get_node_ok.
  destruct Hwhy as [(Hpi & -> & ->)|(g & gt & nds & Hout & Hgt & Hnds & Hf)].
  - cbn [gate_output with_cc]. rewrite Hpi.
    erewrite bind_ok by reflexivity.
    unfold mret, M_ret. f_equal. apply set_node_set_node.
  - cbn [gate_output with_cc]. rewrite Hout.
    erewrite bind_ok by by apply get_gate_ok.
    assert (Forall2 (λ i ndi, nodes (set_node c n (with_cc c0 c1 nd)) !! i
                              = Some ndi) (inputs gt) nds) as Hnds'.
    { destruct (wf_producer c Hwf n nd g Hnd Hout) as (gt' & Hgt' & Hown).
      rewrite Hgt in Hgt'. injection Hgt' as <-.
      destruct (wf_gate c Hwf g gt Hgt) as [_ Hlt].
      rewrite Forall_forall in Hlt.
      assert (∀ i, i ∈ inputs gt → n ≠ i) as Hne
        by (intros i Hin; apply list_elem_of_In, Hlt in Hin; lia).
      clear -Hnds Hne. induction Hnds as [|i ndi ins nds Hi _ IH]; [done|].
      constructor; [|apply IH; intros j Hj; apply Hne; by right].
      unfold set_node. cbn [nodes].
      rewrite list_lookup_insert_ne; [done|]. apply Hne. by left. }
    erewrite bind_ok by by apply map_M_get_node_ok.
    rewrite Hf. erewrite bind_ok by reflexivity. cbv beta iota.
    erewrite (bind_ok (put_node n _)) by reflexivity.
    unfold mret, M_ret. f_equal. apply set_node_set_node.
Qed.

Lemma set_controllability_idempotent_witness :
  NodeM.set_controllability 2 (exec (SetControllability 2) (two_input t_and))
    = (Ok (2, 3)%Z, exec (SetControllability 2) (two_input t_and)).
Proof.
  assert (built (two_input t_and)) as Hb
    by (apply built_script; [apply built_empty | reflexivity]).
  exact (proj2 (proj2 (proj2
    (set_controllability_idempotent (two_input t_and)
       (exec (SetControllability 2) (two_input t_and)) 2 (2, 3)%Z
       Hb eq_refl)))).
Defined.

End score_storage.

Section parity_minimum.
Import NodeM.

(** X17. For scored inputs, [xor_cc1_xnor_cc0] is one more than the least cost of
    an odd-sized subset of the inputs (cc1 of the inputs in the subset plus
    cc0 of the others), with that least cost cut off at 1000000. *)
Theorem xor_cc1_is_capped_parity_min (gate_inputs : list Node) (m : Z) :
  Forall has_scores gate_inputs → is_parity_min (plain <$> gate_inputs) m →
  xor_cc1_xnor_cc0 gate_inputs = Ok (Z.min m 1000000 + 1)%Z.
Proof.
  intros H Hmin. destruct (Z.lt_ge_cases m 1000000) as [Hlt|Hge].
  - rewrite Z.min_l by lia. by apply xor_cc1_parity_min.
  - rewrite Z.min_r by lia. apply xor_cc1_capped; [done|].
    intros mask Hodd. destruct Hmin as [_ Hleast].
    rewrite length_fmap in Hleast. specialize (Hleast mask Hodd). lia.
Qed.

Lemma xor_cc1_is_capped_parity_min_witness :
  xor_cc1_xnor_cc0 [mkNode None LX [] None (Some 4%Z) (Some 2%Z);
                    mkNode None LX [] None (Some 3%Z) (Some 7%Z)]
    = Ok 6%Z.
Proof.
  apply (xor_cc1_is_capped_parity_min
           [mkNode None LX [] None (Some 4%Z) (Some 2%Z);
            mkNode None LX [] None (Some 3%Z) (Some 7%Z)] 5).
  - repeat constructor; by eexists.
  - split.
    + exists [true; false]. by repeat split.
    + intros [|a [|b [|? ?]]] [Hlen Hodd]; try done.
      destruct a, b; cbn in *; try done; lia.
Defined.

End parity_minimum.

Section selection.





End selection.

Section gate_operations.

(** The value a node holds; X stands in for a handle that names no node. *)
Definition state_of (c : circuit) (n : node_id) : value :=
  default LX (state <$> nodes c !! n).

(** What [set_state] stores for a requested value: the fault effect when the
    value excites the node's fault, the value itself otherwise. *)
Definition as_stored (nd : Node) (v : value) : value :=
  if bool_decide (stuck_at nd = Some 0%Z) && bool_decide (v = L1) then LD
  else if bool_decide (stuck_at nd = Some 1%Z) && bool_decide (v = L0) then LDbar
  else v.

Lemma read_states_run c ns :
  existing c ns → GateM.read_states ns c = (Ok (state_of c <$> ns), c).
Proof.
  unfold GateM.read_states, existing.
  induction ns as [|n ns IH]; intros H; [done|].
  inversion_clear H as [|? ? Hn H'].
  apply lookup_lt_is_Some_2 in Hn as [nd Hnd].
  cbn [map_M]. erewrite bind_ok; last first.
  { erewrite bind_ok by by apply get_node_ok. reflexivity. }
  erewrite bind_ok by by apply IH.
  rewrite fmap_cons.
  assert (state_of c n = state nd) as -> by (unfold state_of; by rewrite Hnd).
  done.
Qed.

Lemma built_existing c g gt :
  built c → gate_heap c !! g = Some gt → existing c (inputs gt).
Proof.
  intros Hb Hgt. apply list.Forall_forall. intros i Hi.
  apply (gate_input_exists c g gt); [by apply built_wf|done|done].
Qed.

(** X19. [propagate] on a constructed circuit: the gate function is applied to
    the values of the inputs; an exception of the gate function leaves the
    circuit as it was, and so does a fault effect arriving at a faulty
    output, which raises [ValueError]; otherwise the output stores the value,
    turned into D or ~D where it excites the output's own fault, and that
    stored value is returned. *)
Theorem propagate_result (c : circuit) (g : gate_id) (gt : Gate) (nd : Node) :
  built c → gate_heap c !! g = Some gt → nodes c !! output gt = Some nd →
  GateM.propagate g c =
    match GateM._propagate (type gt) (state_of c <$> inputs gt) with
    | Raise e => (Raise e, c)
    | Ok v =>
        if NodeM.is_faulty nd && py_in v [LD; LDbar] then (Raise ValueError, c)
        else (Ok (as_stored nd v),
              store_state c (output gt) nd (as_stored nd v))
    end.
Proof.
  intros Hb Hgt Hnd. unfold GateM.propagate.
  erewrite bind_ok by by apply get_gate_ok.
  erewrite bind_ok by by eapply read_states_run, built_existing.
  destruct (GateM._propagate (type gt) (state_of c <$> inputs gt))
    as [v|e] eqn:Ev; [|by erewrite bind_raise by reflexivity].
  erewrite bind_ok by reflexivity.
  pose proof (set_state_run c (output gt) nd v Hnd) as Hset.
  destruct (NodeM.is_faulty nd && py_in v [LD; LDbar]) eqn:Ef.
  { by erewrite bind_raise by exact Hset. }
  assert (NodeM.set_state (output gt) v c
          = (Ok tt, store_state c (output gt) nd (as_stored nd v))) as Hset'.
  { rewrite Hset. unfold as_stored. by repeat case_match. }
  erewrite bind_ok by exact Hset'.
  erewrite (bind_ok _ _ _ (with_state (as_stored nd v) nd)); [reflexivity|].
  apply get_node_ok. unfold store_state. cbn [nodes].
  apply list_lookup_insert_eq. by eapply lookup_lt_Some.
Qed.

Lemma propagate_result_witness :
  GateM.propagate 0 and_demo
    = (Ok LD, store_state and_demo 2 (mkNode None LX [] (Some 0) None None) LD).
Proof.
  assert (built and_demo) as Hb
    by (apply built_script; [apply built_empty | reflexivity]).
  exact (propagate_result and_demo 0 (mkGate 0 t_and [0; 1] 2 1)
           (mkNode None LX [] (Some 0) None None) Hb eq_refl eq_refl).
Defined.

Lemma for_each_reset c ns :
  existing c ns →
  ∃ c', for_each NodeM.reset ns c = (Ok tt, c') ∧
    gate_heap c' = gate_heap c ∧ length (nodes c') = length (nodes c) ∧
    ∀ n nd, nodes c !! n = Some nd →
      nodes c' !! n = Some (if bool_decide (n ∈ ns) then with_state LX nd else nd).
Proof.
  unfold existing. revert c. induction ns as [|i ns IH]; intros c H.
  - exists c. by repeat split.
  - inversion_clear H as [|? ? Hi H'].
    apply lookup_lt_is_Some_2 in Hi as [ndi Hndi].
    destruct (IH (set_node c i (with_state LX ndi))) as (c' & Hrun & Hg & Hl & Hn).
    { unfold set_node. cbn [nodes]. by rewrite length_insert. }
    exists c'. split.
    { cbn [for_each]. unfold NodeM.reset at 1.
      erewrite bind_ok by by apply update_run. exact Hrun. }
    split; [done|]. split.
    { rewrite Hl. unfold set_node. cbn [nodes]. by rewrite length_insert. }
    intros n nd Hnd. destruct (decide (n = i)) as [->|Hne].
    + rewrite Hndi in Hnd. injection Hnd as <-.
      rewrite (Hn i (with_state LX ndi)) by by apply (set_node_lookup c i ndi).
      rewrite (bool_decide_eq_true_2 (i ∈ i :: ns)) by by left.
      by destruct (bool_decide (i ∈ ns)).
    + rewrite (Hn n nd);
        [|unfold set_node; cbn [nodes]; by rewrite list_lookup_insert_ne].
      rewrite (bool_decide_ext (n ∈ i :: ns) (n ∈ ns)); [done|].
      rewrite elem_of_cons. split; [by intros [? | ?]|by right].
Qed.

(** X20. [Gate.reset] on a constructed circuit returns and sets the value of the
    output and of every input to X; the faults of these nodes stay attached,
    and no other node and no gate changes. *)
Theorem gate_reset_clears (c : circuit) (g : gate_id) (gt : Gate) :
  built c → gate_heap c !! g = Some gt →
  ∃ c', GateM.reset g c = (Ok tt, c') ∧
    gate_heap c' = gate_heap c ∧ length (nodes c') = length (nodes c) ∧
    ∀ n nd, nodes c !! n = Some nd →
      nodes c' !! n = Some (if bool_decide (n ∈ output gt :: inputs gt)
                            then with_state LX nd else nd).
Proof.
  intros Hb Hgt. pose proof (built_wf c Hb) as Hwf.
  destruct (for_each_reset c (inputs gt) (built_existing c g gt Hb Hgt))
    as (c1 & Hrun & Hg & Hl & Hn).
  destruct (wf_gate c Hwf g gt Hgt) as [Hout _].
  apply lookup_lt_is_Some_2 in Hout as [ndo Hndo].
  pose proof (Hn _ _ Hndo) as Hndo1.
  exists (set_node c1 (output gt)
            (with_state LX (if bool_decide (output gt ∈ inputs gt)
                            then with_state LX ndo else ndo))).
  split.
  { unfold GateM.reset. erewrite bind_ok by by apply get_gate_ok.
    erewrite bind_ok by exact Hrun. unfold NodeM.reset.
    by apply update_run. }
  split; [done|]. split.
  { unfold set_node. cbn [nodes]. by rewrite length_insert. }
  intros n nd Hnd. destruct (decide (n = output gt)) as [->|Hne].
  - rewrite Hndo in Hnd. injection Hnd as <-.
    rewrite (set_node_lookup c1 _ _ _ Hndo1).
    rewrite (bool_decide_eq_true_2 (output gt ∈ output gt :: inputs gt))
      by by left.
    by destruct (bool_decide (output gt ∈ inputs gt)).
  - unfold set_node. cbn [nodes].
    rewrite list_lookup_insert_ne by done. rewrite (Hn n nd Hnd).
    rewrite (bool_decide_ext (n ∈ output gt :: inputs gt) (n ∈ inputs gt));
      [done|].
    rewrite elem_of_cons. split; [by intros [? | ?]|by right].
Qed.

Lemma gate_reset_clears_witness :
  ∃ c', GateM.reset 0 and_demo = (Ok tt, c') ∧
    gate_heap c' = gate_heap and_demo ∧
    length (nodes c') = length (nodes and_demo) ∧
    ∀ n nd, nodes and_demo !! n = Some nd →
      nodes c' !! n = Some (if bool_decide (n ∈ [2; 0; 1])
                            then with_state LX nd else nd).
Proof.
  assert (built and_demo) as Hb
    by (apply built_script; [apply built_empty | reflexivity]).
  exact (gate_reset_clears and_demo 0 (mkGate 0 t_and [0; 1] 2 1) Hb eq_refl).
Defined.

(** X21. [is_on_d_frontier] on a constructed circuit never raises and changes
    nothing; it answers [True] exactly when the output holds X and some
    input holds D or ~D. *)
Theorem d_frontier_test (c : circuit) (g : gate_id) (gt : Gate) :
  built c → gate_heap c !! g = Some gt →
  ∃ b, GateM.is_on_d_frontier g c = (Ok b, c) ∧
    (b = true ↔ state_of c (output gt) = LX ∧
       ∃ i, i ∈ inputs gt ∧ (state_of c i = LD ∨ state_of c i = LDbar)).
Proof.
  intros Hb Hgt. pose proof (built_wf c Hb) as Hwf.
  destruct (wf_gate c Hwf g gt Hgt) as [Hout _].
  apply lookup_lt_is_Some_2 in Hout as [ndo Hndo].
  unfold GateM.is_on_d_frontier.
  erewrite bind_ok by by apply get_gate_ok.
  erewrite bind_ok by by apply get_node_ok.
  unfold state_of at 1. rewrite Hndo. cbn [fmap option_fmap option_map default].
  destruct (decide (state ndo = LX)) as [E|E].
  - rewrite bool_decide_eq_true_2 by done. cbn [negb].
    erewrite bind_ok by by eapply read_states_run, built_existing.
    eexists. split; [reflexivity|].
    rewrite orb_true_iff, !py_in_true, !list_elem_of_fmap. split.
    + intros [(i & Hi & Hin)|(i & Hi & Hin)];
        (split; [done|]); exists i; (split; [done|]); [by left|by right].
    + intros [_ (i & Hin & [Hi | Hi])]; [left|right]; by exists i.
  - rewrite bool_decide_eq_false_2 by done. cbn [negb].
    exists false. split; [done|]. split; [done|by intros [? _]].
Qed.

Lemma d_frontier_test_witness :
  ∃ b, GateM.is_on_d_frontier 0 and_demo = (Ok b, and_demo) ∧
    (b = true ↔ state_of and_demo 2 = LX ∧
       ∃ i, i ∈ [0; 1] ∧ (state_of and_demo i = LD ∨ state_of and_demo i = LDbar)).
Proof.
  assert (built and_demo) as Hb
    by (apply built_script; [apply built_empty | reflexivity]).
  exact (d_frontier_test and_demo 0 (mkGate 0 t_and [0; 1] 2 1) Hb eq_refl).
Defined.

Lemma assigned_loop c ins acc :
  existing c ins →
  for_fold (λ acc node,
      nd ← get_node node;
      mret (if negb (bool_decide (state nd = LX)) then acc ++ [node] else acc))
    acc ins c = (Ok (acc ++ filter (λ n, ¬ x_valued c n) ins), c).
Proof.
  unfold existing. revert acc. induction ins as [|n ins IH]; intros acc H.
  - by rewrite app_nil_r.
  - inversion_clear H as [|? ? Hn H']. apply lookup_lt_is_Some_2 in Hn as [nd Hnd].
    cbn [for_fold]. rewrite filter_cons.
    erewrite bind_ok; last first.
    { erewrite bind_ok by by apply get_node_ok. reflexivity. }
    rewrite IH by done.
    destruct (decide (¬ x_valued c n)) as [E|E];
      unfold x_valued in E; rewrite Hnd in E; cbn in E.
    + rewrite bool_decide_eq_false_2 by congruence. cbn [negb].
      by rewrite <-app_assoc.
    + apply dec_stable in E. injection E as E.
      rewrite bool_decide_eq_true_2 by done. done.
Qed.

(** X22. On a constructed circuit the unassigned and the assigned inputs of a
    gate split its input list: each keeps the order of the inputs, the first
    holds the inputs with value X, the second the others, and together they
    are the inputs, occurrence for occurrence. *)
Theorem inputs_partition (c : circuit) (g : gate_id) (gt : Gate) :
  built c → gate_heap c !! g = Some gt →
  ∃ xs ys, GateM.get_unassigned_inputs g c = (Ok xs, c) ∧
    GateM.get_assigned_inputs g c = (Ok ys, c) ∧
    xs ++ ys ≡ₚ inputs gt ∧ xs `sublist_of` inputs gt ∧ ys `sublist_of` inputs gt ∧
    (∀ n, n ∈ xs ↔ n ∈ inputs gt ∧ state_of c n = LX) ∧
    (∀ n, n ∈ ys ↔ n ∈ inputs gt ∧ state_of c n ≠ LX).
Proof.
  intros Hb Hgt. pose proof (built_existing c g gt Hb Hgt) as Hex.
  assert (∀ n, n ∈ inputs gt → (x_valued c n ↔ state_of c n = LX)) as Hx.
  { intros n Hn. unfold existing in Hex. rewrite list.Forall_forall in Hex.
    apply Hex, lookup_lt_is_Some_2 in Hn as [nd Hnd].
    unfold x_valued, state_of. rewrite Hnd. cbn.
    split; [by intros [= ->]|by intros ->]. }
  exists (filter (x_valued c) (inputs gt)),
         (filter (λ n, ¬ x_valued c n) (inputs gt)).
  split.
  { unfold GateM.get_unassigned_inputs.
    erewrite bind_ok by by apply get_gate_ok. by apply unassigned_loop. }
  split.
  { unfold GateM.get_assigned_inputs.
    erewrite bind_ok by by apply get_gate_ok. by apply assigned_loop. }
  split; [apply filter_app_complement|].
  split; [apply sublist_filter|]. split; [apply sublist_filter|].
  split; intros n; rewrite list_elem_of_filter; specialize (Hx n); tauto.
Qed.

Lemma inputs_partition_witness :
  ∃ xs ys, GateM.get_unassigned_inputs 0 and_demo = (Ok xs, and_demo) ∧
    GateM.get_assigned_inputs 0 and_demo = (Ok ys, and_demo) ∧
    xs ++ ys ≡ₚ [0; 1] ∧ xs `sublist_of` [0; 1] ∧ ys `sublist_of` [0; 1] ∧
    (∀ n, n ∈ xs ↔ n ∈ [0; 1] ∧ state_of and_demo n = LX) ∧
    (∀ n, n ∈ ys ↔ n ∈ [0; 1] ∧ state_of and_demo n ≠ LX).
Proof.
  assert (built and_demo) as Hb
    by (apply built_script; [apply built_empty | reflexivity]).
  exact (inputs_partition and_demo 0 (mkGate 0 t_and [0; 1] 2 1) Hb eq_refl).
Defined.

End gate_operations.

Section primary_outputs.

Lemma occurrences_zero n gt : occurrences n gt = 0 ↔ n ∉ inputs gt.
Proof.
  unfold occurrences. induction (inputs gt) as [|i ins IH].
  - split; [intros _ H; by apply elem_of_nil in H|done].
  - rewrite filter_cons, not_elem_of_cons.
    destruct (decide (i = n)) as [->|Hne]; cbn [length].
    + split; [done|by intros [? _]].
    + rewrite IH. split; [by split|by intros [_ ?]].
Qed.

Lemma sum_list_with_zero {A} (f : A → nat) l :
  sum_list_with f l = 0 ↔ ∀ x, x ∈ l → f x = 0.
Proof.
  induction l as [|x l IH]; cbn [sum_list_with].
  - split; [intros _ y H; by apply elem_of_nil in H|done].
  - split.
    + intros H y Hy. apply elem_of_cons in Hy as [-> | Hy]; [lia|].
      apply IH; [lia|done].
    + intros H. rewrite (H x) by by left.
      apply IH. intros y Hy. apply H. by right.
Qed.

(** X23. In a constructed circuit [is_po] holds of a node exactly when no gate
    reads it, and it holds of the node created last: a circuit with a node
    has a primary output. *)
Theorem is_po_no_reader (c : circuit) (n : node_id) (nd : Node) :
  built c → nodes c !! n = Some nd →
  (NodeM.is_po nd = true ↔
     ∀ g gt, gate_heap c !! g = Some gt → n ∉ inputs gt) ∧
  (S n = length (nodes c) → NodeM.is_po nd = true).
Proof.
  intros Hb Hn. pose proof (built_wf c Hb) as Hwf.
  assert (NodeM.is_po nd = true ↔
            ∀ g gt, gate_heap c !! g = Some gt → n ∉ inputs gt) as Hiff.
  { unfold NodeM.is_po. rewrite Nat.eqb_eq.
    rewrite (wf_consumers c Hwf n nd Hn). unfold consumer_entries.
    rewrite entries_from_length, sum_list_with_zero. split.
    - intros H g gt Hgt. apply occurrences_zero, H.
      by eapply list_elem_of_lookup_2.
    - intros H gt Hgt. apply list_elem_of_lookup in Hgt as [g Hg].
      apply occurrences_zero. by apply (H g). }
  split; [done|]. intros Hlast. apply Hiff. intros g gt Hgt Hin.
  destruct (wf_gate c Hwf g gt Hgt) as [Hout Hlt].
  rewrite Forall_forall in Hlt. apply list_elem_of_In, Hlt in Hin. lia.
Qed.

Lemma is_po_no_reader_witness :
  NodeM.is_po (mkNode None LX [] (Some 1) None None) = true.
Proof.
  assert (built chain_demo) as Hb
    by (apply built_script; [apply built_empty | reflexivity]).
  exact (proj2 (is_po_no_reader chain_demo 3
                  (mkNode None LX [] (Some 1) None None) Hb eq_refl) eq_refl).
Defined.

End primary_outputs.

Section names.

(** The number a name stands for: its letters are the digits 1 to 26 of a
    base-26 numeral without zero. *)
Definition letter_value (ch : ascii) : Z := (Z.of_nat (nat_of_ascii ch) - 64)%Z.

Definition name_value (s : list ascii) : Z :=
  foldl (λ acc ch, acc * 26 + letter_value ch)%Z 0%Z s.

Definition upper_case (ch : ascii) : Prop :=
  65 ≤ nat_of_ascii ch ≤ 90.

Lemma chr_letter r : (0 ≤ r < 26)%Z →
  letter_value (chr (r + 65)) = (r + 1)%Z ∧ upper_case (chr (r + 65)).
Proof.
  intros Hr. unfold letter_value, upper_case, chr.
  rewrite nat_ascii_embedding by lia. lia.
Qed.

Lemma name_value_snoc s ch :
  name_value (s ++ [ch]) = (name_value s * 26 + letter_value ch)%Z.
Proof. unfold name_value. by rewrite foldl_app. Qed.

Lemma generate_name_value fuel count s :
  generate_name fuel count = Some s →
  (0 ≤ count)%Z ∧ name_value s = count ∧ Forall upper_case s.
Proof.
  revert count s. induction fuel as [|fuel IH]; intros count s H; [done|].
  cbn [generate_name] in H. destruct (Z.eqb_spec count 0) as [->|Hne].
  - injection H as <-. by repeat split.
  - destruct (generate_name fuel ((count - 1) / 26)) as [s'|] eqn:E; [|done].
    cbn in H. injection H as <-.
    destruct (IH _ _ E) as (Hq & Hv & Hup).
    pose proof (Z.mod_pos_bound (count - 1) 26 ltac:(lia)) as Hr.
    pose proof (Z.div_mod (count - 1) 26 ltac:(lia)) as Hdm.
    destruct (chr_letter _ Hr) as [Hl Hu].
    split; [lia|]. split.
    + rewrite name_value_snoc, Hv, Hl. lia.
    + apply Forall_app. split; [done|]. by constructor.
Qed.

Lemma generate_name_returns fuel count :
  (0 ≤ count)%Z → Z.to_nat count < fuel → is_Some (generate_name fuel count).
Proof.
  revert count. induction fuel as [|fuel IH]; intros count H0 Hf; [lia|].
  cbn [generate_name]. destruct (Z.eqb_spec count 0) as [->|Hne]; [done|].
  assert (0 ≤ (count - 1) / 26 < count)%Z as Hq.
  { split; [apply Z.div_pos; lia|].
    apply Z.div_lt_upper_bound; lia. }
  destruct (IH ((count - 1) / 26)%Z) as [s E]; [lia|lia|].
  rewrite E. by eexists.
Qed.

Lemma generate_name_more_fuel fuel fuel' count s :
  generate_name fuel count = Some s → fuel ≤ fuel' →
  generate_name fuel' count = Some s.
Proof.
  revert fuel' count s.
  induction fuel as [|fuel IH]; intros fuel' count s H Hle; [done|].
  destruct fuel' as [|fuel']; [lia|].
  cbn [generate_name] in *. destruct (count =? 0)%Z; [done|].
  destruct (generate_name fuel ((count - 1) / 26)) as [s'|] eqn:E; [|done].
  rewrite (IH fuel' _ s' E) by lia. done.
Qed.

(** X24. For a count of 0 or more, [generate_name] returns within a recursion
    depth of [count + 1]; the name consists of upper-case letters and
    stands for the count when read as a base-26 numeral with the digits A = 1
    to Z = 26. *)
Theorem generate_name_round_trip (count : Z) :
  (0 ≤ count)%Z →
  ∃ s, (∀ fuel, Z.to_nat count < fuel → generate_name fuel count = Some s) ∧
    name_value s = count ∧ Forall upper_case s.
Proof.
  intros H0.
  destruct (generate_name_returns (S (Z.to_nat count)) count H0) as [s E]; [lia|].
  exists s. split.
  - intros fuel Hf. apply (generate_name_more_fuel _ _ _ _ E). lia.
  - by destruct (generate_name_value _ _ _ E) as (_ & Hv & Hup).
Qed.

Lemma generate_name_round_trip_witness :
  ∃ s, (∀ fuel, Z.to_nat 28 < fuel → generate_name fuel 28 = Some s) ∧
    name_value s = 28%Z ∧ Forall upper_case s.
Proof. apply (generate_name_round_trip 28). lia. Defined.

(** X25. Two counts with the same name are the same count: automatically named
    nodes get distinct names. *)
Theorem generate_name_injective (fuel1 fuel2 : nat) (m n : Z) (s : list ascii) :
  generate_name fuel1 m = Some s → generate_name fuel2 n = Some s → m = n.
Proof.
  intros H1 H2.
  destruct (generate_name_value _ _ _ H1) as (_ & <- & _).
  by destruct (generate_name_value _ _ _ H2) as (_ & <- & _).
Qed.

Lemma generate_name_injective_witness : 27%Z = 27%Z.
Proof.
  apply (generate_name_injective 3 5 27 27 (chr 65 :: chr 65 :: nil));
    reflexivity.
Defined.

(** X26. For a negative count the recursion never reaches its base case: every
    depth bound is exhausted. *)
Theorem generate_name_negative_count (fuel : nat) (count : Z) :
  (count < 0)%Z → generate_name fuel count = None.
Proof.
  revert count. induction fuel as [|fuel IH]; intros count H; [done|].
  cbn [generate_name]. destruct (Z.eqb_spec count 0) as [->|_]; [lia|].
  rewrite IH; [done|]. apply Z.div_lt_upper_bound; lia.
Qed.

Lemma generate_name_negative_count_witness : generate_name 1000 (-1) = None.
Proof. apply generate_name_negative_count. lia. Defined.

End names.

Section method_frames.

(** X27. [construct_odds n] lists exactly the odd-sized selections of the
    positions 1 to n, each in increasing order. *)
Theorem construct_odds_complete (n : nat) (comb : list nat) :
  comb ∈ NodeM.construct_odds n ↔
    comb `sublist_of` NodeM.range1 n ∧ length comb `mod` 2 = 1.
Proof.
  unfold NodeM.construct_odds. rewrite list_elem_of_bind. split.
  - intros (odd & Hc & Hodd).
    apply list_elem_of_filter in Hodd as [Hodd _].
    apply combinations_spec in Hc as [Hs Hlen]. split; [done|by rewrite Hlen].
  - intros [Hs Hodd]. exists (length comb). split.
    + by apply combinations_spec.
    + apply list_elem_of_filter. split; [done|].
      unfold NodeM.range1. apply elem_of_seq.
      pose proof (sublist_length _ _ Hs) as Hle.
      unfold NodeM.range1 in Hle. rewrite length_seq in Hle.
      destruct (length comb) as [|k]; [done|lia].
Qed.

Definition is_constructor (k : call) : bool :=
  match k with
  | NewNode _ | NewGate _ _ => true
  | _ => false
  end.

(** The fields of a node a call cannot write: a field the call may write is
    left out ([None]). *)
Definition frame_of (k : call) (nd : Node)
    : option (option Z) * option value * list gate_id * option gate_id
      * option (option Z * option Z) :=
  match k with
  | SetState _ _ | ActivateFault _ | Reset _ | ResetGate _ | Propagate _ =>
      (Some (stuck_at nd), None, gates nd, gate_output nd,
       Some (cc0 nd, cc1 nd))
  | SetStuckAt _ _ | RemoveFault _ | MakeFaulty _ _ _ =>
      (None, None, gates nd, gate_output nd, Some (cc0 nd, cc1 nd))
  | SetControllability _ =>
      (Some (stuck_at nd), Some (state nd), gates nd, gate_output nd, None)
  | NewNode _ | NewGate _ _ =>
      (Some (stuck_at nd), Some (state nd), gates nd, gate_output nd,
       Some (cc0 nd, cc1 nd))
  end.

(** X28. Whether it returns or raises, on any circuit: a method that assigns or
    propagates values changes no fault, no score and no link; a method that
    attaches or removes a fault changes no score and no link;
    [set_controllability] changes no fault, no value and no link; and none
    of them adds, removes or changes a gate or adds or removes a node. *)
Theorem methods_frame (c : circuit) (k : call) :
  is_constructor k = false →
  gate_heap (exec k c) = gate_heap c ∧
  length (nodes (exec k c)) = length (nodes c) ∧
  ∀ n nd', nodes (exec k c) !! n = Some nd' →
    ∃ nd, nodes c !! n = Some nd ∧ frame_of k nd = frame_of k nd'.
Proof.
  intros Hk.
  assert (framed (frame_of k) c (exec k c)) as Hf.
  { destruct k as [s|ty ins|n v|n s|n|n s set|n|n|g|n|g]; try done;
      cbn [exec].
    - by apply keeps_set_state.
    - by apply keeps_set_stuck_at.
    - by apply keeps_remove_fault.
    - by apply keeps_make_faulty.
    - by apply keeps_activate_fault.
    - by apply keeps_reset.
    - by apply keeps_gate_reset.
    - by apply keeps_set_controllability.
    - by apply keeps_propagate. }
  split; [apply Hf|]. split; [by apply (framed_length (frame_of k))|].
  intros n nd'. by apply framed_lookup.
Qed.

Lemma methods_frame_witness :
  gate_heap (exec (Propagate 0) and_demo) = gate_heap and_demo ∧
  length (nodes (exec (Propagate 0) and_demo)) = length (nodes and_demo) ∧
  ∀ n nd', nodes (exec (Propagate 0) and_demo) !! n = Some nd' →
    ∃ nd, nodes and_demo !! n = Some nd ∧
      frame_of (Propagate 0) nd = frame_of (Propagate 0) nd'.
Proof. exact (methods_frame and_demo (Propagate 0) eq_refl). Defined.

End method_frames.
